(** * ThreadPipe: the single-producer / multiple-consumer pipe of [pipe.h]

    A shallow embedding of [struct TSpipe] and of the operations
    [tsPipeInit], [tsPipeIsEmpty], [tsPipeReaderTryReadBack],
    [tsPipeWriterTryReadFront] and [tsPipeWriterTryWriteFront], together
    with the atomic wrappers of [pipe_atomic.h] they are written with.

    Conventions of the embedding.
    - A [uint32_t] is a [Z]; the wrap-around of [-], [++], [--] and of
      [__atomic_fetch_add] is written out with [u32].
    - [buffer] and [flags] are lists; an access outside the list is the
      outcome [OutOfBounds], so that memory safety is a theorem and not a
      convention of the model.
    - The two [while (1)] loops take a bound on the number of iterations;
      running past it is the outcome [OutOfFuel].
    - The compare exchange is called with [weak = 1] and may then fail
      although the flag holds the expected value.  Whether an attempt
      does is an input of the model: a call takes the list [fails] of
      the outcomes of its successive attempts ([true]: this attempt
      fails spuriously), and past the end of the list no attempt does.
    - Operations that are called one after the other (no operation starts
      before the previous one has returned) are functions from pipe to
      pipe.  The interleaved execution of several callers is the step
      relation of [Module Interleaved]. *)

From stdpp Require Import base list numbers.

Local Open Scope Z_scope.

(** ** Outcomes *)

Inductive res (A : Type) : Type :=
  | Ok (a : A)
  | OutOfFuel
  | OutOfBounds.
Arguments Ok {A} a.
Arguments OutOfFuel {A}.
Arguments OutOfBounds {A}.

#[global] Instance res_ret : MRet res := @Ok.
#[global] Instance res_bind : MBind res := λ A B f r,
  match r with
  | Ok a => f a
  | OutOfFuel => OutOfFuel
  | OutOfBounds => OutOfBounds
  end.

(** ** Constants of the anonymous [enum] of pipe.h *)

Definition TS_PIPE_SIZE_LOG2 : Z := 8.
Definition TS_PIPE_SIZE : Z := Z.shiftl 2 TS_PIPE_SIZE_LOG2.
Definition TS_PIPE_MASK : Z := TS_PIPE_SIZE - 1.
Definition TS_PIPE_READABLE : Z := 0x11111111.
Definition TS_PIPE_WRITABLE : Z := 0x00000000.
Definition TS_PIPE_INVALID : Z := 0xFFFFFFFF.

(** Reduction of an integer to [uint32_t]. *)
Definition u32 (x : Z) : Z := x mod 2 ^ 32.

(** ** [struct TSpipe]

    The five fields of the C structure, and one ghost field:
    [flagStores] records every store made to [flags[]] as a pair
    (slot, stored value), most recent first.  No operation reads it. *)

Record TSpipe : Type := mkTSpipe {
  buffer : list Z;
  flags : list Z;
  writeIndex : Z;
  readIndex : Z;
  readCount : Z;
  flagStores : list (Z * Z)
}.

Definition set_buffer (pipe : TSpipe) (b : list Z) : TSpipe :=
  mkTSpipe b (flags pipe) (writeIndex pipe) (readIndex pipe) (readCount pipe)
           (flagStores pipe).
Definition set_writeIndex (pipe : TSpipe) (v : Z) : TSpipe :=
  mkTSpipe (buffer pipe) (flags pipe) v (readIndex pipe) (readCount pipe)
           (flagStores pipe).
Definition set_readIndex (pipe : TSpipe) (v : Z) : TSpipe :=
  mkTSpipe (buffer pipe) (flags pipe) (writeIndex pipe) v (readCount pipe)
           (flagStores pipe).
Definition set_readCount (pipe : TSpipe) (v : Z) : TSpipe :=
  mkTSpipe (buffer pipe) (flags pipe) (writeIndex pipe) (readIndex pipe) v
           (flagStores pipe).

(** ** Array accesses *)

Definition arr_get (a : list Z) (i : Z) : res Z :=
  if i <? 0 then OutOfBounds
  else match a !! Z.to_nat i with
       | Some x => Ok x
       | None => OutOfBounds
       end.

Definition arr_set (a : list Z) (i v : Z) : res (list Z) :=
  if i <? 0 then OutOfBounds
  else match a !! Z.to_nat i with
       | Some _ => Ok (<[Z.to_nat i := v]> a)
       | None => OutOfBounds
       end.

(** ** pipe_atomic.h

    Each wrapper is a function of the content of the cell it is applied
    to.  The memory order argument has no counterpart here.
    [__atomic_compare_exchange] with [weak] set may fail spuriously, that
    is although the cell holds [expected]; [spurious] tells whether this
    attempt does.  A strong exchange never does. *)

Definition tsAtomicLoad_u32 (cell : Z) : Z := cell.

(** New content of the cell. *)
Definition tsAtomicStore_u32 (val : Z) : Z := val.

(** Success bit and new content of the cell. *)
Definition tsAtomicCmpXchg_u32 (cell expected desired : Z) (weak spurious : bool)
  : bool * Z :=
  if (cell =? expected) && negb (weak && spurious) then (true, desired)
  else (false, cell).

(** Fetched value and new content of the cell. *)
Definition tsAtomicFetchAdd_u32 (cell val : Z) : Z * Z :=
  (cell, u32 (cell + val)).

(** [tsAtomicStore_u32(&pipe->flags[i], val, _)] *)
Definition store_flag (pipe : TSpipe) (i val : Z) : res TSpipe :=
  fl ← arr_set (flags pipe) i (tsAtomicStore_u32 val);
  Ok (mkTSpipe (buffer pipe) fl (writeIndex pipe) (readIndex pipe)
               (readCount pipe) ((i, val) :: flagStores pipe)).

(** [tsAtomicCmpXchg_u32(&pipe->flags[i], &expected, &desired, 1, _, _)] *)
Definition cmpxchg_flag (spurious : bool) (pipe : TSpipe) (i expected desired : Z)
  : res (bool * TSpipe) :=
  cell ← arr_get (flags pipe) i;
  let '(success, cell') :=
    tsAtomicCmpXchg_u32 cell expected desired true spurious in
  if success then pipe' ← store_flag pipe i cell'; Ok (true, pipe')
  else Ok (false, pipe).

(** ** The operations of pipe.h *)

Definition tsPipeInit (pipe : TSpipe) : TSpipe :=
  let pipe := set_buffer pipe (replicate (length (buffer pipe)) 0) in
  let pipe := set_readIndex pipe 0 in
  let pipe := set_writeIndex pipe 0 in
  let pipe := set_readCount pipe 0 in
  pipe.

Definition tsPipeIsEmpty (pipe : TSpipe) : bool :=
  u32 (tsAtomicLoad_u32 (writeIndex pipe) - tsAtomicLoad_u32 (readCount pipe))
  =? 0.

(** The outcome of the next attempt of the compare exchange. *)
Definition next_fails (fails : list bool) : bool := default false (head fails).

(** The loop of [tsPipeReaderTryReadBack], on the locals [readCount] and
    [readIndexToUse].  [(pipe, None)] is the [return 0] inside the loop,
    [(pipe, Some actualReadIndex)] is the [break]. *)
Fixpoint tsPipeReaderTryReadBack_loop (fails : list bool) (fuel : nat)
    (pipe : TSpipe) (readCount_ readIndexToUse : Z) : res (TSpipe * option Z) :=
  match fuel with
  | O => OutOfFuel
  | S fuel =>
    let writeIndex_ := tsAtomicLoad_u32 (writeIndex pipe) in
    let numInPipe := u32 (writeIndex_ - readCount_) in
    if 0 =? numInPipe then Ok (pipe, None)
    else
      let readIndexToUse :=
        if readIndexToUse >=? writeIndex_
        then tsAtomicLoad_u32 (readIndex pipe)
        else readIndexToUse in
      let actualReadIndex := Z.land readIndexToUse TS_PIPE_MASK in
      '(success, pipe) ←
        cmpxchg_flag (next_fails fails) pipe actualReadIndex
                     TS_PIPE_READABLE TS_PIPE_INVALID;
      if success : bool then Ok (pipe, Some actualReadIndex)
      else
        let readIndexToUse := u32 (readIndexToUse + 1) in
        let readCount_ := tsAtomicLoad_u32 (readCount pipe) in
        tsPipeReaderTryReadBack_loop (tail fails) fuel pipe readCount_
                                     readIndexToUse
  end.

(** The result is the pipe, the returned [int], and the value stored to
    [*out] when there is one. *)
Definition tsPipeReaderTryReadBack (fails : list bool) (fuel : nat) (pipe : TSpipe)
  : res (TSpipe * (Z * option Z)) :=
  let readCount_ := tsAtomicLoad_u32 (readCount pipe) in
  let readIndexToUse := readCount_ in
  '(pipe, brk) ←
    tsPipeReaderTryReadBack_loop fails fuel pipe readCount_ readIndexToUse;
  match brk with
  | None => Ok (pipe, (0, None))
  | Some actualReadIndex =>
    let pipe :=
      set_readCount pipe (snd (tsAtomicFetchAdd_u32 (readCount pipe) 1)) in
    out ← arr_get (buffer pipe) actualReadIndex;
    pipe ← store_flag pipe actualReadIndex TS_PIPE_WRITABLE;
    Ok (pipe, (1, Some out))
  end.

(** The loop of [tsPipeWriterTryReadFront], on the local
    [frontReadIndex]; [writeIndex_] is the value loaded before the loop. *)
Fixpoint tsPipeWriterTryReadFront_loop (fails : list bool) (fuel : nat)
    (pipe : TSpipe) (writeIndex_ frontReadIndex : Z) : res (TSpipe * option Z) :=
  match fuel with
  | O => OutOfFuel
  | S fuel =>
    let readCount_ := tsAtomicLoad_u32 (readCount pipe) in
    let numInPipe := u32 (writeIndex_ - readCount_) in
    if 0 =? numInPipe
    then Ok (set_readIndex pipe (tsAtomicStore_u32 readCount_), None)
    else
      let frontReadIndex := u32 (frontReadIndex - 1) in
      let actualReadIndex := Z.land frontReadIndex TS_PIPE_MASK in
      '(success, pipe) ←
        cmpxchg_flag (next_fails fails) pipe actualReadIndex
                     TS_PIPE_READABLE TS_PIPE_INVALID;
      if success : bool then Ok (pipe, Some actualReadIndex)
      else if tsAtomicLoad_u32 (readIndex pipe) >=? frontReadIndex
      then Ok (pipe, None)
      else tsPipeWriterTryReadFront_loop (tail fails) fuel pipe writeIndex_
                                         frontReadIndex
  end.

Definition tsPipeWriterTryReadFront (fails : list bool) (fuel : nat) (pipe : TSpipe)
  : res (TSpipe * (Z * option Z)) :=
  let writeIndex_ := tsAtomicLoad_u32 (writeIndex pipe) in
  let frontReadIndex := writeIndex_ in
  '(pipe, brk) ←
    tsPipeWriterTryReadFront_loop fails fuel pipe writeIndex_ frontReadIndex;
  match brk with
  | None => Ok (pipe, (0, None))
  | Some actualReadIndex =>
    out ← arr_get (buffer pipe) actualReadIndex;
    pipe ← store_flag pipe actualReadIndex TS_PIPE_WRITABLE;
    let pipe := set_writeIndex pipe (tsAtomicStore_u32 (u32 (writeIndex_ - 1))) in
    Ok (pipe, (1, Some out))
  end.

Definition tsPipeWriterTryWriteFront (pipe : TSpipe) (in_ : Z)
  : res (TSpipe * Z) :=
  let writeIndex_ := writeIndex pipe in
  let actualWriteIndex := Z.land writeIndex_ TS_PIPE_MASK in
  flag ← arr_get (flags pipe) actualWriteIndex;
  if negb (tsAtomicLoad_u32 flag =? TS_PIPE_WRITABLE) then Ok (pipe, 0)
  else
    buf ← arr_set (buffer pipe) actualWriteIndex in_;
    let pipe := set_buffer pipe buf in
    pipe ← store_flag pipe actualWriteIndex TS_PIPE_READABLE;
    let pipe :=
      set_writeIndex pipe (snd (tsAtomicFetchAdd_u32 (writeIndex pipe) 1)) in
    Ok (pipe, 1).

(** ** Calls made one after the other *)

Inductive op : Type :=
  | WriterTryWriteFront (in_ : Z)
  | WriterTryReadFront
  | ReaderTryReadBack.

(** What a call hands back: the returned [int] and the value stored to
    [*out], if any. *)
Definition reply : Type := (Z * option Z)%type.

(** A call, with the outcomes [fails] of its attempts of the compare
    exchange ([tsPipeWriterTryWriteFront] makes none). *)
Definition exec (fails : list bool) (fuel : nat) (o : op) (pipe : TSpipe)
  : res (TSpipe * reply) :=
  match o with
  | WriterTryWriteFront in_ =>
    '(pipe, r) ← tsPipeWriterTryWriteFront pipe in_; Ok (pipe, (r, None))
  | WriterTryReadFront => tsPipeWriterTryReadFront fails fuel pipe
  | ReaderTryReadBack => tsPipeReaderTryReadBack fails fuel pipe
  end.

(** Runs the calls in order and pairs each with its reply.  [fails]
    lists, call by call, the outcomes of the attempts of the compare
    exchange; calls past its end meet no spurious failure, and [[]] is
    the run in which no compare exchange fails spuriously. *)
Fixpoint run (fails : list (list bool)) (fuel : nat) (ops : list op)
    (pipe : TSpipe) : res (TSpipe * list (op * reply)) :=
  match ops with
  | [] => Ok (pipe, [])
  | o :: ops =>
    '(pipe, r) ← exec (default [] (head fails)) fuel o pipe;
    '(pipe, log) ← run (tail fails) fuel ops pipe;
    Ok (pipe, (o, r) :: log)
  end.

(** The pipe of the test program: a zero-initialised object of static
    storage ([TSpipe pipe = {0};]) on which [main] calls [tsPipeInit]. *)
Definition zero_pipe : TSpipe :=
  mkTSpipe (replicate (Z.to_nat TS_PIPE_SIZE) 0)
           (replicate (Z.to_nat TS_PIPE_SIZE) 0) 0 0 0 [].

Definition fresh_pipe : TSpipe := tsPipeInit zero_pipe.

(** A pipe is reachable when some sequence of completed calls leads to it
    from the fresh pipe, whatever compare exchanges failed spuriously. *)
Definition reachable (pipe : TSpipe) : Prop :=
  ∃ fails fuel ops log, run fails fuel ops fresh_pipe = Ok (pipe, log).

(** ** Notions the properties are stated with *)

(** The arrays have the extent the structure declares. *)
Definition well_sized (pipe : TSpipe) : Prop :=
  length (buffer pipe) = Z.to_nat TS_PIPE_SIZE ∧
  length (flags pipe) = Z.to_nat TS_PIPE_SIZE.

(** Payloads of the slots whose flag is [TS_PIPE_READABLE], by slot. *)
Fixpoint payloads (buf fl : list Z) : list Z :=
  match buf, fl with
  | b :: buf, f :: fl =>
    if f =? TS_PIPE_READABLE then b :: payloads buf fl else payloads buf fl
  | _, _ => []
  end.

Definition pending (pipe : TSpipe) : list Z :=
  payloads (buffer pipe) (flags pipe).

(** Values passed to the successful writes of a call log, and values
    handed out by its successful reads (front and back), in call order. *)
Definition written (e : op * reply) : list Z :=
  match e with
  | (WriterTryWriteFront v, (r, _)) => if r =? 0 then [] else [v]
  | _ => []
  end.

Definition delivered (e : op * reply) : list Z :=
  match e with
  | (WriterTryReadFront, (_, Some v)) | (ReaderTryReadBack, (_, Some v)) => [v]
  | _ => []
  end.

Definition writes (log : list (op * reply)) : list Z := log ≫= written.
Definition deliveries (log : list (op * reply)) : list Z := log ≫= delivered.

(** The flag protocol: the three sentinels and the cycle they follow. *)
Definition sentinel (f : Z) : bool :=
  (f =? TS_PIPE_WRITABLE) || (f =? TS_PIPE_READABLE) || (f =? TS_PIPE_INVALID).

Definition legal (f g : Z) : bool :=
  ((f =? TS_PIPE_WRITABLE) && (g =? TS_PIPE_READABLE))
  || ((f =? TS_PIPE_READABLE) && (g =? TS_PIPE_INVALID))
  || ((f =? TS_PIPE_INVALID) && (g =? TS_PIPE_WRITABLE)).

(** [cycle f h]: starting from the value [f], the successive values [h]
    each follow the previous one by a legal transition. *)
Fixpoint cycle (f : Z) (h : list Z) : bool :=
  match h with
  | [] => true
  | g :: h => legal f g && cycle g h
  end.

(** Values stored to slot [j], oldest first. *)
Definition stores_to (j : Z) (pipe : TSpipe) : list Z :=
  rev (snd <$> filter (λ e, e.1 = j) (flagStores pipe)).

(** What a completed call does to the pipe, slot by slot. *)
Definition publish (pipe : TSpipe) (a v : Z) : TSpipe :=
  mkTSpipe (<[Z.to_nat a := v]> (buffer pipe))
           (<[Z.to_nat a := TS_PIPE_READABLE]> (flags pipe))
           (u32 (writeIndex pipe + 1)) (readIndex pipe) (readCount pipe)
           ((a, TS_PIPE_READABLE) :: flagStores pipe).

Definition take_back (pipe : TSpipe) (a : Z) : TSpipe :=
  mkTSpipe (buffer pipe)
           (<[Z.to_nat a := TS_PIPE_WRITABLE]> (flags pipe))
           (writeIndex pipe) (readIndex pipe) (u32 (readCount pipe + 1))
           ((a, TS_PIPE_WRITABLE) :: (a, TS_PIPE_INVALID) :: flagStores pipe).

Definition take_front (pipe : TSpipe) (a : Z) : TSpipe :=
  mkTSpipe (buffer pipe)
           (<[Z.to_nat a := TS_PIPE_WRITABLE]> (flags pipe))
           (u32 (writeIndex pipe - 1)) (readIndex pipe) (readCount pipe)
           ((a, TS_PIPE_WRITABLE) :: (a, TS_PIPE_INVALID) :: flagStores pipe).

Inductive effect (pipe : TSpipe) : op → reply → TSpipe → Prop :=
  | effect_full v f :
      flags pipe !! Z.to_nat (Z.land (writeIndex pipe) TS_PIPE_MASK) = Some f →
      f ≠ TS_PIPE_WRITABLE →
      effect pipe (WriterTryWriteFront v) (0, None) pipe
  | effect_publish v a :
      a = Z.land (writeIndex pipe) TS_PIPE_MASK →
      flags pipe !! Z.to_nat a = Some TS_PIPE_WRITABLE →
      (Z.to_nat a < length (buffer pipe))%nat →
      effect pipe (WriterTryWriteFront v) (1, None) (publish pipe a v)
  | effect_front_none ri :
      ri = readIndex pipe ∨ ri = readCount pipe →
      effect pipe WriterTryReadFront (0, None) (set_readIndex pipe ri)
  | effect_front a b :
      0 ≤ a →
      flags pipe !! Z.to_nat a = Some TS_PIPE_READABLE →
      buffer pipe !! Z.to_nat a = Some b →
      effect pipe WriterTryReadFront (1, Some b) (take_front pipe a)
  | effect_back_none :
      effect pipe ReaderTryReadBack (0, None) pipe
  | effect_back a b :
      0 ≤ a →
      flags pipe !! Z.to_nat a = Some TS_PIPE_READABLE →
      buffer pipe !! Z.to_nat a = Some b →
      effect pipe ReaderTryReadBack (1, Some b) (take_back pipe a).

(** What holds of the pipe whenever no call is in progress. *)
Definition quiescent (pipe : TSpipe) : Prop :=
  well_sized pipe ∧
  Forall (λ f, f = TS_PIPE_WRITABLE ∨ f = TS_PIPE_READABLE) (flags pipe) ∧
  u32 (writeIndex pipe - readCount pipe) = Z.of_nat (length (pending pipe)).

(** Call logs of completed calls, whatever the fuel they ran with. *)
Inductive trace : TSpipe → list (op * reply) → TSpipe → Prop :=
  | trace_nil pipe : trace pipe [] pipe
  | trace_cons pipe o r pipe1 log pipe2 :
      effect pipe o r pipe1 → trace pipe1 log pipe2 →
      trace pipe ((o, r) :: log) pipe2.

(** The stores made to every slot follow the cycle from
    [TS_PIPE_WRITABLE] and end at the slot's present flag. *)
Definition flags_follow_cycle (pipe : TSpipe) : Prop :=
  ∀ j f, 0 ≤ j → flags pipe !! Z.to_nat j = Some f →
    cycle TS_PIPE_WRITABLE (stores_to j pipe) = true ∧
    last (stores_to j pipe) TS_PIPE_WRITABLE = f.

(** The three counters hold [uint32_t] values. *)
Definition counters_u32 (pipe : TSpipe) : Prop :=
  0 ≤ writeIndex pipe < 2 ^ 32 ∧ 0 ≤ readIndex pipe < 2 ^ 32 ∧
  0 ≤ readCount pipe < 2 ^ 32.

(** Before the counters wrap around, the readable slots are those of
    the indices from [readCount] up to [writeIndex], and the others are
    writable. *)
Definition windowed (pipe : TSpipe) : Prop :=
  well_sized pipe ∧
  0 ≤ readCount pipe ≤ writeIndex pipe ∧
  writeIndex pipe - readCount pipe ≤ TS_PIPE_SIZE ∧
  ∀ j, 0 ≤ j < TS_PIPE_SIZE →
    (flags pipe !! Z.to_nat j = Some TS_PIPE_WRITABLE ∧
     ∀ i, readCount pipe ≤ i < writeIndex pipe → Z.land i TS_PIPE_MASK ≠ j) ∨
    (flags pipe !! Z.to_nat j = Some TS_PIPE_READABLE ∧
     ∃ i, readCount pipe ≤ i < writeIndex pipe ∧ Z.land i TS_PIPE_MASK = j).

(** ** The pipe as a bounded double-ended queue *)

(** The payload at index [i], and the items in the pipe, oldest first:
    the payloads at the indices from [readCount] up to [writeIndex]. *)
Definition slot_payload (pipe : TSpipe) (i : Z) : Z :=
  default 0 (buffer pipe !! Z.to_nat (Z.land i TS_PIPE_MASK)).

Definition contents (pipe : TSpipe) : list Z :=
  slot_payload pipe <$> seqZ (readCount pipe) (writeIndex pipe - readCount pipe).

(** A queue of at most [TS_PIPE_SIZE] items, oldest first: a write adds
    at the end unless the queue is full, a back read takes the first
    item, a front read takes the last. *)
Definition deque_exec (o : op) (q : list Z) : list Z * reply :=
  match o with
  | WriterTryWriteFront v =>
    if Z.of_nat (length q) <? TS_PIPE_SIZE then (q ++ [v], (1, None))
    else (q, (0, None))
  | WriterTryReadFront =>
    match rev q with
    | [] => (q, (0, None))
    | x :: r => (rev r, (1, Some x))
    end
  | ReaderTryReadBack =>
    match q with
    | [] => (q, (0, None))
    | x :: q' => (q', (1, Some x))
    end
  end.

Fixpoint deque_run (ops : list op) (q : list Z) : list Z * list (op * reply) :=
  match ops with
  | [] => (q, [])
  | o :: ops =>
    let '(q, r) := deque_exec o q in
    let '(q, log) := deque_run ops q in
    (q, (o, r) :: log)
  end.

(** ** Calls that overlap: threads stepping one atomic access at a time

    Every thread is at a program point of one of the three functions, or
    between two calls.  A step of a thread performs the next access to
    the pipe (a load, a store, a compare exchange, a fetch-and-add, or a
    plain access to [buffer[]]) together with the computations on locals
    that follow it up to the next access.  Threads take steps in any
    order.  Thread 0 is the writer: it alone starts
    [tsPipeWriterTryWriteFront] and [tsPipeWriterTryReadFront]; every
    thread may start [tsPipeReaderTryReadBack].  Each step is told
    whether the weak compare exchange, if it makes one, fails
    spuriously. *)
Module Interleaved.

(** Program points, named after the access about to be made, with the
    locals that are live there (and, in [tsPipeWriterTryWriteFront], the
    argument [in_], which the return event reports). *)
Inductive pc : Type :=
  | Idle
  (* tsPipeReaderTryReadBack *)
  | RB_load_writeIndex (readCount_ readIndexToUse : Z)
  | RB_load_readIndex
  | RB_cmpxchg (readIndexToUse : Z)
  | RB_load_readCount (readIndexToUse : Z)
  | RB_fetch_add (actualReadIndex : Z)
  | RB_read_buffer (actualReadIndex : Z)
  | RB_store_flag (actualReadIndex out : Z)
  (* tsPipeWriterTryReadFront *)
  | RF_load_readCount (writeIndex_ frontReadIndex : Z)
  | RF_store_readIndex (readCount_ : Z)
  | RF_cmpxchg (writeIndex_ frontReadIndex : Z)
  | RF_load_readIndex (writeIndex_ frontReadIndex : Z)
  | RF_read_buffer (writeIndex_ actualReadIndex : Z)
  | RF_store_flag (writeIndex_ actualReadIndex out : Z)
  | RF_store_writeIndex (writeIndex_ out : Z)
  (* tsPipeWriterTryWriteFront *)
  | WF_load_flag (in_ actualWriteIndex : Z)
  | WF_store_buffer (in_ actualWriteIndex : Z)
  | WF_store_flag (in_ actualWriteIndex : Z)
  | WF_fetch_add (in_ : Z).

(** What a step lets the outside see. *)
Inductive event : Type :=
  | EvPublish (g : nat) (slot v : Z)  (* [flags[slot]] stored READABLE, payload [v] *)
  | EvClaim (g : nat) (slot : Z)      (* compare exchange of [flags[slot]] won *)
  | EvRead (g : nat) (slot v : Z)     (* [*out = buffer[slot]] *)
  | EvRelease (g : nat) (slot : Z)    (* [flags[slot]] stored WRITABLE *)
  | EvReturn (g : nat) (o : op) (r : reply).

(** One step of thread [g] at program point [p].  [next] is the call an
    idle thread starts; [spurious] makes a compare exchange fail whatever
    the flag holds. *)
Definition thread_step (spurious : bool) (next : op) (g : nat)
    (pipe : TSpipe) (p : pc) : res (TSpipe * pc * list event) :=
  match p with
  | Idle =>
    match next with
    | ReaderTryReadBack =>
      let readCount_ := tsAtomicLoad_u32 (readCount pipe) in
      Ok (pipe, RB_load_writeIndex readCount_ readCount_, [])
    | WriterTryReadFront =>
      let writeIndex_ := tsAtomicLoad_u32 (writeIndex pipe) in
      Ok (pipe, RF_load_readCount writeIndex_ writeIndex_, [])
    | WriterTryWriteFront in_ =>
      let writeIndex_ := writeIndex pipe in
      Ok (pipe, WF_load_flag in_ (Z.land writeIndex_ TS_PIPE_MASK), [])
    end
  | RB_load_writeIndex readCount_ readIndexToUse =>
    let writeIndex_ := tsAtomicLoad_u32 (writeIndex pipe) in
    let numInPipe := u32 (writeIndex_ - readCount_) in
    if 0 =? numInPipe
    then Ok (pipe, Idle, [EvReturn g ReaderTryReadBack (0, None)])
    else if readIndexToUse >=? writeIndex_ then Ok (pipe, RB_load_readIndex, [])
    else Ok (pipe, RB_cmpxchg readIndexToUse, [])
  | RB_load_readIndex =>
    Ok (pipe, RB_cmpxchg (tsAtomicLoad_u32 (readIndex pipe)), [])
  | RB_cmpxchg readIndexToUse =>
    let actualReadIndex := Z.land readIndexToUse TS_PIPE_MASK in
    '(success, pipe) ←
      cmpxchg_flag spurious pipe actualReadIndex TS_PIPE_READABLE TS_PIPE_INVALID;
    if success : bool
    then Ok (pipe, RB_fetch_add actualReadIndex, [EvClaim g actualReadIndex])
    else Ok (pipe, RB_load_readCount (u32 (readIndexToUse + 1)), [])
  | RB_load_readCount readIndexToUse =>
    Ok (pipe, RB_load_writeIndex (tsAtomicLoad_u32 (readCount pipe)) readIndexToUse, [])
  | RB_fetch_add actualReadIndex =>
    Ok (set_readCount pipe (snd (tsAtomicFetchAdd_u32 (readCount pipe) 1)),
        RB_read_buffer actualReadIndex, [])
  | RB_read_buffer actualReadIndex =>
    out ← arr_get (buffer pipe) actualReadIndex;
    Ok (pipe, RB_store_flag actualReadIndex out, [EvRead g actualReadIndex out])
  | RB_store_flag actualReadIndex out =>
    pipe ← store_flag pipe actualReadIndex TS_PIPE_WRITABLE;
    Ok (pipe, Idle,
        [EvRelease g actualReadIndex; EvReturn g ReaderTryReadBack (1, Some out)])
  | RF_load_readCount writeIndex_ frontReadIndex =>
    let readCount_ := tsAtomicLoad_u32 (readCount pipe) in
    let numInPipe := u32 (writeIndex_ - readCount_) in
    if 0 =? numInPipe then Ok (pipe, RF_store_readIndex readCount_, [])
    else Ok (pipe, RF_cmpxchg writeIndex_ (u32 (frontReadIndex - 1)), [])
  | RF_store_readIndex readCount_ =>
    Ok (set_readIndex pipe (tsAtomicStore_u32 readCount_), Idle,
        [EvReturn g WriterTryReadFront (0, None)])
  | RF_cmpxchg writeIndex_ frontReadIndex =>
    let actualReadIndex := Z.land frontReadIndex TS_PIPE_MASK in
    '(success, pipe) ←
      cmpxchg_flag spurious pipe actualReadIndex TS_PIPE_READABLE TS_PIPE_INVALID;
    if success : bool
    then Ok (pipe, RF_read_buffer writeIndex_ actualReadIndex,
             [EvClaim g actualReadIndex])
    else Ok (pipe, RF_load_readIndex writeIndex_ frontReadIndex, [])
  | RF_load_readIndex writeIndex_ frontReadIndex =>
    if tsAtomicLoad_u32 (readIndex pipe) >=? frontReadIndex
    then Ok (pipe, Idle, [EvReturn g WriterTryReadFront (0, None)])
    else Ok (pipe, RF_load_readCount writeIndex_ frontReadIndex, [])
  | RF_read_buffer writeIndex_ actualReadIndex =>
    out ← arr_get (buffer pipe) actualReadIndex;
    Ok (pipe, RF_store_flag writeIndex_ actualReadIndex out,
        [EvRead g actualReadIndex out])
  | RF_store_flag writeIndex_ actualReadIndex out =>
    pipe ← store_flag pipe actualReadIndex TS_PIPE_WRITABLE;
    Ok (pipe, RF_store_writeIndex writeIndex_ out, [EvRelease g actualReadIndex])
  | RF_store_writeIndex writeIndex_ out =>
    Ok (set_writeIndex pipe (tsAtomicStore_u32 (u32 (writeIndex_ - 1))), Idle,
        [EvReturn g WriterTryReadFront (1, Some out)])
  | WF_load_flag in_ actualWriteIndex =>
    flag ← arr_get (flags pipe) actualWriteIndex;
    if negb (tsAtomicLoad_u32 flag =? TS_PIPE_WRITABLE)
    then Ok (pipe, Idle, [EvReturn g (WriterTryWriteFront in_) (0, None)])
    else Ok (pipe, WF_store_buffer in_ actualWriteIndex, [])
  | WF_store_buffer in_ actualWriteIndex =>
    buf ← arr_set (buffer pipe) actualWriteIndex in_;
    Ok (set_buffer pipe buf, WF_store_flag in_ actualWriteIndex, [])
  | WF_store_flag in_ actualWriteIndex =>
    pipe ← store_flag pipe actualWriteIndex TS_PIPE_READABLE;
    Ok (pipe, WF_fetch_add in_, [EvPublish g actualWriteIndex in_])
  | WF_fetch_add in_ =>
    Ok (set_writeIndex pipe (snd (tsAtomicFetchAdd_u32 (writeIndex pipe) 1)), Idle,
        [EvReturn g (WriterTryWriteFront in_) (1, None)])
  end.

(** The pipe, the program point of every thread, and the events so far,
    most recent first. *)
Record config : Type := mkConfig {
  mem : TSpipe;
  threads : list pc;
  log : list event
}.

Inductive step : config → config → Prop :=
  | step_thread c g p spurious next pipe' p' evs :
      threads c !! g = Some p →
      (p = Idle → next = ReaderTryReadBack ∨ g = 0%nat) →
      thread_step spurious next g (mem c) p = Ok (pipe', p', evs) →
      step c (mkConfig pipe' (<[g := p']> (threads c)) (rev evs ++ log c)).

(** [n] threads, none in a call, around the freshly initialised pipe. *)
Definition init (n : nat) : config := mkConfig fresh_pipe (replicate n Idle) [].

Inductive reach (n : nat) : config → Prop :=
  | reach_init : reach n (init n)
  | reach_step c c' : reach n c → step c c' → reach n c'.

(** *** The hand-over protocol of a slot

    A slot is free, or holds a published payload, or is held by the
    thread whose compare exchange claimed it (which has not yet read the
    payload), or has been read by that thread and awaits its release. *)
Inductive slot_state : Type :=
  | Free
  | Full (v : Z)
  | Held (g : nat) (v : Z)
  | Taken (g : nat).

Definition slot_of (e : event) : option Z :=
  match e with
  | EvPublish _ a _ | EvClaim _ a | EvRead _ a _ | EvRelease _ a => Some a
  | EvReturn _ _ _ => None
  end.

(** The protocol: a free slot is published to; a published payload is
    claimed once; the claimant, and no other thread, reads the payload
    that was published, and then releases the slot.  [None] is a
    violation. *)
Definition slot_next (s : slot_state) (e : event) : option slot_state :=
  match s, e with
  | Free, EvPublish _ _ v => Some (Full v)
  | Full v, EvClaim g _ => Some (Held g v)
  | Held g v, EvRead g' _ v' =>
    if decide (g = g' ∧ v = v') then Some (Taken g) else None
  | Taken g, EvRelease g' _ => if decide (g = g') then Some Free else None
  | _, _ => None
  end.

(** State of slot [a] after the events of a log (most recent first), or
    [None] if they violate the protocol. *)
Fixpoint slot_after (a : Z) (l : list event) : option slot_state :=
  match l with
  | [] => Some Free
  | e :: l =>
    s ← slot_after a l;
    if decide (slot_of e = Some a) then slot_next s e else Some s
  end.

(** The slot a thread has claimed and not yet released. *)
Definition claim_of (p : pc) : option Z :=
  match p with
  | RB_fetch_add a | RB_read_buffer a | RB_store_flag a _
  | RF_read_buffer _ a | RF_store_flag _ a _ => Some a
  | _ => None
  end.

(** The slot whose payload a thread is about to write, or to read. *)
Definition buffer_write_of (p : pc) : option Z :=
  match p with
  | WF_store_buffer _ a => Some a
  | _ => None
  end.

Definition buffer_read_of (p : pc) : option Z :=
  match p with
  | RB_read_buffer a | RF_read_buffer _ a => Some a
  | _ => None
  end.

(** What the program point of thread [g] says of the slots. *)
Definition pc_inv (pipe : TSpipe) (l : list event) (g : nat) (p : pc) : Prop :=
  match p with
  | RB_fetch_add a | RB_read_buffer a | RF_read_buffer _ a =>
    0 ≤ a < TS_PIPE_SIZE ∧ ∃ v, slot_after a l = Some (Held g v)
  | RB_store_flag a _ | RF_store_flag _ a _ =>
    0 ≤ a < TS_PIPE_SIZE ∧ slot_after a l = Some (Taken g)
  | WF_load_flag _ a => 0 ≤ a < TS_PIPE_SIZE
  | WF_store_buffer _ a =>
    0 ≤ a < TS_PIPE_SIZE ∧ slot_after a l = Some Free
  | WF_store_flag v a =>
    0 ≤ a < TS_PIPE_SIZE ∧ slot_after a l = Some Free ∧
    buffer pipe !! Z.to_nat a = Some v
  | _ => True
  end.

(** Program points of the two writer functions. *)
Definition writer_pc (p : pc) : bool :=
  match p with
  | RF_load_readCount _ _ | RF_store_readIndex _ | RF_cmpxchg _ _
  | RF_load_readIndex _ _ | RF_read_buffer _ _ | RF_store_flag _ _ _
  | RF_store_writeIndex _ _
  | WF_load_flag _ _ | WF_store_buffer _ _ | WF_store_flag _ _ | WF_fetch_add _ => true
  | _ => false
  end.

(** What the state of a slot says of its flag and payload. *)
Definition slot_inv (pipe : TSpipe) (a : Z) (s : option slot_state) : Prop :=
  match s with
  | Some Free => flags pipe !! Z.to_nat a = Some TS_PIPE_WRITABLE
  | Some (Full v) =>
    flags pipe !! Z.to_nat a = Some TS_PIPE_READABLE ∧
    buffer pipe !! Z.to_nat a = Some v
  | Some (Held _ v) =>
    flags pipe !! Z.to_nat a = Some TS_PIPE_INVALID ∧
    buffer pipe !! Z.to_nat a = Some v
  | Some (Taken _) => flags pipe !! Z.to_nat a = Some TS_PIPE_INVALID
  | None => False
  end.

Definition invariant (c : config) : Prop :=
  well_sized (mem c) ∧
  (∀ g p, threads c !! g = Some p → pc_inv (mem c) (log c) g p) ∧
  (∀ g p, threads c !! g = Some p → writer_pc p = true → g = 0%nat) ∧
  (∀ a, 0 ≤ a < TS_PIPE_SIZE → slot_inv (mem c) a (slot_after a (log c))).

(** Publications to slot [a] and reads of its payload in a log. *)
Definition published_to (a : Z) (e : event) : bool :=
  match e with EvPublish _ b _ => bool_decide (b = a) | _ => false end.

Definition read_from (a : Z) (e : event) : bool :=
  match e with EvRead _ b _ => bool_decide (b = a) | _ => false end.

Definition count_events (f : event → bool) (l : list event) : nat :=
  length (filter (λ e, f e = true) l).

(** Steps of thread [g] while no other thread moves, one for each entry
    of [steps], which tells whether a compare exchange made at that step
    fails spuriously; with the events they report, oldest first. *)
Fixpoint solo (steps : list bool) (next : op) (g : nat) (pipe : TSpipe) (p : pc)
  : res (TSpipe * pc * list event) :=
  match steps with
  | [] => Ok (pipe, p, [])
  | spurious :: steps =>
    '(pipe, p, evs) ← thread_step spurious next g pipe p;
    '(pipe, p, evs') ← solo steps next g pipe p;
    Ok (pipe, p, evs ++ evs')
  end.

(** A schedule names, step after step, the thread that moves, whether
    its compare exchange fails spuriously, and the call it starts if it
    is idle. *)
Definition starts_writer_call (p : pc) (next : op) : bool :=
  match p, next with
  | Idle, (WriterTryWriteFront _ | WriterTryReadFront) => true
  | _, _ => false
  end.

Definition schedule_step (c : config) (x : nat * bool * op) : option config :=
  let '(g, spurious, next) := x in
  p ← threads c !! g;
  if starts_writer_call p next && negb (g =? 0)%nat then None
  else match thread_step spurious next g (mem c) p with
       | Ok (pipe', p', evs) =>
         Some (mkConfig pipe' (<[g := p']> (threads c)) (rev evs ++ log c))
       | _ => None
       end.

Fixpoint run_schedule (xs : list (nat * bool * op)) (c : config) : option config :=
  match xs with
  | [] => Some c
  | x :: xs => c' ← schedule_step c x; run_schedule xs c'
  end.

(** *** The ledger of the payloads and of the counters *)

(** The payload an event hands to the pipe, or hands back to a caller. *)
Definition published (e : event) : list Z :=
  match e with EvPublish _ _ v => [v] | _ => [] end.

Definition returned (e : event) : list Z :=
  match e with EvReturn _ _ (_, Some v) => [v] | _ => [] end.

(** The payload a thread has read from its slot and not yet returned. *)
Definition in_hand (p : pc) : list Z :=
  match p with
  | RB_store_flag _ out | RF_store_flag _ _ out | RF_store_writeIndex _ out => [out]
  | _ => []
  end.

(** The payload a slot keeps for the read that takes it: published, or
    claimed and not yet read. *)
Definition stored (s : option slot_state) : list Z :=
  match s with Some (Full v) | Some (Held _ v) => [v] | _ => [] end.

Definition in_slots (l : list event) : list Z :=
  seqZ 0 TS_PIPE_SIZE ≫= λ a, stored (slot_after a l).

(** The thread that has claimed a slot. *)
Definition holder (s : option slot_state) : option nat :=
  match s with Some (Held g _) | Some (Taken g) => Some g | _ => None end.

Definition full (s : option slot_state) : Z :=
  match s with Some (Full _) => 1 | _ => 0 end.

(** What a call in progress has done to the flags and not yet to its
    counter: a read-back has claimed a slot and not yet added to
    [readCount]; a front read has claimed a slot and not yet stored
    [writeIndex - 1]; a write has published and not yet added to
    [writeIndex]. *)
Definition weight (p : pc) : Z :=
  match p with
  | RB_fetch_add _ => 1
  | RF_read_buffer _ _ | RF_store_flag _ _ _ | RF_store_writeIndex _ _ => 1
  | WF_fetch_add _ => -1
  | _ => 0
  end.

(** The copy of [writeIndex] that a front read works with. *)
Definition writeIndex_of (p : pc) : option Z :=
  match p with
  | RF_load_readCount w _ | RF_cmpxchg w _ | RF_load_readIndex w _
  | RF_read_buffer w _ | RF_store_flag w _ _ | RF_store_writeIndex w _ => Some w
  | _ => None
  end.

Definition Zsum (l : list Z) : Z := foldr Z.add 0 l.

Definition ledger (c : config) : Prop :=
  log c ≫= published
    ≡ₚ (log c ≫= returned) ++ (threads c ≫= in_hand) ++ in_slots (log c) ∧
  (∀ a g, 0 ≤ a < TS_PIPE_SIZE → holder (slot_after a (log c)) = Some g →
     ∃ p, threads c !! g = Some p ∧ claim_of p = Some a) ∧
  u32 (writeIndex (mem c) - readCount (mem c))
    = u32 (Zsum ((λ a, full (slot_after a (log c))) <$> seqZ 0 TS_PIPE_SIZE) +
           Zsum (weight <$> threads c)) ∧
  (∀ g p w, threads c !! g = Some p → writeIndex_of p = Some w →
     w = writeIndex (mem c)).

End Interleaved.

(** * Properties *)

Arguments TS_PIPE_SIZE : simpl never.
Arguments TS_PIPE_MASK : simpl never.
Arguments TS_PIPE_READABLE : simpl never.
Arguments TS_PIPE_WRITABLE : simpl never.
Arguments TS_PIPE_INVALID : simpl never.
Arguments u32 : simpl never.

(** ** Constants and slot indices *)

Lemma TS_PIPE_SIZE_val : TS_PIPE_SIZE = 512.
Proof. reflexivity. Qed.

Lemma TS_PIPE_MASK_ones : TS_PIPE_MASK = Z.ones (TS_PIPE_SIZE_LOG2 + 1).
Proof. reflexivity. Qed.

Lemma slot_mod (i : Z) : Z.land i TS_PIPE_MASK = i mod TS_PIPE_SIZE.
Proof. rewrite TS_PIPE_MASK_ones, Z.land_ones by (cbv; discriminate). reflexivity. Qed.

Lemma slot_range (i : Z) : 0 ≤ Z.land i TS_PIPE_MASK < TS_PIPE_SIZE.
Proof. rewrite slot_mod. apply Z.mod_pos_bound. reflexivity. Qed.

Lemma sentinels_distinct :
  TS_PIPE_WRITABLE ≠ TS_PIPE_READABLE ∧ TS_PIPE_READABLE ≠ TS_PIPE_INVALID ∧
  TS_PIPE_INVALID ≠ TS_PIPE_WRITABLE.
Proof. repeat split; discriminate. Qed.

(** ** Array accesses inside the arrays *)

Lemma arr_get_Ok (a : list Z) (i x : Z) :
  arr_get a i = Ok x ↔ 0 ≤ i ∧ a !! Z.to_nat i = Some x.
Proof.
  unfold arr_get. destruct (Z.ltb_spec i 0).
  - split; [discriminate | lia].
  - destruct (a !! Z.to_nat i) as [y|]; split.
    + intros [= ->]. auto.
    + intros [_ [= ->]]. reflexivity.
    + discriminate.
    + intros [_ [=]].
Qed.

Lemma arr_get_in (a : list Z) (i : Z) :
  0 ≤ i < Z.of_nat (length a) → ∃ x, arr_get a i = Ok x ∧ a !! Z.to_nat i = Some x.
Proof.
  intros Hi. destruct (lookup_lt_is_Some_2 a (Z.to_nat i)) as [x Hx]; [lia|].
  exists x. split; [|done]. apply arr_get_Ok. split; [lia | done].
Qed.

Lemma arr_set_Ok (a b : list Z) (i v : Z) :
  arr_set a i v = Ok b ↔
  0 ≤ i ∧ (Z.to_nat i < length a)%nat ∧ b = <[Z.to_nat i := v]> a.
Proof.
  unfold arr_set. destruct (Z.ltb_spec i 0).
  - split; [discriminate | lia].
  - destruct (a !! Z.to_nat i) as [y|] eqn:E; split.
    + intros [= <-]. apply lookup_lt_Some in E. auto.
    + intros (_ & _ & ->). reflexivity.
    + discriminate.
    + intros (_ & Hlt & _). apply lookup_ge_None in E. lia.
Qed.

Lemma arr_set_in (a : list Z) (i v : Z) :
  0 ≤ i < Z.of_nat (length a) → arr_set a i v = Ok (<[Z.to_nat i := v]> a).
Proof. intros Hi. apply arr_set_Ok. repeat split; lia. Qed.

Lemma store_flag_Ok (pipe pipe' : TSpipe) (i v : Z) :
  store_flag pipe i v = Ok pipe' ↔
  0 ≤ i ∧ (Z.to_nat i < length (flags pipe))%nat ∧
  pipe' = mkTSpipe (buffer pipe) (<[Z.to_nat i := v]> (flags pipe))
            (writeIndex pipe) (readIndex pipe) (readCount pipe)
            ((i, v) :: flagStores pipe).
Proof.
  unfold store_flag, tsAtomicStore_u32.
  destruct (arr_set (flags pipe) i v) as [fl| |] eqn:E; simpl; split.
  - intros [= <-]. apply arr_set_Ok in E as (? & ? & ->). auto.
  - intros (? & ? & ->). f_equal.
    rewrite arr_set_in in E by lia. by injection E as <-.
  - discriminate.
  - intros (? & ? & _). rewrite arr_set_in in E by lia. discriminate.
  - discriminate.
  - intros (? & ? & _). rewrite arr_set_in in E by lia. discriminate.
Qed.

Lemma cmpxchg_flag_Ok (sp : bool) (pipe : TSpipe) (i e d : Z)
    (r : bool * TSpipe) :
  cmpxchg_flag sp pipe i e d = Ok r →
  0 ≤ i ∧ ∃ f, flags pipe !! Z.to_nat i = Some f ∧
    if r.1 then f = e ∧ sp = false ∧ store_flag pipe i d = Ok r.2
    else (f ≠ e ∨ sp = true) ∧ r.2 = pipe.
Proof.
  unfold cmpxchg_flag, tsAtomicCmpXchg_u32.
  destruct (arr_get (flags pipe) i) as [f| |] eqn:E; simpl; try discriminate.
  apply arr_get_Ok in E as [Hi Hf]. intros H. split; [done|]. exists f.
  split; [done|]. destruct (Z.eqb_spec f e) as [->|Hne], sp; simpl in H.
  - injection H as <-. simpl. auto.
  - destruct (store_flag pipe i d) as [p| |] eqn:S; simpl in H; try discriminate.
    injection H as <-. simpl. auto.
  - injection H as <-. simpl. auto.
  - injection H as <-. simpl. auto.
Qed.

Lemma cmpxchg_flag_in (sp : bool) (pipe : TSpipe) (i e d : Z) :
  0 ≤ i < Z.of_nat (length (flags pipe)) →
  ∃ r, cmpxchg_flag sp pipe i e d = Ok r.
Proof.
  intros Hi. unfold cmpxchg_flag, tsAtomicCmpXchg_u32.
  destruct (arr_get_in (flags pipe) i Hi) as (f & -> & _). simpl.
  destruct ((f =? e) && negb sp); [|eauto].
  unfold store_flag. rewrite arr_set_in by done. simpl. eauto.
Qed.

(** The exchange that does not fail spuriously takes the flag that
    holds the expected value. *)
Lemma cmpxchg_flag_takes (pipe : TSpipe) (i e d : Z) :
  0 ≤ i → flags pipe !! Z.to_nat i = Some e →
  cmpxchg_flag false pipe i e d = store_flag pipe i d ≫= λ q, Ok (true, q).
Proof.
  intros Hi Hf. unfold cmpxchg_flag, tsAtomicCmpXchg_u32.
  rewrite (proj2 (arr_get_Ok _ _ _) (conj Hi Hf)). cbn [mbind res_bind].
  by rewrite Z.eqb_refl.
Qed.

(** ** What the loops and the calls do *)

Ltac res_simpl := cbn [mbind res_bind mret res_ret fst snd].
Tactic Notation "res_simpl" "in" hyp(H) :=
  cbn [mbind res_bind mret res_ret fst snd] in H.
Ltac pipe_simpl :=
  cbn [set_buffer set_writeIndex set_readIndex set_readCount
       buffer flags writeIndex readIndex readCount flagStores fst snd].
Tactic Notation "pipe_simpl" "in" hyp(H) :=
  cbn [set_buffer set_writeIndex set_readIndex set_readCount
       buffer flags writeIndex readIndex readCount flagStores fst snd] in H.

Lemma tsPipeReaderTryReadBack_loop_Ok fuel : ∀ fails pipe rc i pipe' brk,
  tsPipeReaderTryReadBack_loop fails fuel pipe rc i = Ok (pipe', brk) →
  match brk with
  | None => pipe' = pipe
  | Some a => 0 ≤ a ∧ flags pipe !! Z.to_nat a = Some TS_PIPE_READABLE ∧
              store_flag pipe a TS_PIPE_INVALID = Ok pipe'
  end.
Proof.
  induction fuel as [|fuel IH]; intros fails pipe rc i pipe' brk;
    cbn [tsPipeReaderTryReadBack_loop]; [discriminate|].
  destruct (0 =? _); [by intros [= <- <-]|].
  destruct (cmpxchg_flag _ _ _ _ _) as [[s p]| |] eqn:E; res_simpl; try discriminate.
  apply cmpxchg_flag_Ok in E as (Ha & f & Hf & E). cbn [fst snd] in E.
  destruct s.
  - destruct E as (-> & _ & E). intros [= <- <-]. auto.
  - destruct E as [_ ->]. apply IH.
Qed.

Lemma tsPipeWriterTryReadFront_loop_Ok fuel : ∀ fails pipe wi i pipe' brk,
  tsPipeWriterTryReadFront_loop fails fuel pipe wi i = Ok (pipe', brk) →
  match brk with
  | None => ∃ ri, (ri = readIndex pipe ∨ ri = readCount pipe) ∧
                  pipe' = set_readIndex pipe ri
  | Some a => 0 ≤ a ∧ flags pipe !! Z.to_nat a = Some TS_PIPE_READABLE ∧
              store_flag pipe a TS_PIPE_INVALID = Ok pipe'
  end.
Proof.
  induction fuel as [|fuel IH]; intros fails pipe wi i pipe' brk;
    cbn [tsPipeWriterTryReadFront_loop]; [discriminate|].
  destruct (0 =? _); [intros [= <- <-]; eauto|].
  destruct (cmpxchg_flag _ _ _ _ _) as [[s p]| |] eqn:E; res_simpl; try discriminate.
  apply cmpxchg_flag_Ok in E as (Ha & f & Hf & E). cbn [fst snd] in E.
  destruct s.
  - destruct E as (-> & _ & E). intros [= <- <-]. auto.
  - destruct E as [_ ->]. destruct (_ >=? _); [|apply IH].
    intros [= <- <-]. exists (readIndex pipe). split; [by left | by destruct pipe].
Qed.

Lemma exec_effect (fails : list bool) (fuel : nat) (o : op)
    (pipe pipe' : TSpipe) (r : reply) :
  exec fails fuel o pipe = Ok (pipe', r) → effect pipe o r pipe'.
Proof.
  destruct o as [v| |]; cbn [exec].
  - unfold tsPipeWriterTryWriteFront, tsAtomicLoad_u32, tsAtomicFetchAdd_u32.
    set (a := Z.land _ _).
    destruct (arr_get (flags pipe) a) as [f| |] eqn:E; res_simpl; try discriminate.
    apply arr_get_Ok in E as [Ha Hf].
    destruct (Z.eqb_spec f TS_PIPE_WRITABLE) as [->|Hne]; cbn [negb]; res_simpl.
    + destruct (arr_set (buffer pipe) a v) as [buf| |] eqn:B; res_simpl; try discriminate.
      apply arr_set_Ok in B as (_ & Hlen & ->).
      destruct (store_flag _ a _) as [p| |] eqn:S; res_simpl; try discriminate.
      apply store_flag_Ok in S as (_ & _ & ->).
      intros [= <- <-]. pipe_simpl. by apply (effect_publish pipe v a).
    + intros [= <- <-]. by eapply effect_full.
  - unfold tsPipeWriterTryReadFront, tsAtomicLoad_u32, tsAtomicStore_u32.
    destruct (tsPipeWriterTryReadFront_loop _ _ _ _ _) as [[p [a|]]| |] eqn:L;
      res_simpl; try discriminate; apply tsPipeWriterTryReadFront_loop_Ok in L.
    + destruct L as (Ha & Hf & S).
      apply store_flag_Ok in S as (_ & Hlen & ->). cbn [buffer].
      destruct (arr_get (buffer pipe) a) as [b| |] eqn:B; res_simpl; try discriminate.
      apply arr_get_Ok in B as [_ Hb].
      unfold store_flag. cbn [flags]. rewrite arr_set_in by (rewrite length_insert; lia).
      res_simpl. rewrite list_insert_insert_eq. intros [= <- <-]. pipe_simpl.
      by apply (effect_front pipe a b).
    + destruct L as (ri & Hri & ->). intros [= <- <-]. by apply effect_front_none.
  - unfold tsPipeReaderTryReadBack, tsAtomicLoad_u32, tsAtomicFetchAdd_u32.
    destruct (tsPipeReaderTryReadBack_loop _ _ _ _ _) as [[p [a|]]| |] eqn:L;
      res_simpl; try discriminate; apply tsPipeReaderTryReadBack_loop_Ok in L.
    + destruct L as (Ha & Hf & S).
      apply store_flag_Ok in S as (_ & Hlen & ->). pipe_simpl.
      destruct (arr_get (buffer pipe) a) as [b| |] eqn:B; res_simpl; try discriminate.
      apply arr_get_Ok in B as [_ Hb].
      unfold store_flag. pipe_simpl. rewrite arr_set_in by (rewrite length_insert; lia).
      res_simpl. rewrite list_insert_insert_eq. intros [= <- <-]. pipe_simpl.
      by apply (effect_back pipe a b).
    + subst p. intros [= <- <-]. apply effect_back_none.
Qed.

(** ** Arithmetic of [uint32_t] *)

Lemma u32_small (x : Z) : 0 ≤ x < 2 ^ 32 → u32 x = x.
Proof. apply Z.mod_small. Qed.

Lemma u32_sub_l (a b : Z) : u32 (u32 a - b) = u32 (a - b).
Proof. apply Zminus_mod_idemp_l. Qed.

Lemma u32_sub_r (a b : Z) : u32 (a - u32 b) = u32 (a - b).
Proof. apply Zminus_mod_idemp_r. Qed.

Lemma u32_succ (a n : Z) : u32 a = n → u32 (a + 1) = u32 (n + 1).
Proof. intros <-. unfold u32. by rewrite Zplus_mod_idemp_l. Qed.

Lemma u32_pred (a n : Z) : u32 a = n → u32 (a - 1) = u32 (n - 1).
Proof. intros <-. by rewrite u32_sub_l. Qed.

(** ** Payloads of the readable slots *)

Lemma payloads_length (buf fl : list Z) :
  (length (payloads buf fl) ≤ length fl)%nat.
Proof.
  revert fl. induction buf as [|b buf IH]; intros [|f fl]; simpl; try lia.
  specialize (IH fl). destruct (f =? _); simpl; lia.
Qed.

Lemma payloads_publish (buf fl : list Z) (n : nat) (f v : Z) :
  fl !! n = Some f → f ≠ TS_PIPE_READABLE → (n < length buf)%nat →
  payloads (<[n := v]> buf) (<[n := TS_PIPE_READABLE]> fl) ≡ₚ v :: payloads buf fl.
Proof.
  revert fl n. induction buf as [|b buf IH]; intros [|g fl] [|n]; simpl;
    try discriminate; try lia.
  - intros [= ->] Hf _. by destruct (Z.eqb_spec f TS_PIPE_READABLE).
  - intros Hn Hf Hlt. destruct (g =? _).
    + rewrite (IH fl n) by (done || lia). apply perm_swap.
    + apply IH; (done || lia).
Qed.

Lemma payloads_take (buf fl : list Z) (n : nat) (b g : Z) :
  fl !! n = Some TS_PIPE_READABLE → buf !! n = Some b → g ≠ TS_PIPE_READABLE →
  payloads buf fl ≡ₚ b :: payloads buf (<[n := g]> fl).
Proof.
  revert fl n. induction buf as [|c buf IH]; intros [|f fl] [|n]; simpl;
    try discriminate.
  - intros [= ->] [= ->] Hg.
    by destruct (Z.eqb_spec g TS_PIPE_READABLE).
  - intros Hn Hb Hg. destruct (f =? _).
    + rewrite (IH fl n) by done. apply perm_swap.
    + by apply IH.
Qed.

Lemma payloads_none (buf fl : list Z) :
  Forall (λ f, f ≠ TS_PIPE_READABLE) fl → payloads buf fl = [].
Proof.
  intros H. revert buf. induction H as [|f fl Hf _ IH]; intros [|b buf]; simpl; try done.
  by destruct (Z.eqb_spec f TS_PIPE_READABLE).
Qed.

(** ** The quiescent invariant *)

Lemma well_sized_bound (pipe : TSpipe) (a : Z) :
  well_sized pipe → 0 ≤ a < TS_PIPE_SIZE →
  0 ≤ a < Z.of_nat (length (flags pipe)) ∧ 0 ≤ a < Z.of_nat (length (buffer pipe)).
Proof. intros [-> ->]. rewrite TS_PIPE_SIZE_val. lia. Qed.

Lemma pending_bound (pipe : TSpipe) :
  well_sized pipe → 0 ≤ Z.of_nat (length (pending pipe)) ≤ TS_PIPE_SIZE.
Proof.
  intros [_ Hf]. pose proof (payloads_length (buffer pipe) (flags pipe)) as H.
  unfold pending. rewrite Hf in H. rewrite TS_PIPE_SIZE_val in *. lia.
Qed.

Lemma fresh_pipe_quiescent : quiescent fresh_pipe.
Proof.
  split; [|split].
  - split; unfold fresh_pipe, tsPipeInit; pipe_simpl; cbn [zero_pipe];
      pipe_simpl; by rewrite ?length_replicate.
  - apply Forall_replicate. by left.
  - unfold pending, fresh_pipe, tsPipeInit; pipe_simpl. cbn [zero_pipe].
    rewrite payloads_none; [done|]. by apply Forall_replicate.
Qed.

Lemma effect_quiescent (pipe pipe' : TSpipe) (o : op) (r : reply) :
  quiescent pipe → effect pipe o r pipe' → quiescent pipe'.
Proof.
  intros (Hws & Hfl & Hcnt) E.
  pose proof (pending_bound pipe Hws) as Hb.
  destruct E as [v f Hf Hne | v a -> Hf Hlen | ri Hri | a b Ha Hf Hbuf | | a b Ha Hf Hbuf].
  - done.
  - assert (Hp : pending (publish pipe (Z.land (writeIndex pipe) TS_PIPE_MASK) v)
                 ≡ₚ v :: pending pipe).
    { unfold pending, publish; pipe_simpl.
      eapply payloads_publish; [done | discriminate | done]. }
    assert (Hws' : well_sized (publish pipe (Z.land (writeIndex pipe) TS_PIPE_MASK) v)).
    { destruct Hws. split; unfold publish; pipe_simpl; by rewrite length_insert. }
    split; [done|]. split.
    + unfold publish; pipe_simpl. apply Forall_insert; auto.
    + pose proof (pending_bound _ Hws') as Hb'.
      rewrite Hp in Hb' |- *. simpl length in *.
      unfold publish; pipe_simpl. rewrite u32_sub_l.
      replace (writeIndex pipe + 1 - readCount pipe)
        with (writeIndex pipe - readCount pipe + 1) by lia.
      rewrite (u32_succ _ _ Hcnt), u32_small; [lia|].
      rewrite TS_PIPE_SIZE_val in *. lia.
  - done.
  - assert (Hp : pending pipe ≡ₚ b :: pending (take_front pipe a)).
    { unfold pending, take_front; pipe_simpl.
      eapply payloads_take; [done | done | discriminate]. }
    split; [|split].
    + destruct Hws. split; unfold take_front; pipe_simpl; by rewrite ?length_insert.
    + unfold take_front; pipe_simpl. apply Forall_insert; auto.
    + rewrite Hp in Hb, Hcnt. simpl length in *.
      unfold take_front at 1 2; pipe_simpl. rewrite u32_sub_l.
      replace (writeIndex pipe - 1 - readCount pipe)
        with (writeIndex pipe - readCount pipe - 1) by lia.
      rewrite (u32_pred _ _ Hcnt). rewrite u32_small; [lia|].
      rewrite TS_PIPE_SIZE_val in *. lia.
  - done.
  - assert (Hp : pending pipe ≡ₚ b :: pending (take_back pipe a)).
    { unfold pending, take_back; pipe_simpl.
      eapply payloads_take; [done | done | discriminate]. }
    split; [|split].
    + destruct Hws. split; unfold take_back; pipe_simpl; by rewrite ?length_insert.
    + unfold take_back; pipe_simpl. apply Forall_insert; auto.
    + rewrite Hp in Hb, Hcnt. simpl length in *.
      unfold take_back at 1 2; pipe_simpl. rewrite u32_sub_r.
      replace (writeIndex pipe - (readCount pipe + 1))
        with (writeIndex pipe - readCount pipe - 1) by lia.
      rewrite (u32_pred _ _ Hcnt). rewrite u32_small; [lia|].
      rewrite TS_PIPE_SIZE_val in *. lia.
Qed.

(** ** Sequences of calls *)

Lemma run_trace fuel ops : ∀ fails pipe pipe' log,
  run fails fuel ops pipe = Ok (pipe', log) → trace pipe log pipe'.
Proof.
  induction ops as [|o ops IH]; intros fails pipe pipe' log; cbn [run].
  - intros [= <- <-]. constructor.
  - destruct (exec _ fuel o pipe) as [[p1 r]| |] eqn:E; res_simpl; try discriminate.
    destruct (run _ fuel ops p1) as [[p2 l]| |] eqn:R; res_simpl; try discriminate.
    intros [= <- <-]. econstructor; eauto using exec_effect.
Qed.

Lemma trace_app_inv (pipe pipe' : TSpipe) (l1 l2 : list (op * reply)) :
  trace pipe (l1 ++ l2) pipe' → ∃ q, trace pipe l1 q ∧ trace q l2 pipe'.
Proof.
  revert pipe. induction l1 as [|e l1 IH]; intros pipe; simpl.
  - intros H. exists pipe. split; [constructor | done].
  - inversion 1 as [|? ? ? p1 ? ? E T]; subst. destruct (IH _ T) as (q & H1 & H2).
    exists q. split; [econstructor; eauto | done].
Qed.

Lemma trace_quiescent (pipe pipe' : TSpipe) (log : list (op * reply)) :
  trace pipe log pipe' → quiescent pipe → quiescent pipe'.
Proof. induction 1; eauto using effect_quiescent. Qed.

Lemma reachable_quiescent (pipe : TSpipe) : reachable pipe → quiescent pipe.
Proof.
  intros (fails & fuel & ops & log & H). apply run_trace in H.
  eapply trace_quiescent; [done|]. apply fresh_pipe_quiescent.
Qed.

(** ** Conservation of payloads *)

Lemma payloads_elem (buf fl : list Z) (n : nat) (b : Z) :
  fl !! n = Some TS_PIPE_READABLE → buf !! n = Some b → b ∈ payloads buf fl.
Proof.
  intros Hf Hb.
  rewrite (payloads_take buf fl n b TS_PIPE_WRITABLE Hf Hb); [left | discriminate].
Qed.

Lemma effect_conservation (pipe pipe' : TSpipe) (o : op) (r : reply) :
  effect pipe o r pipe' →
  written (o, r) ++ pending pipe ≡ₚ delivered (o, r) ++ pending pipe'.
Proof.
  destruct 1 as [v f Hf Hne | v a -> Hf Hlen | ri Hri | a b Ha Hf Hbuf | | a b Ha Hf Hbuf];
    simpl; try done.
  - symmetry. unfold pending, publish; pipe_simpl.
    eapply payloads_publish; [done | discriminate | done].
  - unfold pending, take_front; pipe_simpl.
    eapply payloads_take; [done | done | discriminate].
  - unfold pending, take_back; pipe_simpl.
    eapply payloads_take; [done | done | discriminate].
Qed.

Lemma trace_conservation (pipe pipe' : TSpipe) (log : list (op * reply)) :
  trace pipe log pipe' →
  writes log ++ pending pipe ≡ₚ deliveries log ++ pending pipe'.
Proof.
  induction 1 as [|pipe o r pipe1 log pipe2 E _ IH]; [done|].
  unfold writes, deliveries in *. rewrite !bind_cons, <- !app_assoc.
  rewrite <- IH.
  rewrite (Permutation_app_comm (delivered _)), <- app_assoc.
  rewrite (Permutation_app_comm (written _)), <- app_assoc.
  apply Permutation_app_head. rewrite Permutation_app_comm.
  rewrite (effect_conservation _ _ _ _ E). apply Permutation_app_comm.
Qed.

Lemma pending_fresh_pipe : pending fresh_pipe = [].
Proof.
  unfold pending, fresh_pipe, tsPipeInit; pipe_simpl. cbn [zero_pipe].
  apply payloads_none. by apply Forall_replicate.
Qed.

(** ** The flag cycle *)

Lemma last_cons_default (x d : Z) (h : list Z) : last (x :: h) d = last h x.
Proof.
  revert x d. induction h as [|y h IH]; intros x d; [done|].
  change (last (x :: y :: h) d) with (last (y :: h) d).
  by rewrite (IH y d), (IH y x).
Qed.

Lemma cycle_snoc (f g : Z) (h : list Z) :
  cycle f (h ++ [g]) = cycle f h && legal (last h f) g.
Proof.
  revert f. induction h as [|x h IH]; intros f.
  - simpl. by rewrite andb_true_r.
  - change (cycle f ((x :: h) ++ [g])) with (legal f x && cycle x (h ++ [g])).
    rewrite IH, andb_assoc, last_cons_default. reflexivity.
Qed.

Lemma cycle_sentinels (f : Z) (h : list Z) :
  cycle f h = true → Forall (λ g, sentinel g = true) h.
Proof.
  revert f. induction h as [|g h IH]; intros f; [constructor|].
  cbn [cycle]. intros [Hl Hc]%andb_true_iff. constructor; [|eauto].
  unfold legal, sentinel in *.
  destruct (Z.eqb_spec g TS_PIPE_WRITABLE), (Z.eqb_spec g TS_PIPE_READABLE),
    (Z.eqb_spec g TS_PIPE_INVALID); try done.
  by rewrite !andb_false_r in Hl.
Qed.

(** A history that follows the cycle and has come to rest on WRITABLE or
    READABLE is a number of whole cycles, followed by the WRITABLE it
    rests on or by WRITABLE, READABLE. *)
Lemma cycle_word (k : nat) : ∀ h,
  (length h ≤ k)%nat →
  cycle TS_PIPE_WRITABLE h = true →
  last h TS_PIPE_WRITABLE = TS_PIPE_WRITABLE ∨
  last h TS_PIPE_WRITABLE = TS_PIPE_READABLE →
  ∃ n, TS_PIPE_WRITABLE :: h =
       concat (replicate n [TS_PIPE_WRITABLE; TS_PIPE_READABLE; TS_PIPE_INVALID])
       ++ (if last h TS_PIPE_WRITABLE =? TS_PIPE_WRITABLE
           then [TS_PIPE_WRITABLE]
           else [TS_PIPE_WRITABLE; TS_PIPE_READABLE]).
Proof.
  assert (HL : ∀ f g, legal f g = true →
            (f = TS_PIPE_WRITABLE ∧ g = TS_PIPE_READABLE) ∨
            (f = TS_PIPE_READABLE ∧ g = TS_PIPE_INVALID) ∨
            (f = TS_PIPE_INVALID ∧ g = TS_PIPE_WRITABLE)).
  { intros f g. unfold legal.
    destruct (Z.eqb_spec f TS_PIPE_WRITABLE), (Z.eqb_spec g TS_PIPE_READABLE),
      (Z.eqb_spec f TS_PIPE_READABLE), (Z.eqb_spec g TS_PIPE_INVALID),
      (Z.eqb_spec f TS_PIPE_INVALID), (Z.eqb_spec g TS_PIPE_WRITABLE);
      cbn; intros; try done; auto. }
  induction k as [k IH] using lt_wf_ind. intros h Hlen Hc Hlast.
  destruct h as [|x [|y [|z h]]].
  - by exists 0%nat.
  - cbn [cycle] in Hc. apply andb_true_iff in Hc as [Hx _].
    apply HL in Hx as [[_ ->]|[[? _]|[? _]]]; try done. by exists 0%nat.
  - cbn [cycle] in Hc. apply andb_true_iff in Hc as [Hx Hc].
    apply andb_true_iff in Hc as [Hy _].
    apply HL in Hx as [[_ ->]|[[? _]|[? _]]]; try done.
    apply HL in Hy as [[? _]|[[_ ->]|[? _]]]; try done.
    by destruct Hlast.
  - cbn [cycle] in Hc. apply andb_true_iff in Hc as [Hx Hc].
    apply andb_true_iff in Hc as [Hy Hc]. apply andb_true_iff in Hc as [Hz Hc].
    apply HL in Hx as [[_ ->]|[[? _]|[? _]]]; try done.
    apply HL in Hy as [[? _]|[[_ ->]|[? _]]]; try done.
    apply HL in Hz as [[? _]|[[? _]|[_ ->]]]; try done.
    rewrite !last_cons_default in Hlast |- *.
    cbn [length] in Hlen.
    destruct (IH (length h) ltac:(lia) h (le_n _) Hc Hlast) as [n Hn].
    exists (S n). cbn [replicate concat app]. by rewrite <- Hn.
Qed.

Lemma stores_to_cons (j a v : Z) (pipe : TSpipe) (st : list (Z * Z)) :
  flagStores pipe = (a, v) :: st →
  stores_to j pipe =
  if decide (a = j)
  then rev (snd <$> filter (λ e, e.1 = j) st) ++ [v]
  else rev (snd <$> filter (λ e, e.1 = j) st).
Proof.
  unfold stores_to. intros ->. rewrite filter_cons. cbn [fst].
  destruct (decide (a = j)); [|done]. by rewrite fmap_cons.
Qed.

Lemma fresh_pipe_follows : flags_follow_cycle fresh_pipe.
Proof.
  intros j f Hj Hf. split; [done|].
  change (flags fresh_pipe) with (replicate (Z.to_nat TS_PIPE_SIZE) 0) in Hf.
  apply lookup_replicate in Hf as [-> _]. reflexivity.
Qed.

Lemma effect_follows (pipe pipe' : TSpipe) (o : op) (r : reply) :
  flags_follow_cycle pipe → effect pipe o r pipe' → flags_follow_cycle pipe'.
Proof.
  intros H E.
  destruct E as [v f Hf Hne | v a -> Hf Hlen | ri Hri | a b Ha Hf Hbuf | | a b Ha Hf Hbuf];
    try done.
  - set (a := Z.land _ _) in *. pose proof (slot_range (writeIndex pipe)) as Ha.
    fold a in Ha. intros j f Hj. unfold publish; pipe_simpl.
    rewrite (stores_to_cons j a TS_PIPE_READABLE _ (flagStores pipe)) by done.
    destruct (decide (a = j)) as [->|Hne].
    + rewrite list_lookup_insert_eq by (by eapply lookup_lt_Some).
      intros [= <-]. destruct (H j _ Hj Hf) as [Hc Hl].
      fold (stores_to j pipe). rewrite cycle_snoc, Hc, Hl, last_last. done.
    + rewrite list_lookup_insert_ne by lia. apply H, Hj.
  - intros j f Hj. unfold take_front; pipe_simpl.
    rewrite (stores_to_cons j a TS_PIPE_WRITABLE _ _) by done.
    destruct (decide (a = j)) as [->|Hne].
    + rewrite list_lookup_insert_eq by (by eapply lookup_lt_Some).
      intros [= <-]. destruct (H j _ Hj Hf) as [Hc Hl].
      rewrite filter_cons. cbn [fst]. rewrite decide_True by done.
      rewrite fmap_cons. cbn [rev snd]. fold (stores_to j pipe).
      rewrite !cycle_snoc, Hc, Hl, !last_last. done.
    + rewrite list_lookup_insert_ne by lia.
      rewrite filter_cons. cbn [fst]. rewrite decide_False by done. apply H, Hj.
  - intros j f Hj. unfold take_back; pipe_simpl.
    rewrite (stores_to_cons j a TS_PIPE_WRITABLE _ _) by done.
    destruct (decide (a = j)) as [->|Hne].
    + rewrite list_lookup_insert_eq by (by eapply lookup_lt_Some).
      intros [= <-]. destruct (H j _ Hj Hf) as [Hc Hl].
      rewrite filter_cons. cbn [fst]. rewrite decide_True by done.
      rewrite fmap_cons. cbn [rev snd]. fold (stores_to j pipe).
      rewrite !cycle_snoc, Hc, Hl, !last_last. done.
    + rewrite list_lookup_insert_ne by lia.
      rewrite filter_cons. cbn [fst]. rewrite decide_False by done. apply H, Hj.
Qed.

Lemma trace_follows (pipe pipe' : TSpipe) (log : list (op * reply)) :
  trace pipe log pipe' → flags_follow_cycle pipe → flags_follow_cycle pipe'.
Proof. induction 1; eauto using effect_follows. Qed.

(** ** Counters stay [uint32_t] values *)

Lemma u32_range (x : Z) : 0 ≤ u32 x < 2 ^ 32.
Proof. apply Z.mod_pos_bound. done. Qed.

Lemma effect_counters (pipe pipe' : TSpipe) (o : op) (r : reply) :
  counters_u32 pipe → effect pipe o r pipe' → counters_u32 pipe'.
Proof.
  intros (Hw & Hi & Hc) E.
  destruct E as [v f Hf Hne | v a -> Hf Hlen | ri Hri | a b Ha Hf Hbuf | | a b Ha Hf Hbuf];
    unfold counters_u32, publish, take_front, take_back; pipe_simpl;
    auto using u32_range.
  destruct Hri as [-> | ->]; auto.
Qed.

Lemma trace_counters (pipe pipe' : TSpipe) (log : list (op * reply)) :
  trace pipe log pipe' → counters_u32 pipe → counters_u32 pipe'.
Proof. induction 1; eauto using effect_counters. Qed.

Lemma reachable_counters (pipe : TSpipe) : reachable pipe → counters_u32 pipe.
Proof.
  intros (fails & fuel & ops & log & H). apply run_trace in H.
  eapply trace_counters; [done|]. by repeat split.
Qed.

(** ** No access outside the arrays *)

Lemma slot_in_flags (pipe : TSpipe) (i : Z) :
  well_sized pipe →
  0 ≤ Z.land i TS_PIPE_MASK < Z.of_nat (length (flags pipe)).
Proof. intros H. by apply well_sized_bound, slot_range. Qed.

Lemma tsPipeReaderTryReadBack_loop_in_bounds fuel : ∀ fails pipe rc i,
  well_sized pipe →
  tsPipeReaderTryReadBack_loop fails fuel pipe rc i ≠ OutOfBounds.
Proof.
  induction fuel as [|fuel IH]; intros fails pipe rc i Hws;
    cbn [tsPipeReaderTryReadBack_loop]; [discriminate|].
  destruct (0 =? _); [discriminate|].
  match goal with |- context [cmpxchg_flag ?sp pipe ?a ?e ?d] =>
    destruct (cmpxchg_flag_in sp pipe a e d) as [[s p] E];
      [by apply slot_in_flags|]; rewrite E
  end.
  res_simpl. destruct s; [discriminate|].
  apply cmpxchg_flag_Ok in E as (_ & f & _ & _ & E). cbn [snd] in E. subst p.
  by apply IH.
Qed.

Lemma tsPipeWriterTryReadFront_loop_in_bounds fuel : ∀ fails pipe wi i,
  well_sized pipe →
  tsPipeWriterTryReadFront_loop fails fuel pipe wi i ≠ OutOfBounds.
Proof.
  induction fuel as [|fuel IH]; intros fails pipe wi i Hws;
    cbn [tsPipeWriterTryReadFront_loop]; [discriminate|].
  destruct (0 =? _); [discriminate|].
  match goal with |- context [cmpxchg_flag ?sp pipe ?a ?e ?d] =>
    destruct (cmpxchg_flag_in sp pipe a e d) as [[s p] E];
      [by apply slot_in_flags|]; rewrite E
  end.
  res_simpl. destruct s; [discriminate|].
  apply cmpxchg_flag_Ok in E as (_ & f & _ & _ & E). cbn [snd] in E. subst p.
  destruct (_ >=? _); [discriminate|]. by apply IH.
Qed.

(** The part of a successful read that follows the loop. *)
Lemma claimed_slot_in_bounds (pipe p : TSpipe) (a : Z) :
  well_sized pipe → 0 ≤ a →
  flags pipe !! Z.to_nat a = Some TS_PIPE_READABLE →
  store_flag pipe a TS_PIPE_INVALID = Ok p →
  buffer p = buffer pipe ∧
  (∃ b, arr_get (buffer pipe) a = Ok b) ∧
  ∀ q, flags q = flags p → ∃ q', store_flag q a TS_PIPE_WRITABLE = Ok q'.
Proof.
  intros [Hb Hf] Ha Hfa S. apply lookup_lt_Some in Hfa.
  apply store_flag_Ok in S as (_ & _ & ->). split; [done|]. split.
  - destruct (arr_get_in (buffer pipe) a) as (b & ? & _); [lia | eauto].
  - intros q Hq. pipe_simpl. unfold store_flag. rewrite arr_set_in.
    + res_simpl. eauto.
    + rewrite Hq. pipe_simpl. rewrite length_insert. lia.
Qed.

(** ** A read-back that finds no readable slot where it looks

    While the pipe is not empty by its counters and no slot between
    [readIndex] and [writeIndex] is readable, the loop of the read-back
    goes round without end, whatever its compare exchanges do. *)
Lemma tsPipeReaderTryReadBack_loop_starves (fuel : nat) : ∀ fails pipe rc idx,
  u32 (writeIndex pipe - readCount pipe) ≠ 0 → rc = readCount pipe →
  0 ≤ readIndex pipe ≤ writeIndex pipe → writeIndex pipe + 1 < 2 ^ 32 →
  (∀ i, readIndex pipe ≤ i ≤ writeIndex pipe →
     ∃ f, flags pipe !! Z.to_nat (Z.land i TS_PIPE_MASK) = Some f ∧
          f ≠ TS_PIPE_READABLE) →
  writeIndex pipe ≤ idx ∨ readIndex pipe ≤ idx →
  tsPipeReaderTryReadBack_loop fails fuel pipe rc idx = OutOfFuel.
Proof.
  induction fuel as [|fuel IH]; intros fails pipe rc idx Hnum -> Hri Hwi Hfl Hidx;
    [done|].
  cbn [tsPipeReaderTryReadBack_loop]. unfold tsAtomicLoad_u32.
  destruct (Z.eqb_spec 0 (u32 (writeIndex pipe - readCount pipe))); [congruence|].
  set (j := if idx >=? writeIndex pipe then readIndex pipe else idx).
  assert (Hj : readIndex pipe ≤ j ≤ writeIndex pipe).
  { unfold j. destruct (Z.geb_spec idx (writeIndex pipe)); lia. }
  destruct (Hfl j Hj) as (f & Hf & Hne).
  unfold cmpxchg_flag, tsAtomicCmpXchg_u32.
  rewrite (proj2 (arr_get_Ok _ _ _) (conj (proj1 (slot_range j)) Hf)). res_simpl.
  destruct (Z.eqb_spec f TS_PIPE_READABLE); [done|]. cbn [andb]. res_simpl.
  apply IH; try done. right. rewrite u32_small; lia.
Qed.

(** ** A write followed by a front read *)

Lemma slot_u32 (i : Z) : Z.land (u32 i) TS_PIPE_MASK = Z.land i TS_PIPE_MASK.
Proof.
  rewrite !slot_mod. unfold u32. apply Z.mod_mod_divide.
  exists (2 ^ 23). reflexivity.
Qed.

Lemma tsPipeWriterTryWriteFront_Ok (pipe pipe1 : TSpipe) (v : Z) :
  tsPipeWriterTryWriteFront pipe v = Ok (pipe1, 1) →
  flags pipe !! Z.to_nat (Z.land (writeIndex pipe) TS_PIPE_MASK)
    = Some TS_PIPE_WRITABLE ∧
  (Z.to_nat (Z.land (writeIndex pipe) TS_PIPE_MASK) < length (buffer pipe))%nat ∧
  pipe1 = publish pipe (Z.land (writeIndex pipe) TS_PIPE_MASK) v.
Proof.
  intros H.
  assert (E : exec [] 0 (WriterTryWriteFront v) pipe = Ok (pipe1, (1, None)))
    by (cbn [exec]; by rewrite H).
  apply exec_effect in E. inversion E as [ | ? a -> Hf Hlen | | | | ]; subst. done.
Qed.

Lemma write_then_front_read (fails : list bool) (fuel : nat)
    (pipe pipe1 : TSpipe) (v : Z) :
  quiescent pipe → counters_u32 pipe →
  tsPipeWriterTryWriteFront pipe v = Ok (pipe1, 1) →
  next_fails fails = false →
  let a := Z.land (writeIndex pipe) TS_PIPE_MASK in
  tsPipeWriterTryReadFront fails (S fuel) pipe1
  = Ok (mkTSpipe (<[Z.to_nat a := v]> (buffer pipe)) (flags pipe)
                 (writeIndex pipe) (readIndex pipe) (readCount pipe)
                 ((a, TS_PIPE_WRITABLE) :: (a, TS_PIPE_INVALID)
                  :: (a, TS_PIPE_READABLE) :: flagStores pipe),
        (1, Some v)).
Proof.
  intros Hq (Hw & _ & _) H Hnf a.
  assert (E : effect pipe (WriterTryWriteFront v) (1, None) pipe1).
  { apply (exec_effect [] 0). cbn [exec]. by rewrite H. }
  apply tsPipeWriterTryWriteFront_Ok in H as (Hf & Hlen & ->). fold a in Hf, Hlen, E |- *.
  pose proof (slot_range (writeIndex pipe)) as Ha. fold a in Ha.
  pose proof (effect_quiescent _ _ _ _ Hq E) as (Hws1 & _ & Hcnt1).
  assert (Hp : pending (publish pipe a v) ≡ₚ v :: pending pipe).
  { unfold pending, publish; pipe_simpl.
    eapply payloads_publish; [done | discriminate | done]. }
  rewrite Hp in Hcnt1. simpl length in Hcnt1.
  assert (Hlf : (Z.to_nat a < length (flags pipe))%nat) by by eapply lookup_lt_Some.
  assert (Hback : u32 (u32 (writeIndex pipe + 1) - 1) = writeIndex pipe).
  { rewrite u32_sub_l. replace (writeIndex pipe + 1 - 1) with (writeIndex pipe) by lia.
    by apply u32_small. }
  unfold tsPipeWriterTryReadFront, tsAtomicLoad_u32, tsAtomicStore_u32.
  cbn [tsPipeWriterTryReadFront_loop]. unfold tsAtomicLoad_u32.
  unfold publish in Hcnt1 |- *. pipe_simpl. pipe_simpl in Hcnt1.
  rewrite Hcnt1, Hback. fold a.
  destruct (Z.eqb_spec 0 (Z.of_nat (S (length (pending pipe))))) as [?|_]; [lia|].
  rewrite Hnf.
  unfold cmpxchg_flag, tsAtomicCmpXchg_u32, store_flag, tsAtomicStore_u32. pipe_simpl.
  assert (Hget : arr_get (<[Z.to_nat a := TS_PIPE_READABLE]> (flags pipe)) a
                 = Ok TS_PIPE_READABLE).
  { apply arr_get_Ok. split; [lia|]. by apply list_lookup_insert_eq. }
  rewrite Hget. res_simpl. rewrite Z.eqb_refl. cbn [andb negb].
  rewrite arr_set_in by (rewrite length_insert; lia). res_simpl. pipe_simpl.
  assert (Hbuf : arr_get (<[Z.to_nat a := v]> (buffer pipe)) a = Ok v).
  { apply arr_get_Ok. split; [lia|]. by apply list_lookup_insert_eq. }
  rewrite Hbuf. res_simpl.
  rewrite arr_set_in by (rewrite !length_insert; lia). res_simpl. pipe_simpl.
  rewrite !list_insert_insert_eq, (list_insert_id _ _ _ Hf). reflexivity.
Qed.

(** ** Before the counters wrap around: every call returns *)

Lemma slot_apart (i j : Z) :
  0 < j - i < TS_PIPE_SIZE → Z.land i TS_PIPE_MASK ≠ Z.land j TS_PIPE_MASK.
Proof.
  rewrite !slot_mod, TS_PIPE_SIZE_val. intros H E.
  pose proof (Z.div_mod i 512 ltac:(lia)).
  pose proof (Z.div_mod j 512 ltac:(lia)). lia.
Qed.

Lemma slot_lap (i : Z) :
  Z.land (i + TS_PIPE_SIZE) TS_PIPE_MASK = Z.land i TS_PIPE_MASK.
Proof.
  rewrite !slot_mod. rewrite <- (Z.mul_1_l TS_PIPE_SIZE) at 1.
  by rewrite Z.mod_add.
Qed.

Lemma windowed_readable (pipe : TSpipe) (i : Z) :
  windowed pipe → readCount pipe ≤ i < writeIndex pipe →
  flags pipe !! Z.to_nat (Z.land i TS_PIPE_MASK) = Some TS_PIPE_READABLE ∧
  ∃ b, buffer pipe !! Z.to_nat (Z.land i TS_PIPE_MASK) = Some b.
Proof.
  intros (Hws & _ & _ & Hfl) Hi. pose proof (slot_range i) as Hr.
  destruct (Hfl _ Hr) as [[_ Hno]|[Hf _]]; [by destruct (Hno i Hi)|].
  split; [done|]. apply lookup_lt_is_Some_2.
  destruct (well_sized_bound _ _ Hws Hr). lia.
Qed.

Lemma tsPipeReaderTryReadBack_windowed (fails : list bool) (fuel : nat)
    (pipe : TSpipe) :
  windowed pipe → writeIndex pipe < 2 ^ 32 → next_fails fails = false →
  let a := Z.land (readCount pipe) TS_PIPE_MASK in
  if writeIndex pipe =? readCount pipe
  then tsPipeReaderTryReadBack fails (S fuel) pipe = Ok (pipe, (0, None))
  else ∃ b, buffer pipe !! Z.to_nat a = Some b ∧
            tsPipeReaderTryReadBack fails (S fuel) pipe
            = Ok (take_back pipe a, (1, Some b)) ∧
            windowed (take_back pipe a).
Proof.
  intros Hwin Hlt Hnf a. pose proof Hwin as (Hws & Hrc & Hn & Hfl).
  pose proof TS_PIPE_SIZE_val as HN.
  unfold tsPipeReaderTryReadBack, tsAtomicLoad_u32, tsAtomicFetchAdd_u32.
  cbn [tsPipeReaderTryReadBack_loop]. unfold tsAtomicLoad_u32.
  rewrite (u32_small (writeIndex pipe - readCount pipe)) by lia.
  destruct (Z.eqb_spec (writeIndex pipe) (readCount pipe)) as [E|E].
  - rewrite E, Z.sub_diag. reflexivity.
  - destruct (Z.eqb_spec 0 (writeIndex pipe - readCount pipe)); [lia|].
    destruct (Z.geb_spec (readCount pipe) (writeIndex pipe)); [lia|]. fold a.
    destruct (windowed_readable pipe (readCount pipe) Hwin) as [Hf [b Hb]]; [lia|].
    fold a in Hf, Hb. pose proof (slot_range (readCount pipe)) as Ha. fold a in Ha.
    assert (Hlen : (Z.to_nat a < length (flags pipe))%nat) by by eapply lookup_lt_Some.
    exists b. split; [done|]. split.
    + rewrite Hnf, cmpxchg_flag_takes by (done || lia).
      unfold store_flag, tsAtomicStore_u32.
      rewrite arr_set_in by lia. res_simpl. pipe_simpl.
      rewrite (proj2 (arr_get_Ok _ _ _) (conj (proj1 Ha) Hb)). res_simpl.
      rewrite arr_set_in by (rewrite length_insert; lia). res_simpl.
      by rewrite list_insert_insert_eq.
    + split; [|split; [|split]]; unfold take_back; pipe_simpl.
      * destruct Hws. split; pipe_simpl; by rewrite ?length_insert.
      * rewrite u32_small; lia.
      * rewrite u32_small; lia.
      * rewrite u32_small by lia. intros j Hj.
        destruct (decide (j = a)) as [->|Hne].
        -- left. split; [by apply list_lookup_insert_eq|].
           intros i Hi. apply not_eq_sym, slot_apart. rewrite TS_PIPE_SIZE_val. lia.
        -- rewrite list_lookup_insert_ne by lia.
           destruct (Hfl j Hj) as [[Hw Hno]|[Hr (i & Hi & Hij)]].
           ++ left. split; [done|]. intros i Hi. apply Hno. lia.
           ++ right. split; [done|]. exists i. split; [|done].
              destruct (decide (i = readCount pipe)) as [->|]; [done | lia].
Qed.

Lemma tsPipeWriterTryReadFront_windowed (fails : list bool) (fuel : nat)
    (pipe : TSpipe) :
  windowed pipe → writeIndex pipe < 2 ^ 32 → next_fails fails = false →
  let a := Z.land (writeIndex pipe - 1) TS_PIPE_MASK in
  if writeIndex pipe =? readCount pipe
  then tsPipeWriterTryReadFront fails (S fuel) pipe
       = Ok (set_readIndex pipe (readCount pipe), (0, None))
  else ∃ b, buffer pipe !! Z.to_nat a = Some b ∧
            tsPipeWriterTryReadFront fails (S fuel) pipe
            = Ok (take_front pipe a, (1, Some b)) ∧
            windowed (take_front pipe a).
Proof.
  intros Hwin Hlt Hnf a. pose proof Hwin as (Hws & Hrc & Hn & Hfl).
  pose proof TS_PIPE_SIZE_val as HN.
  unfold tsPipeWriterTryReadFront, tsAtomicLoad_u32, tsAtomicStore_u32.
  cbn [tsPipeWriterTryReadFront_loop]. unfold tsAtomicLoad_u32, tsAtomicStore_u32.
  rewrite (u32_small (writeIndex pipe - readCount pipe)) by lia.
  destruct (Z.eqb_spec (writeIndex pipe) (readCount pipe)) as [E|E].
  - rewrite E, Z.sub_diag. reflexivity.
  - destruct (Z.eqb_spec 0 (writeIndex pipe - readCount pipe)); [lia|].
    rewrite (u32_small (writeIndex pipe - 1)) by lia. fold a.
    destruct (windowed_readable pipe (writeIndex pipe - 1) Hwin) as [Hf [b Hb]]; [lia|].
    fold a in Hf, Hb. pose proof (slot_range (writeIndex pipe - 1)) as Ha. fold a in Ha.
    assert (Hlen : (Z.to_nat a < length (flags pipe))%nat) by by eapply lookup_lt_Some.
    exists b. split; [done|]. split.
    + rewrite Hnf, cmpxchg_flag_takes by (done || lia).
      unfold store_flag, tsAtomicStore_u32.
      rewrite arr_set_in by lia. res_simpl. pipe_simpl.
      rewrite (proj2 (arr_get_Ok _ _ _) (conj (proj1 Ha) Hb)). res_simpl.
      rewrite arr_set_in by (rewrite length_insert; lia). res_simpl. pipe_simpl.
      rewrite list_insert_insert_eq. unfold take_front.
      by rewrite (u32_small (writeIndex pipe - 1)) by lia.
    + split; [|split; [|split]]; unfold take_front; pipe_simpl.
      * destruct Hws. split; pipe_simpl; by rewrite ?length_insert.
      * rewrite u32_small; lia.
      * rewrite u32_small; lia.
      * rewrite u32_small by lia. intros j Hj.
        destruct (decide (j = a)) as [->|Hne].
        -- left. split; [by apply list_lookup_insert_eq|].
           intros i Hi. apply slot_apart. rewrite TS_PIPE_SIZE_val. lia.
        -- rewrite list_lookup_insert_ne by lia.
           destruct (Hfl j Hj) as [[Hw Hno]|[Hr (i & Hi & Hij)]].
           ++ left. split; [done|]. intros i Hi. apply Hno. lia.
           ++ right. split; [done|]. exists i. split; [|done].
              destruct (decide (i = writeIndex pipe - 1)) as [->|]; [done | lia].
Qed.

Lemma tsPipeWriterTryWriteFront_windowed (pipe : TSpipe) (v : Z) :
  windowed pipe → writeIndex pipe < 2 ^ 32 - 1 →
  let a := Z.land (writeIndex pipe) TS_PIPE_MASK in
  if writeIndex pipe - readCount pipe =? TS_PIPE_SIZE
  then tsPipeWriterTryWriteFront pipe v = Ok (pipe, 0)
  else tsPipeWriterTryWriteFront pipe v = Ok (publish pipe a v, 1) ∧
       windowed (publish pipe a v).
Proof.
  intros Hwin Hlt a. pose proof Hwin as (Hws & Hrc & Hn & Hfl).
  pose proof TS_PIPE_SIZE_val as HN.
  unfold tsPipeWriterTryWriteFront, tsAtomicLoad_u32, tsAtomicFetchAdd_u32. fold a.
  pose proof (slot_range (writeIndex pipe)) as Ha. fold a in Ha.
  destruct (well_sized_bound _ _ Hws Ha) as [Hlf Hlb].
  destruct (Z.eqb_spec (writeIndex pipe - readCount pipe) TS_PIPE_SIZE) as [E|E].
  - destruct (windowed_readable pipe (readCount pipe) Hwin) as [Hf _].
    { rewrite TS_PIPE_SIZE_val in E. lia. }
    replace (Z.land (readCount pipe) TS_PIPE_MASK) with a in Hf.
    { rewrite (proj2 (arr_get_Ok _ _ _) (conj (proj1 Ha) Hf)). reflexivity. }
    unfold a. replace (writeIndex pipe) with (readCount pipe + TS_PIPE_SIZE) by lia.
    apply slot_lap.
  - destruct (Hfl a Ha) as [[Hw Hno]|[Hr (i & Hi & Hia)]].
    2:{ exfalso. revert Hia. apply slot_apart. lia. }
    rewrite (proj2 (arr_get_Ok _ _ _) (conj (proj1 Ha) Hw)). res_simpl.
    rewrite Z.eqb_refl. cbn [negb]. rewrite arr_set_in by done. res_simpl.
    unfold store_flag, tsAtomicStore_u32. pipe_simpl.
    rewrite arr_set_in by done. res_simpl. pipe_simpl. split; [done|].
    split; [|split; [|split]]; unfold publish; pipe_simpl.
    + destruct Hws. split; pipe_simpl; by rewrite ?length_insert.
    + rewrite u32_small; lia.
    + rewrite u32_small; lia.
    + rewrite u32_small by lia. intros j Hj.
      destruct (decide (j = a)) as [->|Hne].
      * right. split; [apply list_lookup_insert_eq; lia|].
        exists (writeIndex pipe). split; [lia | done].
      * rewrite list_lookup_insert_ne by lia.
        destruct (Hfl j Hj) as [[Hw' Hno']|[Hr (i & Hi & Hij)]].
        -- left. split; [done|]. intros i Hi.
           destruct (decide (i = writeIndex pipe)) as [->|]; [by apply not_eq_sym|].
           apply Hno'. lia.
        -- right. split; [done|]. exists i. split; [lia | done].
Qed.

Lemma fresh_pipe_windowed : windowed fresh_pipe.
Proof.
  split; [split; reflexivity|]. split; [done|]. split; [done|].
  intros j Hj. left. split; [|intros i Hi; cbn in Hi; lia].
  change (flags fresh_pipe) with (replicate (Z.to_nat TS_PIPE_SIZE) 0).
  apply lookup_replicate_2. lia.
Qed.

Lemma exec_windowed (fails : list bool) (fuel : nat) (o : op) (pipe : TSpipe) :
  windowed pipe → writeIndex pipe < 2 ^ 32 - 1 → next_fails fails = false →
  ∃ pipe' r, exec fails (S fuel) o pipe = Ok (pipe', r) ∧
             windowed pipe' ∧ writeIndex pipe' ≤ writeIndex pipe + 1.
Proof.
  intros Hwin Hlt Hnf. pose proof Hwin as (_ & Hrc & _ & _).
  destruct o as [v| |]; cbn [exec].
  - pose proof (tsPipeWriterTryWriteFront_windowed pipe v Hwin Hlt) as H.
    cbv zeta in H. destruct (_ =? _).
    + rewrite H. res_simpl. eexists _, _. split; [done|]. split; [done | lia].
    + destruct H as [-> H]. res_simpl. eexists _, _. split; [done|].
      split; [done|]. unfold publish; pipe_simpl. rewrite u32_small; lia.
  - pose proof (tsPipeWriterTryReadFront_windowed fails fuel pipe Hwin) as H.
    cbv zeta in H. destruct (Z.eqb_spec (writeIndex pipe) (readCount pipe)).
    + rewrite H by (done || lia). eexists _, _. split; [done|].
      split; [|pipe_simpl; lia]. by destruct pipe.
    + destruct H as (b & _ & -> & H); [lia | done |]. eexists _, _. split; [done|].
      split; [done|]. unfold take_front; pipe_simpl. rewrite u32_small; lia.
  - pose proof (tsPipeReaderTryReadBack_windowed fails fuel pipe Hwin) as H.
    cbv zeta in H. destruct (_ =? _).
    + rewrite H by (done || lia). eexists _, _. split; [done|]. split; [done | lia].
    + destruct H as (b & _ & -> & H); [lia | done |]. eexists _, _. split; [done|].
      split; [done|]. unfold take_back; pipe_simpl. lia.
Qed.

(** In a run, the outcomes of the first call and those of the calls
    after it. *)
Lemma first_attempts_head (fails : list (list bool)) :
  Forall (λ sp, next_fails sp = false) fails →
  next_fails (default [] (head fails)) = false ∧
  Forall (λ sp, next_fails sp = false) (tail fails).
Proof. by destruct 1. Qed.

Lemma run_windowed (fuel : nat) (ops : list op) : ∀ fails pipe,
  windowed pipe → writeIndex pipe + Z.of_nat (length ops) < 2 ^ 32 →
  Forall (λ sp, next_fails sp = false) fails →
  ∃ pipe' log, run fails (S fuel) ops pipe = Ok (pipe', log) ∧ windowed pipe'.
Proof.
  induction ops as [|o ops IH]; intros fails pipe Hwin Hlt Hnf; cbn [run].
  - by eexists _, _.
  - cbn [length] in Hlt. apply first_attempts_head in Hnf as [Hnf Hrest].
    destruct (exec_windowed (default [] (head fails)) fuel o pipe Hwin)
      as (p1 & r & -> & Hwin1 & Hw1); [lia | done |].
    res_simpl. destruct (IH (tail fails) p1 Hwin1) as (p2 & log & -> & Hwin2);
      [lia | done |].
    res_simpl. by eexists _, _.
Qed.

(** Fewer than [2 ^ 32] calls made one after the other from the freshly
    initialised pipe all return, each loop within its first iteration,
    when no call meets a spurious failure of its compare exchange. *)
Lemma run_returns (fails : list (list bool)) (fuel : nat) (ops : list op) :
  Z.of_nat (length ops) < 2 ^ 32 →
  Forall (λ sp, next_fails sp = false) fails →
  ∃ pipe log, run fails (S fuel) ops fresh_pipe = Ok (pipe, log).
Proof.
  intros H Hnf.
  destruct (run_windowed fuel ops fails fresh_pipe) as (pipe & log & E & _).
  - apply fresh_pipe_windowed.
  - exact H.
  - exact Hnf.
  - eauto.
Qed.

(** ** Before the counters wrap around: the items in the pipe *)

Lemma contents_length (pipe : TSpipe) :
  length (contents pipe) = Z.to_nat (writeIndex pipe - readCount pipe).
Proof. unfold contents. by rewrite length_fmap, length_seqZ. Qed.

Lemma seqZ_one (m : Z) : seqZ m 1 = [m].
Proof. rewrite seqZ_cons by lia. by rewrite seqZ_nil by lia. Qed.

Lemma contents_take_back (pipe : TSpipe) (b : Z) :
  windowed pipe → writeIndex pipe < 2 ^ 32 →
  readCount pipe < writeIndex pipe →
  buffer pipe !! Z.to_nat (Z.land (readCount pipe) TS_PIPE_MASK) = Some b →
  contents pipe
  = b :: contents (take_back pipe (Z.land (readCount pipe) TS_PIPE_MASK)).
Proof.
  intros (_ & Hrc & _) Hlt Hne Hb. unfold contents, take_back. pipe_simpl.
  rewrite u32_small by lia. rewrite seqZ_cons by lia. cbn [fmap list_fmap].
  f_equal.
  - unfold slot_payload. by rewrite Hb.
  - replace (Z.succ (readCount pipe)) with (readCount pipe + 1) by lia.
    replace (Z.pred (writeIndex pipe - readCount pipe))
      with (writeIndex pipe - (readCount pipe + 1)) by lia.
    reflexivity.
Qed.

Lemma contents_take_front (pipe : TSpipe) (b : Z) :
  windowed pipe → writeIndex pipe < 2 ^ 32 →
  readCount pipe < writeIndex pipe →
  buffer pipe !! Z.to_nat (Z.land (writeIndex pipe - 1) TS_PIPE_MASK) = Some b →
  contents pipe
  = contents (take_front pipe (Z.land (writeIndex pipe - 1) TS_PIPE_MASK)) ++ [b].
Proof.
  intros (_ & Hrc & _) Hlt Hne Hb. unfold contents, take_front. pipe_simpl.
  rewrite u32_small by lia.
  replace (writeIndex pipe - readCount pipe)
    with ((writeIndex pipe - 1 - readCount pipe) + 1) by lia.
  rewrite seqZ_app, fmap_app by lia. f_equal.
  replace (readCount pipe + (writeIndex pipe - 1 - readCount pipe))
    with (writeIndex pipe - 1) by lia.
  rewrite seqZ_one. cbn [fmap list_fmap]. unfold slot_payload. by rewrite Hb.
Qed.

Lemma contents_publish (pipe : TSpipe) (v : Z) :
  windowed pipe → writeIndex pipe < 2 ^ 32 - 1 →
  writeIndex pipe - readCount pipe < TS_PIPE_SIZE →
  contents (publish pipe (Z.land (writeIndex pipe) TS_PIPE_MASK) v)
  = contents pipe ++ [v].
Proof.
  intros (Hws & Hrc & _) Hlt Hroom. unfold contents, publish. pipe_simpl.
  rewrite u32_small by lia.
  replace (writeIndex pipe + 1 - readCount pipe)
    with ((writeIndex pipe - readCount pipe) + 1) by lia.
  rewrite seqZ_app, fmap_app by lia. f_equal.
  - apply list_fmap_ext. intros k i [-> Hk]%lookup_seqZ.
    unfold slot_payload. pipe_simpl. rewrite list_lookup_insert_ne; [done|].
    pose proof (slot_range (writeIndex pipe)).
    pose proof (slot_range (readCount pipe + Z.of_nat k)).
    assert (Z.land (readCount pipe + Z.of_nat k) TS_PIPE_MASK
            ≠ Z.land (writeIndex pipe) TS_PIPE_MASK) by (apply slot_apart; lia).
    lia.
  - replace (readCount pipe + (writeIndex pipe - readCount pipe))
      with (writeIndex pipe) by lia.
    rewrite seqZ_one. cbn [fmap list_fmap]. unfold slot_payload. pipe_simpl.
    rewrite list_lookup_insert_eq; [done|].
    pose proof (slot_range (writeIndex pipe)) as Ha.
    destruct (well_sized_bound _ _ Hws Ha). lia.
Qed.

(** One call on a pipe whose counters have not wrapped, when its first
    compare exchange does not fail spuriously, is the same call on the
    queue of its items. *)
Lemma exec_deque (fails : list bool) (fuel : nat) (o : op) (pipe : TSpipe) :
  windowed pipe → writeIndex pipe < 2 ^ 32 - 1 → next_fails fails = false →
  ∃ pipe', exec fails (S fuel) o pipe
           = Ok (pipe', (deque_exec o (contents pipe)).2) ∧
           contents pipe' = (deque_exec o (contents pipe)).1 ∧
           windowed pipe' ∧ writeIndex pipe' ≤ writeIndex pipe + 1.
Proof.
  intros Hwin Hlt Hnf. pose proof Hwin as (_ & Hrc & Hn & _).
  pose proof TS_PIPE_SIZE_val as HN.
  destruct o as [v| |]; cbn [exec deque_exec].
  - pose proof (tsPipeWriterTryWriteFront_windowed pipe v Hwin Hlt) as H.
    cbv zeta in H. rewrite contents_length.
    destruct (Z.eqb_spec (writeIndex pipe - readCount pipe) TS_PIPE_SIZE) as [E|E].
    + rewrite H. res_simpl.
      destruct (Z.ltb_spec (Z.of_nat (Z.to_nat (writeIndex pipe - readCount pipe)))
                  TS_PIPE_SIZE); [lia|].
      exists pipe. cbn [fst snd]. split; [done|]. split; [done|]. split; [done | lia].
    + destruct H as [-> H]. res_simpl.
      destruct (Z.ltb_spec (Z.of_nat (Z.to_nat (writeIndex pipe - readCount pipe)))
                  TS_PIPE_SIZE); [|lia].
      eexists. cbn [fst snd]. split; [done|].
      split; [apply contents_publish; (done || lia)|]. split; [done|].
      unfold publish; pipe_simpl. rewrite u32_small; lia.
  - pose proof (tsPipeWriterTryReadFront_windowed fails fuel pipe Hwin) as H.
    cbv zeta in H.
    destruct (Z.eqb_spec (writeIndex pipe) (readCount pipe)) as [E|E].
    + rewrite H by (done || lia).
      assert (Hc : contents pipe = []).
      { apply nil_length_inv. rewrite contents_length. lia. }
      rewrite Hc. cbn [rev fst snd]. eexists. split; [done|].
      split; [|split; [by destruct pipe | pipe_simpl; lia]].
      rewrite <- Hc. unfold contents, slot_payload. by pipe_simpl.
    + destruct H as (b & Hb & -> & H); [lia | done |].
      rewrite (contents_take_front pipe b) by (done || lia).
      rewrite rev_unit, rev_involutive. cbn [fst snd].
      eexists. split; [done|]. split; [done|]. split; [done|].
      unfold take_front; pipe_simpl. rewrite u32_small; lia.
  - pose proof (tsPipeReaderTryReadBack_windowed fails fuel pipe Hwin) as H.
    cbv zeta in H.
    destruct (Z.eqb_spec (writeIndex pipe) (readCount pipe)) as [E|E].
    + rewrite H by (done || lia).
      assert (Hc : contents pipe = []).
      { apply nil_length_inv. rewrite contents_length. lia. }
      rewrite Hc. cbn [fst snd]. exists pipe. split; [done|].
      split; [done|]. split; [done | lia].
    + destruct H as (b & Hb & -> & H); [lia | done |].
      rewrite (contents_take_back pipe b) by (done || lia). cbn [fst snd].
      eexists. split; [done|]. split; [done|]. split; [done|].
      unfold take_back; pipe_simpl. lia.
Qed.

Lemma run_deque (fuel : nat) (ops : list op) : ∀ fails pipe,
  windowed pipe → writeIndex pipe + Z.of_nat (length ops) < 2 ^ 32 →
  Forall (λ sp, next_fails sp = false) fails →
  ∃ pipe', run fails (S fuel) ops pipe
           = Ok (pipe', (deque_run ops (contents pipe)).2) ∧
           contents pipe' = (deque_run ops (contents pipe)).1 ∧
           windowed pipe' ∧
           writeIndex pipe' ≤ writeIndex pipe + Z.of_nat (length ops).
Proof.
  induction ops as [|o ops IH]; intros fails pipe Hwin Hlt Hnf; cbn [run deque_run].
  - exists pipe. cbn [length fst snd].
    split; [done|]. split; [done|]. split; [done | lia].
  - cbn [length] in Hlt |- *. apply first_attempts_head in Hnf as [Hnf Hrest].
    destruct (exec_deque (default [] (head fails)) fuel o pipe Hwin)
      as (p1 & -> & Hc1 & Hwin1 & Hw1); [lia | done |].
    res_simpl. destruct (deque_exec o (contents pipe)) as [q1 r1]. cbn [fst snd] in *.
    destruct (IH (tail fails) p1 Hwin1) as (p2 & -> & Hc2 & Hwin2 & Hw2);
      [lia | done |].
    res_simpl. rewrite Hc1 in Hc2 |- *.
    destruct (deque_run ops q1) as [q2 l2]. cbn [fst snd] in *.
    exists p2. split; [done|]. split; [done|]. split; [done | lia].
Qed.

Lemma contents_fresh_pipe : contents fresh_pipe = [].
Proof. reflexivity. Qed.

(** * The claims *)

(** C1.  [tsPipeInit] zeroes the buffer and the three counters and leaves
    [flags[]] as it finds it: the flags are [TS_PIPE_WRITABLE] afterwards
    only if they were before, as in the zero-initialised pipe of the test
    program.  On a pipe that has been written once, the flag of slot 0 is
    still [TS_PIPE_READABLE] after [tsPipeInit], with all counters at
    zero; the writer then finds the pipe full and the readers find it
    empty. *)
Theorem tsPipeInit_leaves_flags :
  (∀ pipe, buffer (tsPipeInit pipe) = replicate (length (buffer pipe)) 0 ∧
           writeIndex (tsPipeInit pipe) = 0 ∧ readIndex (tsPipeInit pipe) = 0 ∧
           readCount (tsPipeInit pipe) = 0 ∧
           flags (tsPipeInit pipe) = flags pipe) ∧
  Forall (λ f, f = TS_PIPE_WRITABLE) (flags (tsPipeInit zero_pipe)) ∧
  ∃ used log,
    run [] 1 [WriterTryWriteFront 7] fresh_pipe = Ok (used, log) ∧
    flags (tsPipeInit used) !! 0%nat = Some TS_PIPE_READABLE ∧
    tsPipeWriterTryWriteFront (tsPipeInit used) 8 = Ok (tsPipeInit used, 0) ∧
    ∀ fails,
      tsPipeReaderTryReadBack fails 1 (tsPipeInit used)
      = Ok (tsPipeInit used, (0, None)).
Proof.
  split; [done|]. split; [by apply Forall_replicate|].
  eexists _, _. split; [vm_compute; reflexivity|].
  split; [reflexivity|]. split; [|intros fails]; vm_compute; reflexivity.
Qed.

(** C2.  In the call log of any sequence of calls that runs to completion
    from the freshly initialised pipe, whatever compare exchanges fail
    spuriously on the way, the value handed out by a
    successful [tsPipeReaderTryReadBack] was passed to a successful
    [tsPipeWriterTryWriteFront] earlier in the log, and the values handed
    out by all successful reads, back and front together, form a
    sub-multiset of the values written: no write is handed out twice. *)
Theorem reads_deliver_written_values_once
    (fails : list (list bool)) (fuel : nat) (ops : list op) (pipe : TSpipe)
    (log : list (op * reply)) :
  run fails fuel ops fresh_pipe = Ok (pipe, log) →
  (∀ before after v,
     log = before ++ (ReaderTryReadBack, (1, Some v)) :: after →
     v ∈ writes before) ∧
  deliveries log ⊆+ writes log.
Proof.
  intros H%run_trace. split.
  - intros before after v ->.
    apply trace_app_inv in H as (q & Hq & Hrest).
    inversion Hrest as [|? ? ? q' ? ? E _]; subst.
    apply trace_conservation in Hq.
    rewrite pending_fresh_pipe, app_nil_r in Hq. rewrite Hq.
    apply elem_of_app. right.
    inversion E as [ | | | | | a b Ha Hf Hb]; subst.
    by eapply payloads_elem.
  - apply trace_conservation in H.
    rewrite pending_fresh_pipe, app_nil_r in H. rewrite H.
    by apply submseteq_inserts_r.
Qed.

(** The first attempt of the first back read fails spuriously. *)
Lemma reads_deliver_written_values_once_witness :
  ∃ pipe log,
    run [[]; []; [true]] 2
        [WriterTryWriteFront 5; WriterTryWriteFront 5; ReaderTryReadBack;
         WriterTryReadFront; ReaderTryReadBack] fresh_pipe = Ok (pipe, log) ∧
    (∀ before after v,
       log = before ++ (ReaderTryReadBack, (1, Some v)) :: after →
       v ∈ writes before) ∧
    deliveries log ⊆+ writes log.
Proof.
  eexists _, _. split; [vm_compute; reflexivity|].
  eapply (reads_deliver_written_values_once [[]; []; [true]] 2
            [WriterTryWriteFront 5; WriterTryWriteFront 5; ReaderTryReadBack;
             WriterTryReadFront; ReaderTryReadBack]).
  vm_compute. reflexivity.
Defined.

(** C3.  For every sequence of calls to [tsPipeWriterTryWriteFront],
    [tsPipeWriterTryReadFront] and [tsPipeReaderTryReadBack] that runs to
    completion from the freshly initialised pipe, whatever compare
    exchanges fail spuriously on the way, the difference
    [writeIndex - readCount], taken as a [uint32_t], lies between [0] and
    [TS_PIPE_SIZE].  Since every prefix of a sequence is a sequence, this
    is the state between any two calls. *)
Theorem writeIndex_minus_readCount_bounded
    (fails : list (list bool)) (fuel : nat) (ops : list op) (pipe : TSpipe)
    (log : list (op * reply)) :
  run fails fuel ops fresh_pipe = Ok (pipe, log) →
  0 ≤ u32 (writeIndex pipe - readCount pipe) ≤ TS_PIPE_SIZE.
Proof.
  intros H.
  destruct (reachable_quiescent pipe) as (Hws & _ & ->); [by eexists _, _, _, _|].
  by apply pending_bound.
Qed.

(** The first attempt of the first front read fails spuriously. *)
Lemma writeIndex_minus_readCount_bounded_witness :
  ∃ pipe log,
    run [[]; []; []; [true]] 2
        [WriterTryWriteFront 5; WriterTryWriteFront 6; ReaderTryReadBack;
         WriterTryReadFront; WriterTryReadFront] fresh_pipe = Ok (pipe, log) ∧
    0 ≤ u32 (writeIndex pipe - readCount pipe) ≤ TS_PIPE_SIZE.
Proof.
  eexists _, _. split; [vm_compute; reflexivity|].
  eapply (writeIndex_minus_readCount_bounded [[]; []; []; [true]] 2
            [WriterTryWriteFront 5; WriterTryWriteFront 6; ReaderTryReadBack;
             WriterTryReadFront; WriterTryReadFront]).
  vm_compute. reflexivity.
Defined.







(** C6, as the code has it.  In any reachable pipe, a successful
    [tsPipeWriterTryWriteFront(v)] followed at once by a
    [tsPipeWriterTryReadFront] whose first compare exchange does not
    fail spuriously returns 1 with the value [v] and puts the counters
    and the flags back as they were before the write, so that
    [tsPipeIsEmpty] answers afterwards what it answered before the write:
    true exactly when the pipe held nothing before. *)
Theorem write_front_then_read_front
    (fails : list bool) (fuel : nat) (pipe pipe1 : TSpipe) (v : Z) :
  reachable pipe →
  tsPipeWriterTryWriteFront pipe v = Ok (pipe1, 1) →
  next_fails fails = false →
  ∃ pipe2,
    tsPipeWriterTryReadFront fails (S fuel) pipe1 = Ok (pipe2, (1, Some v)) ∧
    tsPipeIsEmpty pipe2 = tsPipeIsEmpty pipe ∧
    flags pipe2 = flags pipe ∧ writeIndex pipe2 = writeIndex pipe ∧
    readCount pipe2 = readCount pipe ∧ readIndex pipe2 = readIndex pipe.
Proof.
  intros Hr H Hnf.
  pose proof (write_then_front_read fails fuel pipe pipe1 v
                (reachable_quiescent _ Hr) (reachable_counters _ Hr) H Hnf) as E.
  cbv zeta in E. eexists. split; [exact E|]. done.
Qed.

(** One item is in the pipe; the second attempt of the front read would
    fail spuriously, and is not made. *)
Lemma write_front_then_read_front_witness :
  reachable (publish fresh_pipe 0 1) ∧
  next_fails [false; true] = false ∧
  ∃ pipe1 pipe2,
    tsPipeWriterTryWriteFront (publish fresh_pipe 0 1) 9 = Ok (pipe1, 1) ∧
    tsPipeWriterTryReadFront [false; true] 1 pipe1 = Ok (pipe2, (1, Some 9)) ∧
    tsPipeIsEmpty pipe2 = tsPipeIsEmpty (publish fresh_pipe 0 1).
Proof.
  assert (Hr : reachable (publish fresh_pipe 0 1)).
  { exists [], 0%nat, [WriterTryWriteFront 1], [(WriterTryWriteFront 1, (1, None))].
    vm_compute. reflexivity. }
  split; [exact Hr|]. split; [reflexivity|].
  assert (Hw : tsPipeWriterTryWriteFront (publish fresh_pipe 0 1) 9
               = Ok (publish (publish fresh_pipe 0 1) 1 9, 1))
    by (vm_compute; reflexivity).
  destruct (write_front_then_read_front [false; true] 0 _ _ 9 Hr Hw eq_refl)
    as (pipe2 & Hread & Hempty & _).
  exists (publish (publish fresh_pipe 0 1) 1 9), pipe2. auto.
Defined.

(** C6, as stated, fails, in two ways.  With one item already in the
    pipe, writing 2 and reading it back from the front leaves that item
    behind, and [tsPipeIsEmpty] answers false, also when no compare
    exchange fails spuriously.  And the compare exchange is a weak one:
    when the first attempt of the front read fails spuriously, the read
    goes on to the slot below and returns the older item 1, not the 2
    just written. *)
Lemma write_front_read_front_keeps_older_items :
  ¬ (∀ pipe v pipe1 fuel pipe2 r,
       reachable pipe →
       tsPipeWriterTryWriteFront pipe v = Ok (pipe1, 1) →
       tsPipeWriterTryReadFront [] fuel pipe1 = Ok (pipe2, r) →
       r = (1, Some v) ∧ tsPipeIsEmpty pipe2 = true) ∧
  ¬ (∀ pipe v pipe1 fails fuel pipe2 r,
       reachable pipe →
       tsPipeWriterTryWriteFront pipe v = Ok (pipe1, 1) →
       tsPipeWriterTryReadFront fails fuel pipe1 = Ok (pipe2, r) →
       r = (1, Some v)).
Proof.
  assert (Hr : reachable (publish fresh_pipe 0 1)).
  { exists [], 0%nat, [WriterTryWriteFront 1], [(WriterTryWriteFront 1, (1, None))].
    vm_compute. reflexivity. }
  split; intros H.
  - pose proof (λ p1 p2 r, H (publish fresh_pipe 0 1) 2 p1 1%nat p2 r Hr) as H'.
    edestruct H' as [_ E].
    + vm_compute. reflexivity.
    + vm_compute. reflexivity.
    + vm_compute in E. discriminate.
  - pose proof (λ p1 p2 r, H (publish fresh_pipe 0 1) 2 p1 [true] 2%nat p2 r Hr)
      as H'.
    assert (E : (1, Some 1) = (1, Some 2)); [|discriminate].
    eapply H'.
    + vm_compute. reflexivity.
    + vm_compute. reflexivity.
Qed.

(** C7.  When [tsPipeWriterTryReadFront] finds [writeIndex - readCount]
    equal to zero at the head of an iteration (whatever the iteration,
    that is whatever [frontReadIndex] has become), it stores [readCount]
    to [readIndex] and returns 0; [writeIndex], [readCount], [flags[]]
    and [buffer[]] are as before. *)
Theorem read_front_on_empty
    (fails : list bool) (fuel : nat) (pipe : TSpipe)
    (writeIndex_ frontReadIndex : Z) :
  u32 (writeIndex_ - readCount pipe) = 0 →
  let pipe' := set_readIndex pipe (readCount pipe) in
  tsPipeWriterTryReadFront_loop fails (S fuel) pipe writeIndex_ frontReadIndex
    = Ok (pipe', None) ∧
  (writeIndex_ = writeIndex pipe →
   tsPipeWriterTryReadFront fails (S fuel) pipe = Ok (pipe', (0, None))) ∧
  readIndex pipe' = readCount pipe ∧
  writeIndex pipe' = writeIndex pipe ∧ readCount pipe' = readCount pipe ∧
  flags pipe' = flags pipe ∧ buffer pipe' = buffer pipe ∧
  flagStores pipe' = flagStores pipe.
Proof.
  intros H pipe'.
  assert (L : ∀ i, tsPipeWriterTryReadFront_loop fails (S fuel) pipe writeIndex_ i
                   = Ok (pipe', None)).
  { intros i. cbn [tsPipeWriterTryReadFront_loop]. unfold tsAtomicLoad_u32.
    by rewrite H, Z.eqb_refl. }
  split; [apply L|]. split; [|done].
  intros Hw. unfold tsPipeWriterTryReadFront, tsAtomicLoad_u32.
  by rewrite <- Hw, L.
Qed.

Lemma read_front_on_empty_witness :
  u32 (0 - readCount fresh_pipe) = 0 ∧
  tsPipeWriterTryReadFront [true] 1 fresh_pipe
  = Ok (set_readIndex fresh_pipe (readCount fresh_pipe), (0, None)).
Proof.
  split; [reflexivity|].
  exact (proj1 (proj2 (read_front_on_empty [true] 0 fresh_pipe 0 0 eq_refl))
               eq_refl).
Defined.

(** C8.  After any sequence of calls that runs to completion from the
    freshly initialised pipe, whatever compare exchanges fail spuriously
    on the way, every slot started at [TS_PIPE_WRITABLE],
    every value ever stored to its flag is one of the three sentinels,
    the successive values follow the cycle WRITABLE, READABLE, INVALID
    (in flight), WRITABLE, ... from one to the next, and the last of them
    is the flag the slot holds now.  The history of the flag, from its
    initial value on, is thus a number of whole turns WRITABLE, READABLE,
    INVALID, WRITABLE (each turn ending on the WRITABLE the next one
    starts from), followed by READABLE when the slot has been published
    to since.  The READABLE stores are those of the writer's publication,
    the INVALID stores those of a winning compare exchange, the WRITABLE
    stores those of the claim holder. *)
Theorem flag_history_follows_cycle
    (fails : list (list bool)) (fuel : nat) (ops : list op) (pipe : TSpipe)
    (log : list (op * reply)) (j : Z) :
  run fails fuel ops fresh_pipe = Ok (pipe, log) →
  0 ≤ j < TS_PIPE_SIZE →
  flags fresh_pipe !! Z.to_nat j = Some TS_PIPE_WRITABLE ∧
  ∃ f, flags pipe !! Z.to_nat j = Some f ∧
       sentinel f = true ∧
       Forall (λ g, sentinel g = true) (stores_to j pipe) ∧
       cycle TS_PIPE_WRITABLE (stores_to j pipe) = true ∧
       last (stores_to j pipe) TS_PIPE_WRITABLE = f ∧
       ∃ n, TS_PIPE_WRITABLE :: stores_to j pipe =
            concat (replicate n [TS_PIPE_WRITABLE; TS_PIPE_READABLE;
                                 TS_PIPE_INVALID])
            ++ (if f =? TS_PIPE_WRITABLE then [TS_PIPE_WRITABLE]
                else [TS_PIPE_WRITABLE; TS_PIPE_READABLE]).
Proof.
  intros H Hj. split.
  { change (flags fresh_pipe) with (replicate (Z.to_nat TS_PIPE_SIZE) 0).
    apply lookup_replicate_2. lia. }
  destruct (reachable_quiescent pipe) as (Hws & Hfl & _); [by eexists _, _, _, _|].
  apply run_trace in H. apply trace_follows in H; [|apply fresh_pipe_follows].
  destruct (well_sized_bound pipe j Hws Hj) as [Hjf _].
  destruct (lookup_lt_is_Some_2 (flags pipe) (Z.to_nat j)) as [f Hf]; [lia|].
  exists f. split; [done|]. destruct (H j f) as [Hc Hl]; [lia | done |].
  eapply Forall_lookup_1 in Hfl; [|done].
  split; [by destruct Hfl as [-> | ->]|].
  split; [by eapply cycle_sentinels|]. split; [done|]. split; [done|].
  rewrite <- Hl in Hfl |- *. by eapply cycle_word.
Qed.

Lemma flag_history_follows_cycle_witness :
  ∃ pipe log,
    run [[]; [true]] 3
        [WriterTryWriteFront 5; ReaderTryReadBack; WriterTryWriteFront 6;
         WriterTryReadFront; WriterTryReadFront] fresh_pipe = Ok (pipe, log) ∧
    0 ≤ 0 < TS_PIPE_SIZE ∧
    stores_to 0 pipe =
      [TS_PIPE_READABLE; TS_PIPE_INVALID; TS_PIPE_WRITABLE] ∧
    stores_to 1 pipe =
      [TS_PIPE_READABLE; TS_PIPE_INVALID; TS_PIPE_WRITABLE] ∧
    ∃ f, flags pipe !! Z.to_nat 0 = Some f ∧
         sentinel f = true ∧
         Forall (λ g, sentinel g = true) (stores_to 0 pipe) ∧
         cycle TS_PIPE_WRITABLE (stores_to 0 pipe) = true ∧
         last (stores_to 0 pipe) TS_PIPE_WRITABLE = f ∧
         ∃ n, TS_PIPE_WRITABLE :: stores_to 0 pipe =
              concat (replicate n [TS_PIPE_WRITABLE; TS_PIPE_READABLE;
                                   TS_PIPE_INVALID])
              ++ (if f =? TS_PIPE_WRITABLE then [TS_PIPE_WRITABLE]
                  else [TS_PIPE_WRITABLE; TS_PIPE_READABLE]).
Proof.
  eexists _, _. split; [vm_compute; reflexivity|].
  split; [done|]. split; [vm_compute; reflexivity|].
  split; [vm_compute; reflexivity|].
  eapply (flag_history_follows_cycle [[]; [true]] 3
            [WriterTryWriteFront 5; ReaderTryReadBack; WriterTryWriteFront 6;
             WriterTryReadFront; WriterTryReadFront] _ _ 0).
  - vm_compute. reflexivity.
  - done.
Defined.

(** C10.  [TS_PIPE_SIZE] is a power of two and [TS_PIPE_MASK] is one less,
    so [i & TS_PIPE_MASK] is below [TS_PIPE_SIZE] whatever [i] is; and on
    a pipe whose arrays have the declared extent, none of the three calls
    makes an access outside [buffer[]] or [flags[]]. *)
Theorem slot_accesses_in_bounds :
  TS_PIPE_SIZE = 2 ^ (TS_PIPE_SIZE_LOG2 + 1) ∧
  TS_PIPE_MASK = TS_PIPE_SIZE - 1 ∧
  (∀ i, 0 ≤ Z.land i TS_PIPE_MASK < TS_PIPE_SIZE) ∧
  (∀ pipe fails fuel in_, well_sized pipe →
     tsPipeReaderTryReadBack fails fuel pipe ≠ OutOfBounds ∧
     tsPipeWriterTryReadFront fails fuel pipe ≠ OutOfBounds ∧
     tsPipeWriterTryWriteFront pipe in_ ≠ OutOfBounds).
Proof.
  split; [reflexivity|]. split; [reflexivity|]. split; [apply slot_range|].
  intros pipe fails fuel in_ Hws. split; [|split].
  - unfold tsPipeReaderTryReadBack, tsAtomicLoad_u32.
    destruct (tsPipeReaderTryReadBack_loop _ _ _ _ _) as [[p [a|]]| |] eqn:L;
      res_simpl; try discriminate.
    + apply tsPipeReaderTryReadBack_loop_Ok in L as (Ha & Hf & S).
      destruct (claimed_slot_in_bounds pipe p a Hws Ha Hf S) as (Hb & [b Hg] & Hs).
      pipe_simpl. rewrite Hb, Hg. res_simpl.
      match goal with |- context [store_flag ?q a _] =>
        destruct (Hs q eq_refl) as [q' ->] end.
      discriminate.
    + by apply tsPipeReaderTryReadBack_loop_in_bounds in L.
  - unfold tsPipeWriterTryReadFront, tsAtomicLoad_u32.
    destruct (tsPipeWriterTryReadFront_loop _ _ _ _ _) as [[p [a|]]| |] eqn:L;
      res_simpl; try discriminate.
    + apply tsPipeWriterTryReadFront_loop_Ok in L as (Ha & Hf & S).
      destruct (claimed_slot_in_bounds pipe p a Hws Ha Hf S) as (Hb & [b Hg] & Hs).
      rewrite Hb, Hg. res_simpl. destruct (Hs p eq_refl) as [q' ->].
      discriminate.
    + by apply tsPipeWriterTryReadFront_loop_in_bounds in L.
  - unfold tsPipeWriterTryWriteFront, tsAtomicLoad_u32.
    pose proof (slot_range (writeIndex pipe)) as Ha.
    destruct (well_sized_bound pipe _ Hws Ha) as [Hf Hb].
    destruct (arr_get_in (flags pipe) _ Hf) as (f & -> & _). res_simpl.
    destruct (negb _); [discriminate|].
    rewrite arr_set_in by done. res_simpl.
    unfold store_flag. pipe_simpl. rewrite arr_set_in by done. discriminate.
Qed.

Lemma slot_accesses_in_bounds_witness :
  well_sized fresh_pipe ∧
  tsPipeReaderTryReadBack [true] 1 fresh_pipe ≠ OutOfBounds ∧
  tsPipeWriterTryReadFront [true] 1 fresh_pipe ≠ OutOfBounds ∧
  tsPipeWriterTryWriteFront fresh_pipe 3 ≠ OutOfBounds.
Proof.
  assert (H : well_sized fresh_pipe) by (split; reflexivity).
  split; [exact H|].
  exact (proj2 (proj2 (proj2 slot_accesses_in_bounds)) fresh_pipe [true] 1%nat 3 H).
Defined.

(** * Overlapping calls *)

Module InterleavedFacts.
Import Interleaved.

Lemma slot_after_other (a : Z) (e : event) (l : list event) :
  slot_of e ≠ Some a → slot_after a (e :: l) = slot_after a l.
Proof.
  intros H. cbn [slot_after]. destruct (slot_after a l) as [s|]; [|done].
  cbn. by rewrite decide_False.
Qed.

Lemma slot_after_same (a : Z) (e : event) (l : list event) (s : slot_state) :
  slot_of e = Some a → slot_after a l = Some s →
  slot_after a (e :: l) = slot_next s e.
Proof. intros H E. cbn [slot_after]. rewrite E. cbn. by rewrite decide_True. Qed.

Lemma slot_inv_writable (pipe : TSpipe) (a : Z) (s : option slot_state) :
  slot_inv pipe a s → flags pipe !! Z.to_nat a = Some TS_PIPE_WRITABLE →
  s = Some Free.
Proof.
  destruct s as [[|v|g v|g]|]; cbn; try done.
  - intros [-> _]. discriminate.
  - intros [-> _]. discriminate.
  - intros ->. discriminate.
Qed.

Lemma slot_inv_readable (pipe : TSpipe) (a : Z) (s : option slot_state) :
  slot_inv pipe a s → flags pipe !! Z.to_nat a = Some TS_PIPE_READABLE →
  ∃ v, s = Some (Full v) ∧ buffer pipe !! Z.to_nat a = Some v.
Proof.
  destruct s as [[|v|g v|g]|]; cbn; try done.
  - intros ->. discriminate.
  - intros [_ Hb] _. eauto.
  - intros [-> _]. discriminate.
  - intros ->. discriminate.
Qed.

(** A thread other than the one that moves keeps what its program point
    says, when the event is on a slot that the moving thread owns. *)
Lemma pc_inv_other (pipe pipe' : TSpipe) (l : list event) (e : event)
    (g g' : nat) (p : pc) (a : Z) :
  slot_of e = Some a → g' ≠ g →
  pc_inv pipe l g' p → (writer_pc p = true → g' = 0%nat) →
  buffer pipe' = buffer pipe →
  match slot_after a l with
  | Some (Held g0 _) | Some (Taken g0) => g0 = g
  | Some Free => g = 0%nat
  | Some (Full _) => True
  | None => False
  end →
  pc_inv pipe' (e :: l) g' p.
Proof.
  intros He Hg Hp Hw Hb Ha.
  assert (K : ∀ a0 s, slot_after a0 l = Some s →
            match s with
            | Held g0 _ | Taken g0 => g0 = g'
            | Free => g' = 0%nat
            | Full _ => False
            end →
            slot_after a0 (e :: l) = Some s).
  { intros a0 s Hs Hown. destruct (decide (a0 = a)) as [->|Hne].
    - rewrite Hs in Ha. destruct s; try done; congruence.
    - rewrite slot_after_other; [done|]. rewrite He. congruence. }
  destruct p; cbn [pc_inv] in *; try done.
  - destruct Hp as [? [v Hv]]. split; [done|]. exists v. by apply K.
  - destruct Hp as [? [v Hv]]. split; [done|]. exists v. by apply K.
  - destruct Hp as [? Hv]. split; [done|]. by apply K.
  - destruct Hp as [? [v Hv]]. split; [done|]. exists v. by apply K.
  - destruct Hp as [? Hv]. split; [done|]. by apply K.
  - destruct Hp as [? Hv]. split; [done|]. apply K; [done|]. by apply Hw.
  - destruct Hp as (? & Hv & Hbuf). split; [done|]. rewrite Hb. split; [|done].
    apply K; [done|]. by apply Hw.
Qed.

(** Events that are on no slot leave the slots where they are. *)
Lemma slot_after_returns (a : Z) (evs l : list event) :
  Forall (λ e, slot_of e = None) evs → slot_after a (evs ++ l) = slot_after a l.
Proof.
  induction 1 as [|e evs He _ IH]; [done|].
  cbn [app]. rewrite slot_after_other; [done|]. rewrite He. done.
Qed.

Lemma pc_inv_ext (pipe pipe' : TSpipe) (l l' : list event) (g : nat) (p : pc) :
  (∀ a, slot_after a l' = slot_after a l) → buffer pipe' = buffer pipe →
  pc_inv pipe l g p → pc_inv pipe' l' g p.
Proof.
  intros Hl Hb. destruct p; cbn [pc_inv]; rewrite ?Hl, ?Hb; done.
Qed.

Lemma invariant_update (c : config) (g : nat) (p p' : pc) (pipe' : TSpipe)
    (l' : list event) :
  invariant c → threads c !! g = Some p →
  well_sized pipe' →
  pc_inv pipe' l' g p' →
  (writer_pc p' = true → g = 0%nat) →
  (∀ g0 p0, g0 ≠ g → threads c !! g0 = Some p0 → pc_inv pipe' l' g0 p0) →
  (∀ a, 0 ≤ a < TS_PIPE_SIZE → slot_inv pipe' a (slot_after a l')) →
  invariant (mkConfig pipe' (<[g := p']> (threads c)) l').
Proof.
  intros (_ & _ & Hwr & _) Hg Hws Hp Hw Hothers Hslots.
  split; [done|]. split; [|split; [|done]]; cbn [threads mem log];
    intros g0 p0 H0; destruct (decide (g0 = g)) as [->|Hne].
  - rewrite list_lookup_insert_eq in H0 by (by eapply lookup_lt_Some).
    by injection H0 as <-.
  - rewrite list_lookup_insert_ne in H0 by done. by apply Hothers.
  - rewrite list_lookup_insert_eq in H0 by (by eapply lookup_lt_Some).
    by injection H0 as <-.
  - rewrite list_lookup_insert_ne in H0 by done. by apply Hwr.
Qed.

(** Steps that touch neither [flags[]] nor [buffer[]]. *)
Lemma invariant_silent (c : config) (g : nat) (p p' : pc) (pipe' : TSpipe)
    (evs : list event) :
  invariant c → threads c !! g = Some p →
  flags pipe' = flags (mem c) → buffer pipe' = buffer (mem c) →
  Forall (λ e, slot_of e = None) evs →
  pc_inv (mem c) (log c) g p' →
  (writer_pc p' = true → g = 0%nat) →
  invariant (mkConfig pipe' (<[g := p']> (threads c)) (evs ++ log c)).
Proof.
  intros Hinv Hg Hf Hb Hevs Hp Hw.
  pose proof Hinv as (Hws & Hpc & _ & Hsl).
  assert (Hl : ∀ a, slot_after a (evs ++ log c) = slot_after a (log c))
    by (intros a; by apply slot_after_returns).
  eapply invariant_update; try done.
  - destruct Hws. split; by rewrite ?Hf, ?Hb.
  - by eapply pc_inv_ext.
  - intros g0 p0 _ H0. eapply pc_inv_ext; [done..|]. by apply Hpc.
  - intros a Ha. rewrite Hl. specialize (Hsl a Ha).
    destruct (slot_after a (log c)) as [[]|]; cbn [slot_inv] in *;
      by rewrite ?Hf, ?Hb.
Qed.

(** Steps that store to [flags[a]] and report it by the event [e]. *)
Lemma invariant_event (c : config) (g : nat) (p p' : pc) (pipe' : TSpipe)
    (e : event) (a f : Z) (s s' : slot_state) (evs : list event) :
  invariant c → threads c !! g = Some p →
  slot_of e = Some a → 0 ≤ a < TS_PIPE_SIZE →
  slot_after a (log c) = Some s → slot_next s e = Some s' →
  match s with
  | Held g0 _ | Taken g0 => g0 = g
  | Free => g = 0%nat
  | Full _ => True
  end →
  buffer pipe' = buffer (mem c) →
  flags pipe' = <[Z.to_nat a := f]> (flags (mem c)) →
  slot_inv pipe' a (Some s') →
  pc_inv pipe' (e :: log c) g p' →
  (writer_pc p' = true → g = 0%nat) →
  Forall (λ e, slot_of e = None) evs →
  invariant (mkConfig pipe' (<[g := p']> (threads c)) (evs ++ e :: log c)).
Proof.
  intros Hinv Hg He Ha Hs Hnext Hown Hb Hf Hs' Hp Hw Hevs.
  pose proof Hinv as (Hws & Hpc & Hwr & Hsl).
  assert (Hl : ∀ a0, slot_after a0 (evs ++ e :: log c) = slot_after a0 (e :: log c))
    by (intros a0; by apply slot_after_returns).
  eapply invariant_update; try done.
  - destruct Hws. split; by rewrite ?Hf, ?Hb, ?length_insert.
  - by apply (pc_inv_ext pipe' pipe' (e :: log c)).
  - intros g0 p0 Hne H0. apply (pc_inv_ext pipe' pipe' (e :: log c)); [done..|].
    eapply (pc_inv_other (mem c)); try done; eauto.
    by rewrite Hs.
  - intros a0 Ha0. rewrite Hl. destruct (decide (a0 = a)) as [->|Hne].
    + by rewrite (slot_after_same a e (log c) s), Hnext.
    + rewrite slot_after_other by (rewrite He; congruence).
      specialize (Hsl a0 Ha0).
      destruct (slot_after a0 (log c)) as [[]|]; cbn [slot_inv] in *;
        rewrite ?Hf, ?Hb, ?list_lookup_insert_ne by lia; done.
Qed.

Ltac silent_step c g :=
  match goal with
  | |- invariant (mkConfig _ _ (rev ?evs ++ _)) =>
    eapply (invariant_silent c g _ _ _ (rev evs));
    [eassumption | eassumption | ..];
    cbn [rev app pc_inv writer_pc slot_of];
    pipe_simpl; try done; try (by repeat constructor)
  end.

Ltac event_step c g e a f s s' evs :=
  eapply (invariant_event c g _ _ _ e a f s s' evs);
  [eassumption | eassumption | ..];
  cbn [pc_inv writer_pc slot_of slot_next slot_inv];
  pipe_simpl; try done; try (by repeat constructor).

Lemma step_invariant (c c' : config) : invariant c → step c c' → invariant c'.
Proof.
  intros Hinv Hstep.
  destruct Hstep as [c g p spurious next pipe' p' evs Hg Hnext Hstep].
  pose proof Hinv as (Hws & Hpc & Hwr & Hsl).
  pose proof (Hpc g p Hg) as Hp. pose proof (Hwr g p Hg) as Hw.
  destruct p; cbn [thread_step] in Hstep; cbn [pc_inv writer_pc] in Hp, Hw.
  - (* Idle *)
    destruct next; injection Hstep as <- <- <-; silent_step c g.
    + apply slot_range.
    + intros _. by destruct Hnext as [?|?].
    + intros _. by destruct Hnext as [?|?].
  - (* RB_load_writeIndex *)
    destruct (0 =? _); [|destruct (_ >=? _)];
      injection Hstep as <- <- <-; silent_step c g.
  - (* RB_load_readIndex *)
    injection Hstep as <- <- <-; silent_step c g.
  - (* RB_cmpxchg *)
    destruct (cmpxchg_flag _ _ _ _ _) as [[ok p1]| |] eqn:E; res_simpl in Hstep;
      try discriminate.
    apply cmpxchg_flag_Ok in E as (Ha & f & Hf & E). cbn [fst snd] in E.
    destruct ok.
    + destruct E as (-> & _ & S). injection Hstep as <- <- <-.
      apply store_flag_Ok in S as (_ & Hlen & ->).
      set (a := Z.land readIndexToUse TS_PIPE_MASK) in *.
      assert (Hr : 0 ≤ a < TS_PIPE_SIZE) by apply slot_range.
      destruct (slot_inv_readable _ _ _ (Hsl _ Hr) Hf) as (v & Hs & Hb).
      event_step c g (EvClaim g a) a TS_PIPE_INVALID (Full v) (Held g v)
                 (@nil event).
      * split; [|done]. by apply list_lookup_insert_eq.
      * split; [done|]. exists v. by rewrite (slot_after_same a _ _ (Full v)).
    + destruct E as [_ ->]. injection Hstep as <- <- <-; silent_step c g.
  - (* RB_load_readCount *)
    injection Hstep as <- <- <-; silent_step c g.
  - (* RB_fetch_add *)
    injection Hstep as <- <- <-; silent_step c g.
  - (* RB_read_buffer *)
    destruct Hp as [Hr [v Hs]].
    destruct (arr_get _ _) as [out| |] eqn:B; res_simpl in Hstep; try discriminate.
    injection Hstep as <- <- <-. apply arr_get_Ok in B as [_ Hb].
    pose proof (Hsl _ Hr) as Hslot. rewrite Hs in Hslot. destruct Hslot as [Hf Hv].
    assert (out = v) as -> by congruence.
    event_step c g (EvRead g actualReadIndex v) actualReadIndex TS_PIPE_INVALID
               (Held g v) (Taken g) (@nil event).
    + by rewrite decide_True.
    + symmetry. by apply list_insert_id.
    + split; [done|]. rewrite (slot_after_same _ _ _ (Held g v)) by done.
      cbn [slot_next]. by rewrite decide_True.
  - (* RB_store_flag *)
    destruct Hp as [Hr Hs].
    destruct (store_flag _ _ _) as [p1| |] eqn:S; res_simpl in Hstep; try discriminate.
    injection Hstep as <- <- <-. apply store_flag_Ok in S as (_ & Hlen & ->).
    event_step c g (EvRelease g actualReadIndex) actualReadIndex TS_PIPE_WRITABLE
               (Taken g) Free [EvReturn g ReaderTryReadBack (1, Some out)].
    + by rewrite decide_True.
    + by apply list_lookup_insert_eq.
  - (* RF_load_readCount *)
    destruct (0 =? _); injection Hstep as <- <- <-; silent_step c g.
  - (* RF_store_readIndex *)
    injection Hstep as <- <- <-; silent_step c g.
  - (* RF_cmpxchg *)
    destruct (cmpxchg_flag _ _ _ _ _) as [[ok p1]| |] eqn:E; res_simpl in Hstep;
      try discriminate.
    apply cmpxchg_flag_Ok in E as (Ha & f & Hf & E). cbn [fst snd] in E.
    destruct ok.
    + destruct E as (-> & _ & S). injection Hstep as <- <- <-.
      apply store_flag_Ok in S as (_ & Hlen & ->).
      set (a := Z.land frontReadIndex TS_PIPE_MASK) in *.
      assert (Hr : 0 ≤ a < TS_PIPE_SIZE) by apply slot_range.
      destruct (slot_inv_readable _ _ _ (Hsl _ Hr) Hf) as (v & Hs & Hb).
      event_step c g (EvClaim g a) a TS_PIPE_INVALID (Full v) (Held g v)
                 (@nil event).
      * split; [|done]. by apply list_lookup_insert_eq.
      * split; [done|]. exists v. by rewrite (slot_after_same a _ _ (Full v)).
    + destruct E as [_ ->]. injection Hstep as <- <- <-; silent_step c g.
  - (* RF_load_readIndex *)
    destruct (_ >=? _); injection Hstep as <- <- <-; silent_step c g.
  - (* RF_read_buffer *)
    destruct Hp as [Hr [v Hs]].
    destruct (arr_get _ _) as [out| |] eqn:B; res_simpl in Hstep; try discriminate.
    injection Hstep as <- <- <-. apply arr_get_Ok in B as [_ Hb].
    pose proof (Hsl _ Hr) as Hslot. rewrite Hs in Hslot. destruct Hslot as [Hf Hv].
    assert (out = v) as -> by congruence.
    event_step c g (EvRead g actualReadIndex v) actualReadIndex TS_PIPE_INVALID
               (Held g v) (Taken g) (@nil event).
    + by rewrite decide_True.
    + symmetry. by apply list_insert_id.
    + split; [done|]. rewrite (slot_after_same _ _ _ (Held g v)) by done.
      cbn [slot_next]. by rewrite decide_True.
  - (* RF_store_flag *)
    destruct Hp as [Hr Hs].
    destruct (store_flag _ _ _) as [p1| |] eqn:S; res_simpl in Hstep; try discriminate.
    injection Hstep as <- <- <-. apply store_flag_Ok in S as (_ & Hlen & ->).
    event_step c g (EvRelease g actualReadIndex) actualReadIndex TS_PIPE_WRITABLE
               (Taken g) Free (@nil event).
    + by rewrite decide_True.
    + by apply list_lookup_insert_eq.
  - (* RF_store_writeIndex *)
    injection Hstep as <- <- <-; silent_step c g.
  - (* WF_load_flag *)
    destruct (arr_get _ _) as [f| |] eqn:B; res_simpl in Hstep; try discriminate.
    apply arr_get_Ok in B as [_ Hf]. unfold tsAtomicLoad_u32 in Hstep.
    destruct (Z.eqb_spec f TS_PIPE_WRITABLE) as [->|Hne]; cbn [negb] in Hstep;
      injection Hstep as <- <- <-; silent_step c g.
    split; [done|]. eapply slot_inv_writable; [by apply Hsl | done].
  - (* WF_store_buffer *)
    destruct Hp as [Hr Hs].
    destruct (arr_set _ _ _) as [buf| |] eqn:B; res_simpl in Hstep; try discriminate.
    injection Hstep as <- <- <-. apply arr_set_Ok in B as (_ & Hlen & ->).
    cbn [rev app]. eapply invariant_update; [eassumption | eassumption | ..];
      cbn [pc_inv writer_pc]; pipe_simpl; try done.
    + destruct Hws. split; pipe_simpl; by rewrite ?length_insert.
    + split; [done|]. split; [done|]. by apply list_lookup_insert_eq.
    + intros g0 p0 Hne H0. pose proof (Hpc g0 p0 H0) as Hp0.
      pose proof (Hwr g0 p0 H0) as Hw0.
      destruct p0; cbn [pc_inv writer_pc] in *; try done.
      rewrite Hw, Hw0 in Hne; done.
    + intros a Ha. specialize (Hsl a Ha).
      destruct (decide (a = actualWriteIndex)) as [->|Hne].
      * by rewrite Hs in Hsl |- *.
      * destruct (slot_after a (log c)) as [[]|]; cbn [slot_inv] in *;
          pipe_simpl; rewrite ?list_lookup_insert_ne by lia; done.
  - (* WF_store_flag *)
    destruct Hp as (Hr & Hs & Hb).
    destruct (store_flag _ _ _) as [p1| |] eqn:S; res_simpl in Hstep; try discriminate.
    injection Hstep as <- <- <-. apply store_flag_Ok in S as (_ & Hlen & ->).
    event_step c g (EvPublish g actualWriteIndex in_) actualWriteIndex
               TS_PIPE_READABLE Free (Full in_) (@nil event).
    + by apply Hw.
    + split; [|done]. by apply list_lookup_insert_eq.
  - (* WF_fetch_add *)
    injection Hstep as <- <- <-; silent_step c g.
Qed.

Lemma init_invariant (n : nat) : invariant (init n).
Proof.
  split; [split; reflexivity|]. split; [|split].
  - intros g p [-> _]%lookup_replicate. done.
  - intros g p [-> _]%lookup_replicate. done.
  - intros a Ha. cbn [init log mem slot_after slot_inv].
    change (flags fresh_pipe) with (replicate (Z.to_nat TS_PIPE_SIZE) 0).
    apply lookup_replicate_2. lia.
Qed.

Lemma reach_invariant (n : nat) (c : config) : reach n c → invariant c.
Proof. induction 1; eauto using init_invariant, step_invariant. Qed.

Lemma pc_inv_claim (pipe : TSpipe) (l : list event) (g : nat) (p : pc) (a : Z) :
  pc_inv pipe l g p → claim_of p = Some a →
  0 ≤ a < TS_PIPE_SIZE ∧
  ((∃ v, slot_after a l = Some (Held g v)) ∨ slot_after a l = Some (Taken g)).
Proof.
  destruct p; cbn [pc_inv claim_of]; try done; intros [Hr H] [= <-]; auto.
Qed.

Lemma count_events_cons (f : event → bool) (e : event) (l : list event) :
  count_events f (e :: l) = ((if f e then 1 else 0) + count_events f l)%nat.
Proof.
  unfold count_events. rewrite filter_cons.
  destruct (f e); [by rewrite decide_True | by rewrite decide_False].
Qed.

(** In a log that obeys the protocol, the payload of a slot has been read
    as often as the slot has been published to, less the publication that
    is still in the slot or in the hands of its claimant. *)
Lemma slot_after_counts (a : Z) (l : list event) : ∀ s,
  slot_after a l = Some s →
  count_events (published_to a) l =
  (count_events (read_from a) l +
   match s with Full _ | Held _ _ => 1 | Free | Taken _ => 0 end)%nat.
Proof.
  induction l as [|e l IH]; intros s; cbn [slot_after].
  - by intros [= <-].
  - destruct (slot_after a l) as [s0|]; [|done]. cbn [mbind option_bind].
    specialize (IH s0 eq_refl). rewrite !count_events_cons, IH.
    destruct (decide (slot_of e = Some a)) as [He|He].
    + destruct e as [g b v|g b|g b v|g b|g o r]; cbn [slot_of] in He; try done;
        injection He as ->; cbn [published_to read_from];
        rewrite ?bool_decide_eq_true_2 by done;
        destruct s0; cbn [slot_next]; try done;
        repeat case_decide; try done; intros [= <-]; lia.
    + intros [= <-].
      destruct e as [g b v|g b|g b v|g b|g o r]; cbn [published_to read_from];
        try done; rewrite bool_decide_eq_false_2 by (cbn in He; congruence); done.
Qed.

(** No thread is ever stuck on an access outside the arrays. *)
Lemma thread_can_step (c : config) (g : nat) (p : pc) :
  invariant c → threads c !! g = Some p →
  ∃ r, thread_step false ReaderTryReadBack g (mem c) p = Ok r.
Proof.
  intros (Hws & Hpc & _ & _) Hg. specialize (Hpc g p Hg).
  assert (Hin : ∀ a, 0 ≤ a < TS_PIPE_SIZE →
            (∃ x, arr_get (buffer (mem c)) a = Ok x) ∧
            (∃ x, arr_get (flags (mem c)) a = Ok x) ∧
            (∀ v, ∃ q, store_flag (mem c) a v = Ok q) ∧
            (∀ v, ∃ b, arr_set (buffer (mem c)) a v = Ok b)).
  { intros a Ha. destruct (well_sized_bound _ a Hws Ha) as [Hf Hb].
    destruct (arr_get_in _ _ Hb) as (x & Hx & _).
    destruct (arr_get_in _ _ Hf) as (y & Hy & _).
    split; [eauto|]. split; [eauto|]. split; intros v.
    - unfold store_flag. rewrite arr_set_in by done. res_simpl. eauto.
    - rewrite arr_set_in by done. eauto. }
  destruct p; cbn [thread_step pc_inv] in *; eauto.
  - destruct (0 =? _); [|destruct (_ >=? _)]; eauto.
  - destruct (cmpxchg_flag_in false (mem c) (Z.land readIndexToUse TS_PIPE_MASK)
                TS_PIPE_READABLE TS_PIPE_INVALID) as [[ok q] ->];
      [by apply slot_in_flags|]. res_simpl. destruct ok; eauto.
  - destruct Hpc as [Hr _]. destruct (Hin _ Hr) as ([x ->] & _). res_simpl. eauto.
  - destruct Hpc as [Hr _]. destruct (Hin _ Hr) as (_ & _ & Hs & _).
    destruct (Hs TS_PIPE_WRITABLE) as [q ->]. res_simpl. eauto.
  - destruct (0 =? _); eauto.
  - destruct (cmpxchg_flag_in false (mem c) (Z.land frontReadIndex TS_PIPE_MASK)
                TS_PIPE_READABLE TS_PIPE_INVALID) as [[ok q] ->];
      [by apply slot_in_flags|]. res_simpl. destruct ok; eauto.
  - destruct (_ >=? _); eauto.
  - destruct Hpc as [Hr _]. destruct (Hin _ Hr) as ([x ->] & _). res_simpl. eauto.
  - destruct Hpc as [Hr _]. destruct (Hin _ Hr) as (_ & _ & Hs & _).
    destruct (Hs TS_PIPE_WRITABLE) as [q ->]. res_simpl. eauto.
  - destruct (Hin _ Hpc) as (_ & [x ->] & _). res_simpl. destruct (negb _); eauto.
  - destruct Hpc as [Hr _]. destruct (Hin _ Hr) as (_ & _ & _ & Hs).
    destruct (Hs in_) as [q ->]. res_simpl. eauto.
  - destruct Hpc as [Hr _]. destruct (Hin _ Hr) as (_ & _ & Hs & _).
    destruct (Hs TS_PIPE_READABLE) as [q ->]. res_simpl. eauto.
Qed.

Lemma schedule_step_sound (c c' : config) (x : nat * bool * op) :
  schedule_step c x = Some c' → step c c'.
Proof.
  destruct x as [[g spurious] next]. unfold schedule_step.
  destruct (threads c !! g) as [p|] eqn:Hg; cbn; [|done].
  destruct (starts_writer_call p next && negb (g =? 0)%nat) eqn:Hw; [done|].
  destruct (thread_step _ _ _ _ _) as [[[pipe' p'] evs]| |] eqn:E; try done.
  intros [= <-]. eapply step_thread; [done| |done].
  intros ->. apply andb_false_iff in Hw as [Hw|Hw].
  - destruct next; try done. by left.
  - right. apply negb_false_iff, Nat.eqb_eq in Hw. done.
Qed.

Lemma run_schedule_reach (n : nat) (xs : list (nat * bool * op)) :
  ∀ c c', reach n c → run_schedule xs c = Some c' → reach n c'.
Proof.
  induction xs as [|x xs IH]; intros c c' Hc; cbn [run_schedule].
  - by intros [= <-].
  - destruct (schedule_step c x) as [c1|] eqn:E; cbn; [|done].
    apply IH. eapply reach_step; [done|]. by apply (schedule_step_sound c c1 x).
Qed.

(** C9.  Any number of threads run [tsPipeReaderTryReadBack] while
    thread 0 runs the writer's functions, all interleaved access by
    access in any order, the weak compare exchange failing at will.  In
    every configuration that can be reached:
    - on every slot the events obey the hand-over protocol
      ([slot_after] is defined): a published payload is claimed by one
      compare exchange only, the claimant alone reads it (and reads the
      value published) and the claimant alone stores WRITABLE back; the
      flag and payload of the slot are what the protocol state says; the
      payload has been read at most as often as the slot was published
      to;
    - no two threads hold a claim on the same slot;
    - no thread is about to read the payload of a slot that the writer
      is about to overwrite;
    - every thread can take its next step: none faults on an access
      outside the arrays. *)
Theorem claimed_slot_has_one_holder (n : nat) (c : config) :
  reach n c →
  (∀ a, 0 ≤ a < TS_PIPE_SIZE →
     ∃ s, slot_after a (log c) = Some s ∧ slot_inv (mem c) a (Some s) ∧
          (count_events (read_from a) (log c)
           ≤ count_events (published_to a) (log c))%nat) ∧
  (∀ g g' p p' a,
     threads c !! g = Some p → threads c !! g' = Some p' →
     claim_of p = Some a → claim_of p' = Some a → g = g') ∧
  (∀ g g' p p' a,
     threads c !! g = Some p → threads c !! g' = Some p' →
     buffer_write_of p = Some a → buffer_read_of p' = Some a → False) ∧
  (∀ g p, threads c !! g = Some p → ∃ c', step c c').
Proof.
  intros Hinv%reach_invariant. pose proof Hinv as (Hws & Hpc & Hwr & Hsl).
  split; [|split; [|split]].
  - intros a Ha. specialize (Hsl a Ha).
    destruct (slot_after a (log c)) as [s|] eqn:Hs; [|done].
    exists s. split; [done|]. split; [done|].
    rewrite (slot_after_counts a (log c) s Hs). lia.
  - intros g g' p p' a Hg Hg' Hp Hp'.
    destruct (pc_inv_claim _ _ _ _ _ (Hpc g p Hg) Hp) as [_ H].
    destruct (pc_inv_claim _ _ _ _ _ (Hpc g' p' Hg') Hp') as [_ H'].
    destruct H as [[v H]|H], H' as [[v' H']|H']; congruence.
  - intros g g' p p' a Hg Hg' Hp Hp'.
    pose proof (Hpc g p Hg) as H. pose proof (Hpc g' p' Hg') as H'.
    destruct p; try done. destruct p'; try done;
      cbn [buffer_write_of buffer_read_of pc_inv] in *;
      injection Hp as ->; injection Hp' as ->;
      destruct H as [_ H], H' as [_ [v H']]; congruence.
  - intros g p Hg. destruct (thread_can_step c g p Hinv Hg) as [[[pipe' p'] evs] E].
    eexists. eapply step_thread; [done | by left | done].
Qed.

(** The writer publishes 42 to slot 0; threads 1 and 2 both reach the
    compare exchange on slot 0; thread 1 wins and reads the payload,
    thread 2 loses, finds the pipe empty and returns 0. *)
Lemma claimed_slot_has_one_holder_witness :
  ∃ c,
    run_schedule
      [(0, false, WriterTryWriteFront 42); (0, false, WriterTryWriteFront 42);
       (0, false, WriterTryWriteFront 42); (0, false, WriterTryWriteFront 42);
       (0, false, WriterTryWriteFront 42);
       (1, false, ReaderTryReadBack); (2, false, ReaderTryReadBack);
       (1, false, ReaderTryReadBack); (2, false, ReaderTryReadBack);
       (1, false, ReaderTryReadBack); (2, false, ReaderTryReadBack);
       (1, false, ReaderTryReadBack); (2, false, ReaderTryReadBack);
       (2, false, ReaderTryReadBack); (1, false, ReaderTryReadBack)]%nat
      (init 3) = Some c ∧
    threads c = [Idle; RB_store_flag 0 42; Idle] ∧
    log c = [EvRead 1 0 42; EvReturn 2 ReaderTryReadBack (0, None);
             EvClaim 1 0; EvReturn 0 (WriterTryWriteFront 42) (1, None);
             EvPublish 0 0 42] ∧
    reach 3 c ∧
    slot_after 0 (log c) = Some (Taken 1) ∧
    ∀ g g' p p' a,
      threads c !! g = Some p → threads c !! g' = Some p' →
      claim_of p = Some a → claim_of p' = Some a → g = g'.
Proof.
  eexists. split; [vm_compute; reflexivity|].
  split; [reflexivity|]. split; [reflexivity|].
  match goal with |- reach 3 ?c ∧ _ => assert (H : reach 3 c) end.
  { eapply (run_schedule_reach 3
      [(0, false, WriterTryWriteFront 42); (0, false, WriterTryWriteFront 42);
       (0, false, WriterTryWriteFront 42); (0, false, WriterTryWriteFront 42);
       (0, false, WriterTryWriteFront 42);
       (1, false, ReaderTryReadBack); (2, false, ReaderTryReadBack);
       (1, false, ReaderTryReadBack); (2, false, ReaderTryReadBack);
       (1, false, ReaderTryReadBack); (2, false, ReaderTryReadBack);
       (1, false, ReaderTryReadBack); (2, false, ReaderTryReadBack);
       (2, false, ReaderTryReadBack); (1, false, ReaderTryReadBack)]%nat);
      [apply reach_init|].
    vm_compute. reflexivity. }
  split; [exact H|]. split; [reflexivity|].
  exact (proj1 (proj2 (claimed_slot_has_one_holder 3 _ H))).
Defined.

(** ** A call made alone is a run of the thread to its return

    This ties the two readings of pipe.h together: the functions of the
    first part are what a thread of this part does when it is left to run
    from the start of a call to its return. *)

Lemma solo_app (s1 s2 : list bool) (next : op) (g : nat) : ∀ pipe p,
  solo (s1 ++ s2) next g pipe p =
  '(pipe1, p1, e1) ← solo s1 next g pipe p;
  '(pipe2, p2, e2) ← solo s2 next g pipe1 p1;
  Ok (pipe2, p2, e1 ++ e2).
Proof.
  induction s1 as [|b s1 IH]; intros pipe p; cbn [solo app].
  - res_simpl. by destruct (solo s2 next g pipe p) as [[[? ?] ?]| |].
  - destruct (thread_step b next g pipe p) as [[[q p1] e1]| |]; [|done..].
    res_simpl. rewrite IH.
    destruct (solo s1 next g q p1) as [[[q2 p2] e2]| |]; [|done..]. res_simpl.
    destruct (solo s2 next g q2 p2) as [[[q3 p3] e3]| |]; [|done..]. res_simpl.
    by rewrite app_assoc.
Qed.

Ltac solo_go := cbn [solo thread_step mbind res_bind mret res_ret].

Lemma tsPipeReaderTryReadBack_loop_solo (g : nat) (fuel : nat) :
  ∀ fails pipe rc i pipe1 brk,
  tsPipeReaderTryReadBack_loop fails fuel pipe rc i = Ok (pipe1, brk) →
  ∃ steps, solo steps ReaderTryReadBack g pipe (RB_load_writeIndex rc i)
           = Ok match brk with
                | None => (pipe1, Idle, [EvReturn g ReaderTryReadBack (0, None)])
                | Some a => (pipe1, RB_fetch_add a, [EvClaim g a])
                end.
Proof.
  induction fuel as [|fuel IH]; intros fails pipe rc i pipe1 brk;
    cbn [tsPipeReaderTryReadBack_loop]; [done|].
  destruct (0 =? _) eqn:E0.
  { intros [= <- <-]. exists [false]. solo_go. by rewrite E0. }
  destruct (i >=? _) eqn:EG.
  - destruct (cmpxchg_flag _ _ _ _ _) as [[ok q]| |] eqn:EC; res_simpl; [|done..].
    destruct ok.
    + intros [= <- <-]. exists [false; false; next_fails fails]. solo_go.
      rewrite E0, EG. solo_go. by rewrite EC.
    + intros H. pose proof EC as (_ & _ & _ & _ & Hq)%cmpxchg_flag_Ok.
      cbn [snd] in Hq. subst q. destruct (IH _ _ _ _ _ _ H) as [k Hk].
      exists (false :: false :: next_fails fails :: false :: k). solo_go.
      rewrite E0, EG. solo_go. rewrite EC. solo_go. rewrite Hk. by destruct brk.
  - destruct (cmpxchg_flag _ _ _ _ _) as [[ok q]| |] eqn:EC; res_simpl; [|done..].
    destruct ok.
    + intros [= <- <-]. exists [false; next_fails fails]. solo_go.
      rewrite E0, EG. solo_go. by rewrite EC.
    + intros H. pose proof EC as (_ & _ & _ & _ & Hq)%cmpxchg_flag_Ok.
      cbn [snd] in Hq. subst q. destruct (IH _ _ _ _ _ _ H) as [k Hk].
      exists (false :: next_fails fails :: false :: k). solo_go.
      rewrite E0, EG. solo_go. rewrite EC. solo_go. rewrite Hk. by destruct brk.
Qed.

Lemma tsPipeWriterTryReadFront_loop_solo (g : nat) (fuel : nat) :
  ∀ fails pipe wi i pipe1 brk,
  tsPipeWriterTryReadFront_loop fails fuel pipe wi i = Ok (pipe1, brk) →
  ∃ steps, solo steps WriterTryReadFront g pipe (RF_load_readCount wi i)
           = Ok match brk with
                | None => (pipe1, Idle, [EvReturn g WriterTryReadFront (0, None)])
                | Some a => (pipe1, RF_read_buffer wi a, [EvClaim g a])
                end.
Proof.
  induction fuel as [|fuel IH]; intros fails pipe wi i pipe1 brk;
    cbn [tsPipeWriterTryReadFront_loop]; [done|].
  destruct (0 =? _) eqn:E0.
  { intros [= <- <-]. exists [false; false]. solo_go. rewrite E0. by solo_go. }
  destruct (cmpxchg_flag _ _ _ _ _) as [[ok q]| |] eqn:EC; res_simpl; [|done..].
  destruct ok.
  - intros [= <- <-]. exists [false; next_fails fails]. solo_go. rewrite E0.
    solo_go. by rewrite EC.
  - pose proof EC as (_ & _ & _ & _ & Hq)%cmpxchg_flag_Ok.
    cbn [snd] in Hq. subst q. destruct (_ >=? _) eqn:EG.
    + intros [= <- <-]. exists [false; next_fails fails; false]. solo_go.
      rewrite E0. solo_go. rewrite EC. solo_go. by rewrite EG.
    + intros H. destruct (IH _ _ _ _ _ _ H) as [k Hk].
      exists (false :: next_fails fails :: false :: k). solo_go. rewrite E0. solo_go.
      rewrite EC. solo_go. rewrite EG. solo_go. rewrite Hk. by destruct brk.
Qed.

(** Every completed call of the first part, with the spurious failures
    it met, is the run of one thread from [Idle] back to [Idle]; the run
    ends with the return of the same reply and leaves the same pipe. *)
Lemma exec_solo (g : nat) (fails : list bool) (fuel : nat) (o : op)
    (pipe pipe' : TSpipe) (r : reply) :
  exec fails fuel o pipe = Ok (pipe', r) →
  ∃ steps evs,
    solo steps o g pipe Idle = Ok (pipe', Idle, evs ++ [EvReturn g o r]).
Proof.
  destruct o as [v| |]; cbn [exec].
  - unfold tsPipeWriterTryWriteFront.
    destruct (arr_get _ _) as [f| |] eqn:Ef; res_simpl; [|done..].
    destruct (negb _) eqn:En; res_simpl.
    { intros [= <- <-]. exists [false; false], []. solo_go.
      rewrite Ef. solo_go. by rewrite En. }
    destruct (arr_set _ _ _) as [buf| |] eqn:Eb; res_simpl; [|done..].
    destruct (store_flag _ _ _) as [q| |] eqn:Es; res_simpl; [|done..].
    intros [= <- <-].
    exists [false; false; false; false; false],
           [EvPublish g (Z.land (writeIndex pipe) TS_PIPE_MASK) v]. solo_go.
    rewrite Ef. solo_go. rewrite En. solo_go. rewrite Eb. solo_go.
    rewrite Es. by solo_go.
  - unfold tsPipeWriterTryReadFront.
    destruct (tsPipeWriterTryReadFront_loop _ _ _ _ _) as [[q [a|]]| |] eqn:L;
      res_simpl; [| |done..]; apply (tsPipeWriterTryReadFront_loop_solo g) in L as [k Hk].
    + destruct (arr_get _ _) as [out| |] eqn:Eo; res_simpl; [|done..].
      destruct (store_flag _ _ _) as [q'| |] eqn:Es; res_simpl; [|done..].
      intros [= <- <-].
      exists (false :: k ++ [false; false; false]),
             [EvClaim g a; EvRead g a out; EvRelease g a].
      solo_go. rewrite solo_app. unfold tsAtomicLoad_u32 in Hk |- *. rewrite Hk.
      solo_go. rewrite Eo. solo_go. rewrite Es. by solo_go.
    + intros [= <- <-]. exists (false :: k), []. solo_go. by rewrite Hk.
  - unfold tsPipeReaderTryReadBack.
    destruct (tsPipeReaderTryReadBack_loop _ _ _ _ _) as [[q [a|]]| |] eqn:L;
      res_simpl; [| |done..]; apply (tsPipeReaderTryReadBack_loop_solo g) in L as [k Hk].
    + destruct (arr_get _ _) as [out| |] eqn:Eo; res_simpl; [|done..].
      destruct (store_flag _ _ _) as [q'| |] eqn:Es; res_simpl; [|done..].
      intros [= <- <-].
      exists (false :: k ++ [false; false; false]),
             [EvClaim g a; EvRead g a out; EvRelease g a].
      solo_go. rewrite solo_app. unfold tsAtomicLoad_u32 in Hk |- *. rewrite Hk.
      solo_go. rewrite Eo. solo_go. rewrite Es. by solo_go.
    + intros [= <- <-]. exists (false :: k), []. solo_go. by rewrite Hk.
Qed.

Lemma solo_reach (n : nat) (steps : list bool) (next : op) (g : nat) :
  next = ReaderTryReadBack ∨ g = 0%nat →
  ∀ c p pipe' p' evs,
  reach n c → threads c !! g = Some p →
  solo steps next g (mem c) p = Ok (pipe', p', evs) →
  reach n (mkConfig pipe' (<[g := p']> (threads c)) (rev evs ++ log c)).
Proof.
  intros Hnext. induction steps as [|b steps IH]; intros c p pipe' p' evs Hc Hg;
    cbn [solo].
  - intros [= <- <- <-]. rewrite list_insert_id by done. by destruct c.
  - destruct (thread_step b next g (mem c) p) as [[[q p1] e1]| |] eqn:E1;
      res_simpl; [|done..].
    destruct (solo steps next g q p1) as [[[q2 p2] e2]| |] eqn:E2; res_simpl;
      [|done..].
    intros [= <- <- <-].
    assert (H1 : reach n (mkConfig q (<[g := p1]> (threads c)) (rev e1 ++ log c))).
    { eapply reach_step; [done|].
      by apply (step_thread c g p b next). }
    specialize (IH _ p1 q2 p2 e2 H1). cbn [mem threads log] in IH.
    rewrite list_insert_insert_eq, app_assoc, <- rev_app_distr in IH.
    apply IH; [|done].
    apply list_lookup_insert_eq. by eapply lookup_lt_Some.
Qed.

(** Calls made one after the other are the runs in which thread 0 makes
    every call and no other thread moves. *)
Lemma run_reach (n fuel : nat) (ops : list op) :
  ∀ fails pipe pipe' calls c,
  run fails fuel ops pipe = Ok (pipe', calls) →
  reach n c → mem c = pipe → threads c !! 0%nat = Some Idle →
  ∃ c', reach n c' ∧ mem c' = pipe' ∧ threads c' = threads c.
Proof.
  induction ops as [|o ops IH]; intros fails pipe pipe' calls c; cbn [run].
  - intros [= <- <-] Hc Hm Hg. by exists c.
  - destruct (exec _ fuel o pipe) as [[p1 r]| |] eqn:E; res_simpl; [|done..].
    destruct (run _ fuel ops p1) as [[p2 l]| |] eqn:R; res_simpl; [|done..].
    intros [= <- <-] Hc <- Hg.
    destruct (exec_solo 0 _ fuel o _ _ _ E) as (k & evs & Hk).
    pose proof (solo_reach n k o 0 (or_intror eq_refl) c _ _ _ _ Hc Hg Hk) as H1.
    rewrite list_insert_id in H1 by done.
    destruct (IH _ _ _ _ _ R H1 eq_refl Hg) as (c' & Hc' & Hm' & Ht').
    by exists c'.
Qed.

Lemma reachable_reach (pipe : TSpipe) :
  reachable pipe →
  ∃ c, reach 1 c ∧ mem c = pipe ∧ threads c = [Idle].
Proof.
  intros (fails & fuel & ops & calls & H).
  destruct (run_reach 1 fuel ops _ _ _ _ (init 1) H (reach_init 1) eq_refl eq_refl)
    as (c & Hc & Hm & Ht).
  by exists c.
Qed.

End InterleavedFacts.

(** * Further properties: the pipe used by one caller at a time *)

(** ** The queue by itself *)

Lemma deque_run_app (ops1 ops2 : list op) : ∀ q,
  deque_run (ops1 ++ ops2) q =
  let '(q1, l1) := deque_run ops1 q in
  let '(q2, l2) := deque_run ops2 q1 in
  (q2, l1 ++ l2).
Proof.
  induction ops1 as [|o ops1 IH]; intros q; cbn [app deque_run].
  - by destruct (deque_run ops2 q).
  - destruct (deque_exec o q) as [q0 r]. rewrite IH.
    destruct (deque_run ops1 q0) as [q1 l1].
    by destruct (deque_run ops2 q1) as [q2 l2].
Qed.

Lemma deque_run_writes (vs : list Z) : ∀ q,
  Z.of_nat (length q + length vs) ≤ TS_PIPE_SIZE →
  deque_run (WriterTryWriteFront <$> vs) q
  = (q ++ vs, (λ v, (WriterTryWriteFront v, (1, None))) <$> vs).
Proof.
  induction vs as [|v vs IH]; intros q Hlen;
    cbn [fmap list_fmap deque_run deque_exec].
  - by rewrite app_nil_r.
  - cbn [length] in Hlen.
    destruct (Z.ltb_spec (Z.of_nat (length q)) TS_PIPE_SIZE); [|lia].
    rewrite IH by (rewrite length_app; cbn [length]; lia).
    by rewrite <- app_assoc.
Qed.

Lemma deque_run_back_reads (q : list Z) :
  deque_run (replicate (length q) ReaderTryReadBack) q
  = ([], (λ v, (ReaderTryReadBack, (1, Some v))) <$> q).
Proof.
  induction q as [|x q IH]; [done|].
  cbn [length replicate deque_run deque_exec]. by rewrite IH.
Qed.

Lemma deque_run_front_reads (q : list Z) :
  deque_run (replicate (length q) WriterTryReadFront) q
  = ([], (λ v, (WriterTryReadFront, (1, Some v))) <$> rev q).
Proof.
  induction q as [|x q IH] using rev_ind; [done|].
  rewrite length_app, Nat.add_comm. cbn [length Nat.add replicate deque_run deque_exec].
  rewrite rev_unit, rev_involutive, IH. done.
Qed.

Lemma windowed_empty (pipe : TSpipe) :
  windowed pipe → contents pipe = [] → tsPipeIsEmpty pipe = true.
Proof.
  intros (_ & Hrc & _) Hc. apply (f_equal length) in Hc.
  rewrite contents_length in Hc. cbn [length] in Hc.
  unfold tsPipeIsEmpty, tsAtomicLoad_u32.
  replace (writeIndex pipe - readCount pipe) with 0 by lia. done.
Qed.

(** X1.  As long as fewer than [2 ^ 32] calls have been made one after
    the other on the freshly initialised pipe and none of them has met a
    spurious failure of its compare exchange, the pipe is a queue of at
    most [TS_PIPE_SIZE] items: every call returns, with the reply the
    queue gives ([tsPipeWriterTryWriteFront] appends unless
    [TS_PIPE_SIZE] items are waiting, [tsPipeReaderTryReadBack] takes the
    oldest item, [tsPipeWriterTryReadFront] the newest, and both reads
    return 0 on the empty queue), and the payloads at the indices
    [readCount .. writeIndex - 1] are the items of the queue in order. *)
Theorem pipe_is_bounded_deque
    (fails : list (list bool)) (fuel : nat) (ops : list op) :
  Z.of_nat (length ops) < 2 ^ 32 →
  Forall (λ sp, next_fails sp = false) fails →
  ∃ pipe, run fails (S fuel) ops fresh_pipe = Ok (pipe, (deque_run ops []).2) ∧
          contents pipe = (deque_run ops []).1.
Proof.
  intros H Hnf.
  destruct (run_deque fuel ops fails fresh_pipe fresh_pipe_windowed H Hnf)
    as (pipe & Hrun & Hc & _).
  rewrite contents_fresh_pipe in Hrun, Hc. eauto.
Qed.

Lemma pipe_is_bounded_deque_witness :
  Z.of_nat (length [WriterTryWriteFront 1; WriterTryWriteFront 2;
                    WriterTryWriteFront 3; ReaderTryReadBack;
                    WriterTryReadFront; WriterTryWriteFront 4]) < 2 ^ 32 ∧
  Forall (λ sp, next_fails sp = false) [[]; []; []; [false; true]] ∧
  ∃ pipe,
    run [[]; []; []; [false; true]] 1
        [WriterTryWriteFront 1; WriterTryWriteFront 2; WriterTryWriteFront 3;
         ReaderTryReadBack; WriterTryReadFront; WriterTryWriteFront 4] fresh_pipe
    = Ok (pipe,
          [(WriterTryWriteFront 1, (1, None)); (WriterTryWriteFront 2, (1, None));
           (WriterTryWriteFront 3, (1, None)); (ReaderTryReadBack, (1, Some 1));
           (WriterTryReadFront, (1, Some 3)); (WriterTryWriteFront 4, (1, None))]) ∧
    contents pipe = [2; 4].
Proof.
  assert (Hnf : Forall (λ sp, next_fails sp = false) [[]; []; []; [false; true]])
    by (repeat constructor).
  split; [done|]. split; [exact Hnf|].
  exact (pipe_is_bounded_deque [[]; []; []; [false; true]] 0
           [WriterTryWriteFront 1; WriterTryWriteFront 2; WriterTryWriteFront 3;
            ReaderTryReadBack; WriterTryReadFront; WriterTryWriteFront 4]
           eq_refl Hnf).
Defined.

(** X2.  First in, first out.  Up to [TS_PIPE_SIZE] values written in a
    row to the freshly initialised pipe are all accepted; back reads that
    meet no spurious failure of their compare exchange then return them
    in the order they were written, the read after the last of them
    returns 0, and [tsPipeIsEmpty] is true. *)
Theorem writes_then_back_reads
    (fails : list (list bool)) (fuel : nat) (vs : list Z) :
  Z.of_nat (length vs) ≤ TS_PIPE_SIZE →
  Forall (λ sp, next_fails sp = false) fails →
  ∃ pipe,
    run fails (S fuel)
      ((WriterTryWriteFront <$> vs) ++
       replicate (length vs) ReaderTryReadBack ++ [ReaderTryReadBack]) fresh_pipe
    = Ok (pipe,
          ((λ v, (WriterTryWriteFront v, (1, None))) <$> vs) ++
          ((λ v, (ReaderTryReadBack, (1, Some v))) <$> vs) ++
          [(ReaderTryReadBack, (0, None))]) ∧
    tsPipeIsEmpty pipe = true.
Proof.
  intros Hlen Hnf. pose proof TS_PIPE_SIZE_val as HN.
  destruct (run_deque fuel
              ((WriterTryWriteFront <$> vs) ++
               replicate (length vs) ReaderTryReadBack ++ [ReaderTryReadBack])
              fails fresh_pipe fresh_pipe_windowed) as (pipe & Hrun & Hc & Hwin & _).
  { rewrite !length_app, length_fmap, length_replicate. cbn [length].
    change (writeIndex fresh_pipe) with 0. lia. }
  { exact Hnf. }
  rewrite contents_fresh_pipe, deque_run_app, deque_run_writes in Hrun, Hc
    by (cbn [length]; lia).
  cbn [app] in Hrun, Hc.
  rewrite deque_run_app, deque_run_back_reads in Hrun, Hc.
  cbn [deque_run deque_exec fst snd] in Hrun, Hc.
  exists pipe. split; [done|]. by apply windowed_empty.
Qed.

Lemma writes_then_back_reads_witness :
  Z.of_nat (length [7; 7; 9]) ≤ TS_PIPE_SIZE ∧
  Forall (λ sp, next_fails sp = false) [[]; []; []; [false; true]] ∧
  ∃ pipe,
    run [[]; []; []; [false; true]] 1
        [WriterTryWriteFront 7; WriterTryWriteFront 7; WriterTryWriteFront 9;
         ReaderTryReadBack; ReaderTryReadBack; ReaderTryReadBack;
         ReaderTryReadBack] fresh_pipe
    = Ok (pipe,
          [(WriterTryWriteFront 7, (1, None)); (WriterTryWriteFront 7, (1, None));
           (WriterTryWriteFront 9, (1, None)); (ReaderTryReadBack, (1, Some 7));
           (ReaderTryReadBack, (1, Some 7)); (ReaderTryReadBack, (1, Some 9));
           (ReaderTryReadBack, (0, None))]) ∧
    tsPipeIsEmpty pipe = true.
Proof.
  assert (H : Z.of_nat (length [7; 7; 9]) ≤ TS_PIPE_SIZE) by done.
  assert (Hnf : Forall (λ sp, next_fails sp = false) [[]; []; []; [false; true]])
    by (repeat constructor).
  split; [exact H|]. split; [exact Hnf|].
  exact (writes_then_back_reads [[]; []; []; [false; true]] 0 [7; 7; 9] H Hnf).
Defined.

(** X3.  Last in, first out from the front.  Up to [TS_PIPE_SIZE] values
    written in a row to the freshly initialised pipe are returned, by
    front reads that meet no spurious failure of their compare exchange,
    in the reverse of the order they were written; the front read after
    the last of them returns 0, and [tsPipeIsEmpty] is true. *)
Theorem writes_then_front_reads
    (fails : list (list bool)) (fuel : nat) (vs : list Z) :
  Z.of_nat (length vs) ≤ TS_PIPE_SIZE →
  Forall (λ sp, next_fails sp = false) fails →
  ∃ pipe,
    run fails (S fuel)
      ((WriterTryWriteFront <$> vs) ++
       replicate (length vs) WriterTryReadFront ++ [WriterTryReadFront]) fresh_pipe
    = Ok (pipe,
          ((λ v, (WriterTryWriteFront v, (1, None))) <$> vs) ++
          ((λ v, (WriterTryReadFront, (1, Some v))) <$> rev vs) ++
          [(WriterTryReadFront, (0, None))]) ∧
    tsPipeIsEmpty pipe = true.
Proof.
  intros Hlen Hnf. pose proof TS_PIPE_SIZE_val as HN.
  destruct (run_deque fuel
              ((WriterTryWriteFront <$> vs) ++
               replicate (length vs) WriterTryReadFront ++ [WriterTryReadFront])
              fails fresh_pipe fresh_pipe_windowed) as (pipe & Hrun & Hc & Hwin & _).
  { rewrite !length_app, length_fmap, length_replicate. cbn [length].
    change (writeIndex fresh_pipe) with 0. lia. }
  { exact Hnf. }
  rewrite contents_fresh_pipe, deque_run_app, deque_run_writes in Hrun, Hc
    by (cbn [length]; lia).
  cbn [app] in Hrun, Hc.
  rewrite deque_run_app, deque_run_front_reads in Hrun, Hc.
  cbn [deque_run deque_exec rev fst snd] in Hrun, Hc.
  exists pipe. split; [done|]. by apply windowed_empty.
Qed.

Lemma writes_then_front_reads_witness :
  Z.of_nat (length [7; 8; 9]) ≤ TS_PIPE_SIZE ∧
  Forall (λ sp, next_fails sp = false) [[]; []; []; [false; true]] ∧
  ∃ pipe,
    run [[]; []; []; [false; true]] 1
        [WriterTryWriteFront 7; WriterTryWriteFront 8; WriterTryWriteFront 9;
         WriterTryReadFront; WriterTryReadFront; WriterTryReadFront;
         WriterTryReadFront] fresh_pipe
    = Ok (pipe,
          [(WriterTryWriteFront 7, (1, None)); (WriterTryWriteFront 8, (1, None));
           (WriterTryWriteFront 9, (1, None)); (WriterTryReadFront, (1, Some 9));
           (WriterTryReadFront, (1, Some 8)); (WriterTryReadFront, (1, Some 7));
           (WriterTryReadFront, (0, None))]) ∧
    tsPipeIsEmpty pipe = true.
Proof.
  assert (H : Z.of_nat (length [7; 8; 9]) ≤ TS_PIPE_SIZE) by done.
  assert (Hnf : Forall (λ sp, next_fails sp = false) [[]; []; []; [false; true]])
    by (repeat constructor).
  split; [exact H|]. split; [exact Hnf|].
  exact (writes_then_front_reads [[]; []; []; [false; true]] 0 [7; 8; 9] H Hnf).
Defined.

(** ** Calls that fail, and what each call may change *)

(** X4.  A call that returns 0 has stored nothing to [*out] and has left
    [buffer[]], [flags[]], [writeIndex] and [readCount] as they were; the
    only thing it may have changed is [readIndex], and only
    [tsPipeWriterTryReadFront] does so, setting it to [readCount].  This
    holds in any state of the pipe. *)
Theorem failed_call_changes_nothing
    (fails : list bool) (fuel : nat) (o : op) (pipe pipe' : TSpipe)
    (out : option Z) :
  exec fails fuel o pipe = Ok (pipe', (0, out)) →
  out = None ∧
  buffer pipe' = buffer pipe ∧ flags pipe' = flags pipe ∧
  writeIndex pipe' = writeIndex pipe ∧ readCount pipe' = readCount pipe ∧
  flagStores pipe' = flagStores pipe ∧
  (readIndex pipe' = readIndex pipe ∨
   o = WriterTryReadFront ∧ readIndex pipe' = readCount pipe).
Proof.
  intros H%exec_effect.
  inversion H as [v f Hf Hne | | ri Hri | | |]; subst; try done.
  - repeat split; auto.
  - repeat split; try done. destruct Hri as [-> | ->]; auto.
  - repeat split; auto.
Qed.

Lemma failed_call_changes_nothing_witness :
  ∃ pipe',
    exec [true] 1 WriterTryReadFront fresh_pipe = Ok (pipe', (0, None)) ∧
    buffer pipe' = buffer fresh_pipe ∧ flags pipe' = flags fresh_pipe ∧
    writeIndex pipe' = writeIndex fresh_pipe.
Proof.
  eexists. split; [vm_compute; reflexivity|].
  match goal with |- buffer ?p = _ ∧ _ =>
    destruct (failed_call_changes_nothing [true] 1 WriterTryReadFront
                fresh_pipe p None)
      as (_ & Hb & Hf & Hw & _); [vm_compute; reflexivity|]
  end.
  auto.
Defined.

(** X5.  What each function may change, in any state: the arrays keep
    their extent; a call changes [flags[]] and [buffer[]] in at most one
    slot; [tsPipeReaderTryReadBack] never changes [writeIndex],
    [readIndex] or [buffer[]]; [tsPipeWriterTryReadFront] never changes
    [readCount] or [buffer[]]; [tsPipeWriterTryWriteFront] never changes
    [readIndex] or [readCount]; and a call returns 0, or 1 together with
    a value exactly when it is a read. *)
Theorem calls_change_only_their_fields
    (fails : list bool) (fuel : nat) (o : op) (pipe pipe' : TSpipe) (r : reply) :
  exec fails fuel o pipe = Ok (pipe', r) →
  length (buffer pipe') = length (buffer pipe) ∧
  length (flags pipe') = length (flags pipe) ∧
  (∃ a : nat, ∀ j, j ≠ a →
     flags pipe' !! j = flags pipe !! j ∧ buffer pipe' !! j = buffer pipe !! j) ∧
  match o with
  | ReaderTryReadBack =>
    writeIndex pipe' = writeIndex pipe ∧ readIndex pipe' = readIndex pipe ∧
    buffer pipe' = buffer pipe ∧ (r = (0, None) ∨ ∃ v, r = (1, Some v))
  | WriterTryReadFront =>
    readCount pipe' = readCount pipe ∧ buffer pipe' = buffer pipe ∧
    (r = (0, None) ∨ ∃ v, r = (1, Some v))
  | WriterTryWriteFront _ =>
    readIndex pipe' = readIndex pipe ∧ readCount pipe' = readCount pipe ∧
    (r = (0, None) ∨ r = (1, None))
  end.
Proof.
  intros H%exec_effect.
  inversion H as [v f Hf Hne | v a -> Hf Hlen | ri Hri | a b Ha Hf Hb | | a b Ha Hf Hb];
    subst; unfold publish, take_front, take_back; pipe_simpl;
    rewrite ?length_insert;
    (split; [done|]); (split; [done|]); (split; [|by eauto 6]).
  - by exists 0%nat.
  - exists (Z.to_nat (Z.land (writeIndex pipe) TS_PIPE_MASK)).
    intros j Hj. by rewrite !list_lookup_insert_ne.
  - by exists 0%nat.
  - exists (Z.to_nat a). intros j Hj. by rewrite list_lookup_insert_ne.
  - by exists 0%nat.
  - exists (Z.to_nat a). intros j Hj. by rewrite list_lookup_insert_ne.
Qed.

Lemma calls_change_only_their_fields_witness :
  ∃ pipe' r,
    exec [] 1 (WriterTryWriteFront 5) fresh_pipe = Ok (pipe', r) ∧
    readIndex pipe' = readIndex fresh_pipe ∧
    readCount pipe' = readCount fresh_pipe ∧
    (r = (0, None) ∨ r = (1, None)).
Proof.
  eexists _, _. split; [vm_compute; reflexivity|].
  eapply (calls_change_only_their_fields [] 1 (WriterTryWriteFront 5) fresh_pipe).
  vm_compute. reflexivity.
Defined.

(** ** Empty and full, in every state that calls can lead to *)

Lemma payloads_nil (buf fl : list Z) :
  length buf = length fl → payloads buf fl = [] →
  Forall (λ f, f ≠ TS_PIPE_READABLE) fl.
Proof.
  revert fl. induction buf as [|b buf IH]; intros [|f fl]; cbn [length payloads];
    try done.
  intros [= Hlen]. destruct (Z.eqb_spec f TS_PIPE_READABLE); [done|].
  intros H. constructor; auto.
Qed.

Lemma payloads_all (buf fl : list Z) :
  length buf = length fl → length (payloads buf fl) = length fl →
  Forall (λ f, f = TS_PIPE_READABLE) fl.
Proof.
  revert fl. induction buf as [|b buf IH]; intros [|f fl]; cbn [length payloads];
    try done.
  intros [= Hlen]. pose proof (payloads_length buf fl) as Hle.
  destruct (Z.eqb_spec f TS_PIPE_READABLE); cbn [length]; intros H.
  - constructor; [done|]. apply IH; [done | lia].
  - lia.
Qed.

Lemma payloads_all_readable (buf fl : list Z) :
  length buf = length fl → Forall (λ f, f = TS_PIPE_READABLE) fl →
  length (payloads buf fl) = length fl.
Proof.
  intros Hlen H. revert buf Hlen.
  induction H as [|f fl -> _ IH]; intros [|b buf]; cbn [length payloads]; try done.
  intros [= Hlen]. rewrite Z.eqb_refl. cbn [length]. by rewrite IH.
Qed.

Lemma empty_all_writable (pipe : TSpipe) :
  quiescent pipe → tsPipeIsEmpty pipe = true →
  Forall (λ f, f = TS_PIPE_WRITABLE) (flags pipe).
Proof.
  intros ([Hb Hl] & Hfl & Hcnt) He.
  unfold tsPipeIsEmpty, tsAtomicLoad_u32 in He. rewrite Hcnt in He.
  apply Z.eqb_eq in He.
  assert (Hnil : pending pipe = []) by (apply nil_length_inv; lia).
  apply payloads_nil in Hnil; [|congruence].
  apply Forall_forall. intros f Hin.
  rewrite Forall_forall in Hfl, Hnil.
  destruct (Hfl f Hin); [done|]. by destruct (Hnil f Hin).
Qed.

(** X6.  Between calls, the counters tell what the flags hold, also after
    the counters have wrapped around: [tsPipeIsEmpty] is true exactly
    when every slot is WRITABLE, and [writeIndex - readCount] is
    [TS_PIPE_SIZE] exactly when every slot is READABLE. *)
Theorem counters_agree_with_flags (pipe : TSpipe) :
  reachable pipe →
  (tsPipeIsEmpty pipe = true ↔
   Forall (λ f, f = TS_PIPE_WRITABLE) (flags pipe)) ∧
  (u32 (writeIndex pipe - readCount pipe) = TS_PIPE_SIZE ↔
   Forall (λ f, f = TS_PIPE_READABLE) (flags pipe)).
Proof.
  intros Hq%reachable_quiescent. pose proof Hq as ([Hb Hf] & Hfl & Hcnt).
  pose proof TS_PIPE_SIZE_val as HN. split; split.
  - by apply empty_all_writable.
  - unfold tsPipeIsEmpty, tsAtomicLoad_u32. rewrite Hcnt. unfold pending.
    intros H. rewrite payloads_none; [done|].
    revert H. apply Forall_impl. by intros f ->.
  - rewrite Hcnt. unfold pending.
    intros E. apply (payloads_all (buffer pipe)); [congruence|]. lia.
  - rewrite Hcnt. unfold pending.
    intros H. rewrite payloads_all_readable by (done || congruence). lia.
Qed.

Lemma counters_agree_with_flags_witness :
  reachable fresh_pipe ∧
  (tsPipeIsEmpty fresh_pipe = true ↔
   Forall (λ f, f = TS_PIPE_WRITABLE) (flags fresh_pipe)).
Proof.
  assert (Hr : reachable fresh_pipe) by (by exists [], 0%nat, [], []).
  split; [exact Hr|]. exact (proj1 (counters_agree_with_flags fresh_pipe Hr)).
Defined.

(** X7.  In every state that calls can lead to, also after the counters
    have wrapped around: an empty pipe accepts a write and answers 0 to
    both reads, and a pipe holding [TS_PIPE_SIZE] items answers 0 to a
    write and leaves everything as it is. *)
Theorem empty_accepts_full_rejects
    (fails : list bool) (fuel : nat) (pipe : TSpipe) (v : Z) :
  reachable pipe →
  (tsPipeIsEmpty pipe = true →
   tsPipeWriterTryWriteFront pipe v
   = Ok (publish pipe (Z.land (writeIndex pipe) TS_PIPE_MASK) v, 1) ∧
   tsPipeReaderTryReadBack fails (S fuel) pipe = Ok (pipe, (0, None)) ∧
   tsPipeWriterTryReadFront fails (S fuel) pipe
   = Ok (set_readIndex pipe (readCount pipe), (0, None))) ∧
  (u32 (writeIndex pipe - readCount pipe) = TS_PIPE_SIZE →
   tsPipeWriterTryWriteFront pipe v = Ok (pipe, 0)).
Proof.
  intros Hr. pose proof (reachable_quiescent _ Hr) as Hq.
  pose proof Hq as (Hws & Hfl & Hcnt).
  pose proof (slot_range (writeIndex pipe)) as Ha.
  destruct (well_sized_bound _ _ Hws Ha) as [Hlf Hlb].
  destruct (arr_get_in _ _ Hlf) as (f & Hget & Hf).
  unfold tsPipeWriterTryWriteFront, tsAtomicLoad_u32, tsAtomicFetchAdd_u32.
  rewrite Hget. res_simpl. split.
  - intros He. split; [|split].
    + assert (f = TS_PIPE_WRITABLE) as ->.
      { pose proof (empty_all_writable pipe Hq He) as Hall.
        by eapply Forall_lookup_1 in Hall. }
      rewrite Z.eqb_refl. cbn [negb]. rewrite arr_set_in by done. res_simpl.
      unfold store_flag, tsAtomicStore_u32. pipe_simpl.
      by rewrite arr_set_in by done.
    + unfold tsPipeIsEmpty, tsAtomicLoad_u32 in He. apply Z.eqb_eq in He.
      unfold tsPipeReaderTryReadBack, tsAtomicLoad_u32.
      cbn [tsPipeReaderTryReadBack_loop]. unfold tsAtomicLoad_u32.
      by rewrite He.
    + unfold tsPipeIsEmpty, tsAtomicLoad_u32 in He. apply Z.eqb_eq in He.
      unfold tsPipeWriterTryReadFront, tsAtomicLoad_u32, tsAtomicStore_u32.
      cbn [tsPipeWriterTryReadFront_loop]. unfold tsAtomicLoad_u32, tsAtomicStore_u32.
      by rewrite He.
  - intros E. assert (f = TS_PIPE_READABLE) as ->.
    { assert (Hall : Forall (λ f, f = TS_PIPE_READABLE) (flags pipe)).
      { destruct Hws as [Hb Hl]. apply (payloads_all (buffer pipe)); [congruence|].
        fold (pending pipe). pose proof TS_PIPE_SIZE_val. lia. }
      by eapply Forall_lookup_1 in Hall. }
    done.
Qed.

Lemma empty_accepts_full_rejects_witness :
  reachable fresh_pipe ∧ tsPipeIsEmpty fresh_pipe = true ∧
  tsPipeWriterTryWriteFront fresh_pipe 3
  = Ok (publish fresh_pipe (Z.land (writeIndex fresh_pipe) TS_PIPE_MASK) 3, 1).
Proof.
  assert (Hr : reachable fresh_pipe) by (by exists [], 0%nat, [], []).
  split; [exact Hr|]. split; [reflexivity|].
  exact (proj1 (proj1 (empty_accepts_full_rejects [] 0 fresh_pipe 3 Hr) eq_refl)).
Defined.

(** X8.  Calling [tsPipeInit] again on a pipe that calls have left empty
    gives a pipe as good as the freshly initialised one, whatever the
    counters had become and whatever spurious failures the earlier calls
    met: it is again the queue of X1 for the next [2 ^ 32 - 1] calls, as
    long as none of these meets a spurious failure of its compare
    exchange. *)
Theorem init_of_empty_pipe_is_fresh
    (fails : list (list bool)) (fuel : nat) (pipe : TSpipe) (ops : list op) :
  reachable pipe → tsPipeIsEmpty pipe = true →
  Z.of_nat (length ops) < 2 ^ 32 →
  Forall (λ sp, next_fails sp = false) fails →
  ∃ pipe',
    run fails (S fuel) ops (tsPipeInit pipe) = Ok (pipe', (deque_run ops []).2) ∧
    contents pipe' = (deque_run ops []).1.
Proof.
  intros Hr He Hlen Hnf. pose proof (reachable_quiescent _ Hr) as Hq.
  pose proof Hq as (Hws & Hfl & Hcnt).
  pose proof (empty_all_writable pipe Hq He) as Hall.
  assert (Hwin : windowed (tsPipeInit pipe)).
  { split; [|split; [done|split; [done|]]].
    - destruct Hws as [Hb Hl]. split; unfold tsPipeInit; pipe_simpl; [|done].
      by rewrite length_replicate.
    - intros j Hj. left. split; [|intros i Hi; cbn in Hi; lia].
      unfold tsPipeInit; pipe_simpl.
      destruct (well_sized_bound _ _ Hws Hj) as [Hjf _].
      destruct (lookup_lt_is_Some_2 (flags pipe) (Z.to_nat j)) as [f Hf]; [lia|].
      rewrite Hf. f_equal. by eapply Forall_lookup_1 in Hall. }
  destruct (run_deque fuel ops fails (tsPipeInit pipe) Hwin) as (p & Hrun & Hc & _).
  { unfold tsPipeInit; pipe_simpl. lia. }
  { exact Hnf. }
  assert (E : contents (tsPipeInit pipe) = []) by reflexivity.
  rewrite E in Hrun, Hc. eauto.
Qed.

Lemma init_of_empty_pipe_is_fresh_witness :
  ∃ pipe log,
    run [[]; [true]] 2 [WriterTryWriteFront 1; ReaderTryReadBack] fresh_pipe
    = Ok (pipe, log) ∧
    tsPipeIsEmpty pipe = true ∧
    Z.of_nat (length [WriterTryWriteFront 2; ReaderTryReadBack]) < 2 ^ 32 ∧
    Forall (λ sp, next_fails sp = false) [[]; [false; true]] ∧
    ∃ pipe',
      run [[]; [false; true]] 1 [WriterTryWriteFront 2; ReaderTryReadBack]
          (tsPipeInit pipe)
      = Ok (pipe', [(WriterTryWriteFront 2, (1, None));
                    (ReaderTryReadBack, (1, Some 2))]) ∧
      contents pipe' = [].
Proof.
  assert (Hnf : Forall (λ sp, next_fails sp = false) [[]; [false; true]])
    by (repeat constructor).
  eexists _, _. split; [vm_compute; reflexivity|].
  split; [reflexivity|]. split; [done|]. split; [exact Hnf|].
  eapply (init_of_empty_pipe_is_fresh [[]; [false; true]] 0 _
            [WriterTryWriteFront 2; ReaderTryReadBack]).
  - exists [[]; [true]], 2%nat, [WriterTryWriteFront 1; ReaderTryReadBack]. eexists.
    vm_compute. reflexivity.
  - reflexivity.
  - done.
  - exact Hnf.
Defined.

(** ** The front read always returns *)

Lemma slot_u32_add (x y : Z) :
  Z.land (u32 x + y) TS_PIPE_MASK = Z.land (x + y) TS_PIPE_MASK.
Proof.
  rewrite !slot_mod. rewrite (Z.add_mod (u32 x)), (Z.add_mod x) by done.
  f_equal. f_equal. unfold u32. apply Z.mod_mod_divide. exists (2 ^ 23). reflexivity.
Qed.

Lemma no_fails_head (fails : list bool) :
  Forall (λ sp, sp = false) fails →
  next_fails fails = false ∧ Forall (λ sp, sp = false) (tail fails).
Proof. by destruct 1. Qed.

(** The loop of the front read, [d] slots away from a readable one. *)
Lemma tsPipeWriterTryReadFront_loop_returns (d : nat) : ∀ fails fuel pipe wi f,
  well_sized pipe → (d < fuel)%nat → Forall (λ sp, sp = false) fails →
  flags pipe !! Z.to_nat (Z.land (f - 1 - Z.of_nat d) TS_PIPE_MASK)
    = Some TS_PIPE_READABLE →
  ∃ r, tsPipeWriterTryReadFront_loop fails fuel pipe wi f = Ok r.
Proof.
  induction d as [|d IH]; intros fails fuel pipe wi f Hws Hfuel Hnf Hr;
    apply no_fails_head in Hnf as [Hnf Hrest];
    (destruct fuel as [|fuel]; [lia|]);
    cbn [tsPipeWriterTryReadFront_loop]; (destruct (0 =? _); [by eauto|]).
  - assert (Ha : Z.land (u32 (f - 1)) TS_PIPE_MASK
                 = Z.land (f - 1 - Z.of_nat 0) TS_PIPE_MASK).
    { rewrite slot_u32. f_equal. lia. }
    rewrite Ha, Hnf.
    pose proof (slot_range (f - 1 - Z.of_nat 0)) as Hrange.
    rewrite cmpxchg_flag_takes by (done || lia). unfold store_flag.
    rewrite arr_set_in by (apply lookup_lt_Some in Hr; lia). res_simpl. eauto.
  - destruct (cmpxchg_flag_in (next_fails fails) pipe
                (Z.land (u32 (f - 1)) TS_PIPE_MASK)
                TS_PIPE_READABLE TS_PIPE_INVALID) as [[ok q] E];
      [by apply slot_in_flags|].
    rewrite E. res_simpl. destruct ok; [by eauto|].
    apply cmpxchg_flag_Ok in E as (_ & g & _ & _ & E). cbn [snd] in E. subst q.
    destruct (_ >=? _); [by eauto|].
    apply IH; [done | lia | done |].
    replace (u32 (f - 1) - 1 - Z.of_nat d) with (u32 (f - 1) + (-1 - Z.of_nat d)) by lia.
    rewrite slot_u32_add. rewrite <- Hr. f_equal. f_equal. f_equal. lia.
Qed.

(** The loop of the front read counts [frontReadIndex] down and leaves
    when it has come down to [readIndex], whatever the compare exchanges
    do. *)
Lemma tsPipeWriterTryReadFront_loop_counts_down (n : nat) : ∀ fails fuel pipe wi f,
  well_sized pipe → 0 ≤ readIndex pipe → 1 ≤ f ≤ Z.of_nat n → (n ≤ fuel)%nat →
  ∃ r, tsPipeWriterTryReadFront_loop fails fuel pipe wi f = Ok r.
Proof.
  induction n as [|n IH]; intros fails fuel pipe wi f Hws Hri Hf Hfuel; [lia|].
  destruct fuel as [|fuel]; [lia|].
  cbn [tsPipeWriterTryReadFront_loop]. destruct (0 =? _); [by eauto|].
  destruct (cmpxchg_flag_in (next_fails fails) pipe
              (Z.land (u32 (f - 1)) TS_PIPE_MASK)
              TS_PIPE_READABLE TS_PIPE_INVALID) as [[ok q] E];
    [by apply slot_in_flags|].
  rewrite E. res_simpl. destruct ok; [by eauto|].
  apply cmpxchg_flag_Ok in E as (_ & g & _ & _ & E). cbn [snd] in E. subst q.
  unfold tsAtomicLoad_u32.
  destruct (Z.geb_spec (readIndex pipe) (u32 (f - 1))) as [Hge|Hlt]; [by eauto|].
  assert (Hle : u32 (f - 1) ≤ f - 1) by (unfold u32; apply Z.mod_le; lia).
  apply IH; [done | done | lia | lia].
Qed.

Lemma tsPipeWriterTryReadFront_loop_halts
    (fails : list bool) (fuel : nat) (pipe : TSpipe) (wi f : Z) :
  well_sized pipe → 0 ≤ readIndex pipe → (Z.to_nat (2 ^ 32) ≤ fuel)%nat →
  ∃ r, tsPipeWriterTryReadFront_loop fails fuel pipe wi f = Ok r.
Proof.
  intros Hws Hri Hfuel. destruct fuel as [|fuel]; [lia|].
  cbn [tsPipeWriterTryReadFront_loop]. destruct (0 =? _); [by eauto|].
  destruct (cmpxchg_flag_in (next_fails fails) pipe
              (Z.land (u32 (f - 1)) TS_PIPE_MASK)
              TS_PIPE_READABLE TS_PIPE_INVALID) as [[ok q] E];
    [by apply slot_in_flags|].
  rewrite E. res_simpl. destruct ok; [by eauto|].
  apply cmpxchg_flag_Ok in E as (_ & g & _ & _ & E). cbn [snd] in E. subst q.
  unfold tsAtomicLoad_u32.
  destruct (Z.geb_spec (readIndex pipe) (u32 (f - 1))) as [Hge|Hlt]; [by eauto|].
  pose proof (u32_range (f - 1)) as Hu.
  apply (tsPipeWriterTryReadFront_loop_counts_down (Z.to_nat (2 ^ 32 - 1)));
    [exact Hws | exact Hri | lia | lia].
Qed.

(** Once its loop has returned, the front read returns. *)
Lemma tsPipeWriterTryReadFront_after_loop
    (fails : list bool) (fuel : nat) (pipe : TSpipe) :
  well_sized pipe →
  (∃ r, tsPipeWriterTryReadFront_loop fails fuel pipe
          (tsAtomicLoad_u32 (writeIndex pipe))
          (tsAtomicLoad_u32 (writeIndex pipe)) = Ok r) →
  ∃ pipe' r, tsPipeWriterTryReadFront fails fuel pipe = Ok (pipe', r).
Proof.
  intros Hws [[q brk] Hq]. unfold tsPipeWriterTryReadFront. rewrite Hq. res_simpl.
  destruct brk as [a|]; [|by eauto].
  apply tsPipeWriterTryReadFront_loop_Ok in Hq as (Ha & Hf & S).
  destruct (claimed_slot_in_bounds pipe q a Hws Ha Hf S) as (Hb & [b Hg] & Hs).
  rewrite Hb, Hg. res_simpl. destruct (Hs q eq_refl) as [q' ->]. res_simpl. eauto.
Qed.

Lemma payloads_some (buf fl : list Z) :
  payloads buf fl ≠ [] → ∃ n, fl !! n = Some TS_PIPE_READABLE.
Proof.
  revert fl. induction buf as [|b buf IH]; intros [|f fl]; cbn [payloads]; try done.
  destruct (Z.eqb_spec f TS_PIPE_READABLE) as [->|_].
  - intros _. by exists 0%nat.
  - intros [n Hn]%IH. by exists (S n).
Qed.

(** X9.  In every state that calls can lead to, also after the counters
    have wrapped around, [tsPipeWriterTryReadFront] returns: within
    [TS_PIPE_SIZE] iterations of its loop when none of its compare
    exchanges fails spuriously, and within [2 ^ 32] iterations whichever
    of them do. *)
Theorem front_read_returns (fails : list bool) (fuel : nat) (pipe : TSpipe) :
  reachable pipe →
  ((Z.to_nat TS_PIPE_SIZE ≤ fuel)%nat → Forall (λ sp, sp = false) fails →
   ∃ pipe' r, tsPipeWriterTryReadFront fails fuel pipe = Ok (pipe', r)) ∧
  ((Z.to_nat (2 ^ 32) ≤ fuel)%nat →
   ∃ pipe' r, tsPipeWriterTryReadFront fails fuel pipe = Ok (pipe', r)).
Proof.
  intros Hr. pose proof (reachable_quiescent _ Hr) as (Hws & Hfl & Hcnt).
  pose proof (reachable_counters _ Hr) as (_ & Hri & _).
  pose proof TS_PIPE_SIZE_val as HN. split.
  - intros Hfuel Hnf. apply tsPipeWriterTryReadFront_after_loop; [exact Hws|].
    destruct (decide (pending pipe = [])) as [Hnil|Hpend].
    + destruct fuel as [|fuel]; [lia|]. cbn [tsPipeWriterTryReadFront_loop].
      unfold tsAtomicLoad_u32. rewrite Hcnt, Hnil. cbn [length]. eauto.
    + destruct (payloads_some _ _ Hpend) as [n Hn].
      pose proof (lookup_lt_Some _ _ _ Hn) as Hlt. pose proof Hws as [_ Hl].
      set (f := tsAtomicLoad_u32 (writeIndex pipe)).
      set (d := Z.to_nat ((f - 1 - Z.of_nat n) mod TS_PIPE_SIZE)).
      pose proof (Z.mod_pos_bound (f - 1 - Z.of_nat n) TS_PIPE_SIZE ltac:(lia)) as Hd.
      apply (tsPipeWriterTryReadFront_loop_returns d); [done | lia | done |].
      replace (Z.land (f - 1 - Z.of_nat d) TS_PIPE_MASK) with (Z.of_nat n);
        [by rewrite Nat2Z.id|].
      rewrite slot_mod. unfold d. rewrite Z2Nat.id by lia.
      rewrite Zminus_mod_idemp_r.
      replace (f - 1 - (f - 1 - Z.of_nat n)) with (Z.of_nat n) by lia.
      rewrite Z.mod_small; lia.
  - intros Hfuel. apply tsPipeWriterTryReadFront_after_loop; [exact Hws|].
    apply tsPipeWriterTryReadFront_loop_halts; [exact Hws | lia | exact Hfuel].
Qed.

Lemma front_read_returns_witness :
  reachable (publish fresh_pipe 0 1) ∧
  ((Z.to_nat TS_PIPE_SIZE ≤ 512)%nat ∧ Forall (λ sp, sp = false) [false; false] ∧
   ∃ pipe' r,
     tsPipeWriterTryReadFront [false; false] 512 (publish fresh_pipe 0 1)
     = Ok (pipe', r)) ∧
  ((Z.to_nat (2 ^ 32) ≤ Z.to_nat (2 ^ 32))%nat ∧
   ∃ pipe' r,
     tsPipeWriterTryReadFront [true; true] (Z.to_nat (2 ^ 32))
                              (publish fresh_pipe 0 1)
     = Ok (pipe', r)).
Proof.
  assert (Hr : reachable (publish fresh_pipe 0 1)).
  { exists [], 1%nat, [WriterTryWriteFront 1]. eexists. vm_compute. reflexivity. }
  assert (Hf : (Z.to_nat TS_PIPE_SIZE ≤ 512)%nat) by (vm_compute; lia).
  assert (Hnf : Forall (λ sp, sp = false) [false; false]) by (repeat constructor).
  split; [exact Hr|]. split.
  - split; [exact Hf|]. split; [exact Hnf|].
    exact (proj1 (front_read_returns [false; false] 512 (publish fresh_pipe 0 1) Hr)
                 Hf Hnf).
  - split; [exact (le_n _)|].
    exact (proj2 (front_read_returns [true; true] (Z.to_nat (2 ^ 32))
                                     (publish fresh_pipe 0 1) Hr)
                 (le_n _)).
Defined.

(** ** Read-back once [writeIndex] has wrapped around *)

Lemma run_app (fuel : nat) (ops1 ops2 : list op) : ∀ pipe pipe1 pipe2 log1 log2,
  run [] fuel ops1 pipe = Ok (pipe1, log1) →
  run [] fuel ops2 pipe1 = Ok (pipe2, log2) →
  run [] fuel (ops1 ++ ops2) pipe = Ok (pipe2, log1 ++ log2).
Proof.
  induction ops1 as [|o ops1 IH]; intros pipe pipe1 pipe2 log1 log2 H1 H2.
  - cbn [run] in H1. injection H1 as <- <-. done.
  - cbn [run app head tail from_option id] in *.
    destruct (exec [] fuel o pipe) as [[q r]| |]; try done.
    res_simpl in H1. res_simpl.
    destruct (run [] fuel ops1 q) as [[q' l]| |] eqn:E; try done.
    res_simpl in H1. injection H1 as <- <-.
    by rewrite (IH _ _ _ _ _ E H2).
Qed.

Lemma well_sized_publish (pipe : TSpipe) (a v : Z) :
  well_sized pipe → well_sized (publish pipe a v).
Proof. intros [Hb Hf]. split; unfold publish; pipe_simpl; by rewrite length_insert. Qed.

Lemma well_sized_take_back (pipe : TSpipe) (a : Z) :
  well_sized pipe → well_sized (take_back pipe a).
Proof. intros [Hb Hf]. split; unfold take_back; pipe_simpl; by rewrite ?length_insert. Qed.

Lemma tsPipeWriterTryWriteFront_writable (pipe : TSpipe) (v : Z) :
  well_sized pipe →
  let a := Z.land (writeIndex pipe) TS_PIPE_MASK in
  flags pipe !! Z.to_nat a = Some TS_PIPE_WRITABLE →
  tsPipeWriterTryWriteFront pipe v = Ok (publish pipe a v, 1).
Proof.
  intros Hws a Hw.
  unfold tsPipeWriterTryWriteFront, tsAtomicLoad_u32, tsAtomicFetchAdd_u32. fold a.
  pose proof (slot_range (writeIndex pipe)) as Ha. fold a in Ha.
  destruct (well_sized_bound _ _ Hws Ha) as [Hlf Hlb].
  rewrite (proj2 (arr_get_Ok _ _ _) (conj (proj1 Ha) Hw)). res_simpl.
  rewrite Z.eqb_refl. cbn [negb]. rewrite arr_set_in by done. res_simpl.
  unfold store_flag, tsAtomicStore_u32. pipe_simpl.
  rewrite arr_set_in by done. res_simpl. pipe_simpl. done.
Qed.

Lemma tsPipeReaderTryReadBack_first
    (fails : list bool) (fuel : nat) (pipe : TSpipe) (b : Z) :
  next_fails fails = false →
  well_sized pipe → u32 (writeIndex pipe - readCount pipe) ≠ 0 →
  let a := Z.land (if readCount pipe >=? writeIndex pipe
                   then readIndex pipe else readCount pipe) TS_PIPE_MASK in
  flags pipe !! Z.to_nat a = Some TS_PIPE_READABLE →
  buffer pipe !! Z.to_nat a = Some b →
  tsPipeReaderTryReadBack fails (S fuel) pipe = Ok (take_back pipe a, (1, Some b)).
Proof.
  intros Hnf Hws Hnum a Hf Hb.
  unfold tsPipeReaderTryReadBack, tsAtomicLoad_u32, tsAtomicFetchAdd_u32.
  cbn [tsPipeReaderTryReadBack_loop]. unfold tsAtomicLoad_u32.
  destruct (Z.eqb_spec 0 (u32 (writeIndex pipe - readCount pipe))); [congruence|].
  fold a.
  assert (Ha : 0 ≤ a < TS_PIPE_SIZE) by apply slot_range.
  destruct (well_sized_bound _ _ Hws Ha) as [Hlf Hlb].
  rewrite Hnf, cmpxchg_flag_takes by (done || lia).
  unfold store_flag, tsAtomicStore_u32.
  rewrite arr_set_in by lia. res_simpl. pipe_simpl.
  rewrite (proj2 (arr_get_Ok _ _ _) (conj (proj1 Ha) Hb)). res_simpl.
  rewrite arr_set_in by (rewrite length_insert; lia). res_simpl.
  by rewrite list_insert_insert_eq.
Qed.

Lemma write_read_back_cycles (vs : list Z) : ∀ pipe,
  well_sized pipe →
  flags pipe = replicate (Z.to_nat TS_PIPE_SIZE) TS_PIPE_WRITABLE →
  readCount pipe = writeIndex pipe → 0 ≤ writeIndex pipe →
  writeIndex pipe + Z.of_nat (length vs) < 2 ^ 32 →
  ∃ pipe',
    run [] 1 (vs ≫= λ v, [WriterTryWriteFront v; ReaderTryReadBack]) pipe
    = Ok (pipe', vs ≫= λ v, [(WriterTryWriteFront v, (1, None));
                             (ReaderTryReadBack, (1, Some v))]) ∧
    well_sized pipe' ∧
    flags pipe' = replicate (Z.to_nat TS_PIPE_SIZE) TS_PIPE_WRITABLE ∧
    readCount pipe' = writeIndex pipe' ∧
    writeIndex pipe' = writeIndex pipe + Z.of_nat (length vs) ∧
    readIndex pipe' = readIndex pipe.
Proof.
  induction vs as [|v vs IH]; intros pipe Hws Hfl Hrc Hwi Hlen.
  { exists pipe. cbn [length] in *. repeat split; try done; try apply Hws. lia. }
  cbn [length] in Hlen. rewrite !bind_cons.
  cbn [app run exec head tail from_option id].
  set (a := Z.land (writeIndex pipe) TS_PIPE_MASK).
  assert (Ha : 0 ≤ a < TS_PIPE_SIZE) by apply slot_range.
  destruct (well_sized_bound _ _ Hws Ha) as [Hlf Hlb].
  assert (Hw : flags pipe !! Z.to_nat a = Some TS_PIPE_WRITABLE).
  { rewrite Hfl. apply lookup_replicate_2. lia. }
  rewrite (tsPipeWriterTryWriteFront_writable pipe v Hws Hw). res_simpl. fold a.
  set (p1 := publish pipe a v).
  assert (E : tsPipeReaderTryReadBack [] 1 p1 = Ok (take_back p1 a, (1, Some v))).
  { assert (Hn : u32 (writeIndex p1 - readCount p1) ≠ 0).
    { unfold p1, publish. pipe_simpl. rewrite Hrc, u32_sub_l.
      replace (writeIndex pipe + 1 - writeIndex pipe) with 1 by lia. done. }
    pose proof (tsPipeReaderTryReadBack_first [] 0 p1 v eq_refl
                  (well_sized_publish _ _ _ Hws) Hn) as H.
    assert (Hs : Z.land (if readCount p1 >=? writeIndex p1
                         then readIndex p1 else readCount p1) TS_PIPE_MASK = a).
    { unfold p1, publish. pipe_simpl.
      rewrite Hrc, (u32_small (writeIndex pipe + 1)) by lia.
      by destruct (Z.geb_spec (writeIndex pipe) (writeIndex pipe + 1)); [lia|]. }
    cbv zeta in H. rewrite Hs in H.
    apply H; unfold p1, publish; pipe_simpl; apply list_lookup_insert_eq; lia. }
  rewrite E. res_simpl.
  destruct (IH (take_back p1 a)) as (pipe' & Hrun & Hws' & Hfl' & Hrc' & Hwi' & Hri').
  - by apply well_sized_take_back, well_sized_publish.
  - unfold take_back, p1, publish. pipe_simpl.
    rewrite list_insert_insert_eq, Hfl. apply list_insert_id, lookup_replicate_2. lia.
  - unfold take_back, p1, publish. pipe_simpl. by rewrite Hrc.
  - unfold take_back, p1, publish. pipe_simpl. rewrite u32_small; lia.
  - unfold take_back, p1, publish. pipe_simpl. rewrite u32_small; lia.
  - exists pipe'. rewrite Hrun. res_simpl. split; [done|].
    split; [done|]. split; [done|]. split; [done|]. split; [|done].
    rewrite Hwi'. unfold take_back, p1, publish. pipe_simpl. cbn [length].
    rewrite u32_small; lia.
Qed.

Lemma wrapped_writes_then_read_back (pipe : TSpipe) (a b c : Z) :
  well_sized pipe →
  flags pipe = replicate (Z.to_nat TS_PIPE_SIZE) TS_PIPE_WRITABLE →
  writeIndex pipe = 2 ^ 32 - 2 → readCount pipe = 2 ^ 32 - 2 →
  readIndex pipe = 0 →
  ∃ pipe',
    run [] 1 [WriterTryWriteFront a; WriterTryWriteFront b; WriterTryWriteFront c;
              ReaderTryReadBack] pipe
    = Ok (pipe', [(WriterTryWriteFront a, (1, None));
                  (WriterTryWriteFront b, (1, None));
                  (WriterTryWriteFront c, (1, None));
                  (ReaderTryReadBack, (1, Some c))]) ∧
    pending pipe' ≡ₚ [a; b] ∧
    tsPipeIsEmpty pipe' = false ∧
    (∀ fails fuel, tsPipeReaderTryReadBack fails fuel pipe' = OutOfFuel) ∧
    (∀ fails fuel,
       tsPipeWriterTryReadFront fails (S fuel) pipe' = Ok (pipe', (0, None))).
Proof.
  destruct pipe as [buf fl wi ri rc st]. intros Hws Hfl Hwi Hrc Hri.
  cbn [flags writeIndex readIndex readCount] in Hfl, Hwi, Hrc, Hri. subst.
  set (p0 := mkTSpipe buf _ _ _ _ st) in *.
  set (p1 := publish p0 510 a). set (p2 := publish p1 511 b).
  set (p3 := publish p2 0 c). set (p4 := take_back p3 0).
  assert (Hws1 : well_sized p1) by by apply well_sized_publish.
  assert (Hws2 : well_sized p2) by by apply well_sized_publish.
  assert (Hws3 : well_sized p3) by by apply well_sized_publish.
  assert (E1 : tsPipeWriterTryWriteFront p0 a = Ok (p1, 1)).
  { apply (tsPipeWriterTryWriteFront_writable p0 a Hws). vm_compute. reflexivity. }
  assert (E2 : tsPipeWriterTryWriteFront p1 b = Ok (p2, 1)).
  { apply (tsPipeWriterTryWriteFront_writable p1 b Hws1). vm_compute. reflexivity. }
  assert (E3 : tsPipeWriterTryWriteFront p2 c = Ok (p3, 1)).
  { apply (tsPipeWriterTryWriteFront_writable p2 c Hws2). vm_compute. reflexivity. }
  assert (E4 : tsPipeReaderTryReadBack [] 1 p3 = Ok (p4, (1, Some c))).
  { apply (tsPipeReaderTryReadBack_first [] 0 p3 c eq_refl Hws3).
    - vm_compute. done.
    - vm_compute. reflexivity.
    - change (<[0%nat := c]> (buffer p2) !! 0%nat = Some c).
      apply list_lookup_insert_eq. destruct Hws2 as [-> _]. vm_compute. lia. }
  assert (Hrun : run [] 1 [WriterTryWriteFront a; WriterTryWriteFront b;
                           WriterTryWriteFront c; ReaderTryReadBack] p0
                 = Ok (p4, [(WriterTryWriteFront a, (1, None));
                            (WriterTryWriteFront b, (1, None));
                            (WriterTryWriteFront c, (1, None));
                            (ReaderTryReadBack, (1, Some c))])).
  { cbn [run exec head tail from_option id]. rewrite E1. res_simpl.
    rewrite E2. res_simpl. rewrite E3. res_simpl. rewrite E4. reflexivity. }
  exists p4. split; [exact Hrun|]. split; [|split; [|split]].
  - pose proof (trace_conservation _ _ _ (run_trace _ _ _ _ _ _ Hrun)) as Hc.
    assert (Hp0 : pending p0 = []).
    { apply payloads_none, Forall_replicate. by vm_compute. }
    rewrite Hp0 in Hc.
    change ([a; b] ++ [c] ≡ₚ [c] ++ pending p4) in Hc.
    apply (inj (cons c)). change ([c] ++ pending p4 ≡ₚ [c] ++ [a; b]).
    rewrite <- Hc. apply Permutation_app_comm.
  - vm_compute. reflexivity.
  - intros fails fuel. unfold tsPipeReaderTryReadBack.
    rewrite tsPipeReaderTryReadBack_loop_starves; [done | | done | | | |].
    + vm_compute. done.
    + change (0 ≤ 0 ≤ 1). lia.
    + change (1 + 1 < 2 ^ 32). lia.
    + intros i Hi. change (0 ≤ i ≤ 1) in Hi.
      assert (i = 0 ∨ i = 1) as [-> | ->] by lia;
        (exists TS_PIPE_WRITABLE; split; [vm_compute; reflexivity | by vm_compute]).
    + left. vm_compute. done.
  - intros fails fuel. vm_compute. reflexivity.
Qed.

(** X10.  The read-back compares its index with [writeIndex] as plain
    numbers.  After [2 ^ 32 - 2] writes, each read back at once, three
    more writes of [a], [b] and [c] carry [writeIndex] past [2 ^ 32] and
    leave it below [readCount].  The next read-back then starts from
    [readIndex] and returns [c], the newest item, and after it the
    read-back never leaves its loop and the front read returns 0, while
    [a] and [b] are still in the pipe and it is not empty.  No compare
    exchange fails spuriously on the way there; in the state reached, the
    two reads do as said whatever their compare exchanges do. *)
Theorem read_back_after_wrap (vs : list Z) (a b c : Z) :
  Z.of_nat (length vs) = 2 ^ 32 - 2 →
  ∃ pipe,
    run [] 1 ((vs ≫= λ v, [WriterTryWriteFront v; ReaderTryReadBack]) ++
              [WriterTryWriteFront a; WriterTryWriteFront b; WriterTryWriteFront c;
               ReaderTryReadBack]) fresh_pipe
    = Ok (pipe, (vs ≫= λ v, [(WriterTryWriteFront v, (1, None));
                             (ReaderTryReadBack, (1, Some v))]) ++
                [(WriterTryWriteFront a, (1, None));
                 (WriterTryWriteFront b, (1, None));
                 (WriterTryWriteFront c, (1, None));
                 (ReaderTryReadBack, (1, Some c))]) ∧
    pending pipe ≡ₚ [a; b] ∧
    tsPipeIsEmpty pipe = false ∧
    (∀ fails fuel, tsPipeReaderTryReadBack fails fuel pipe = OutOfFuel) ∧
    (∀ fails fuel,
       tsPipeWriterTryReadFront fails (S fuel) pipe = Ok (pipe, (0, None))).
Proof.
  intros Hlen.
  destruct (write_read_back_cycles vs fresh_pipe)
    as (p & Hrun & Hws & Hfl & Hrc & Hwi & Hri).
  - apply fresh_pipe_windowed.
  - reflexivity.
  - reflexivity.
  - change (0 ≤ 0). lia.
  - change (0 + Z.of_nat (length vs) < 2 ^ 32). lia.
  - change (writeIndex fresh_pipe) with 0 in Hwi.
    change (readIndex fresh_pipe) with 0 in Hri.
    destruct (wrapped_writes_then_read_back p a b c) as (p' & Hrun' & H);
      [done | done | lia | lia | done |].
    exists p'. split; [exact (run_app _ _ _ _ _ _ _ _ Hrun Hrun') | exact H].
Qed.

Lemma read_back_after_wrap_witness :
  Z.of_nat (length (replicate (Z.to_nat (2 ^ 32 - 2)) 0)) = 2 ^ 32 - 2 ∧
  ∃ pipe, reachable pipe ∧ pending pipe ≡ₚ [1; 2] ∧
          ∀ fails fuel, tsPipeReaderTryReadBack fails fuel pipe = OutOfFuel.
Proof.
  assert (H : Z.of_nat (length (replicate (Z.to_nat (2 ^ 32 - 2)) 0)) = 2 ^ 32 - 2)
    by (rewrite length_replicate; lia).
  split; [exact H|].
  destruct (read_back_after_wrap _ 1 2 3 H) as (pipe & Hrun & Hp & _ & Hrb & _).
  exists pipe. split; [|split; [exact Hp | exact Hrb]].
  exists [], 1%nat. eexists. eexists. exact Hrun.
Defined.

(** * Further properties: overlapping calls *)

Module LedgerFacts.
Import Interleaved.
Import InterleavedFacts.

Lemma u32_eq (a b : Z) : u32 a = u32 b ↔ ∃ k, a = b + k * 2 ^ 32.
Proof.
  unfold u32. split.
  - intros H. exists (a / 2 ^ 32 - b / 2 ^ 32).
    pose proof (Z.div_mod a (2 ^ 32) ltac:(done)).
    pose proof (Z.div_mod b (2 ^ 32) ltac:(done)). lia.
  - intros [k ->]. apply Z_mod_plus_full.
Qed.

Lemma Zsum_cons (x : Z) (l : list Z) : Zsum (x :: l) = x + Zsum l.
Proof. reflexivity. Qed.

Lemma values_balance (Pe P Re R T S T' S' h h' X X' : list Z) :
  T' ++ h ≡ₚ T ++ h' → S' ++ X ≡ₚ S ++ X' →
  Pe ++ h ++ X ≡ₚ Re ++ h' ++ X' → P ≡ₚ R ++ T ++ S →
  Pe ++ P ≡ₚ (Re ++ R) ++ T' ++ S'.
Proof.
  intros E1 E2 E3 IH. apply (Permutation_app_inv_r (h ++ X)).
  transitivity ((Pe ++ h ++ X) ++ P); [solve_Permutation|].
  rewrite E3, IH.
  transitivity (Re ++ R ++ (T ++ h') ++ (S ++ X')); [solve_Permutation|].
  rewrite <- E1, <- E2. solve_Permutation.
Qed.

Lemma bind_insert_exchange {A} (f : A → list Z) (ts : list A) : ∀ g p p',
  ts !! g = Some p → (<[g := p']> ts ≫= f) ++ f p ≡ₚ (ts ≫= f) ++ f p'.
Proof.
  induction ts as [|x ts IH]; intros [|g] p p' Hg; try done.
  - injection Hg as ->. cbn [insert list_insert]. rewrite !bind_cons.
    solve_Permutation.
  - cbn [insert list_insert]. rewrite !bind_cons, <- !app_assoc.
    f_equiv. by apply IH.
Qed.

Lemma Zsum_insert_exchange {A} (f : A → Z) (ts : list A) : ∀ g p p',
  ts !! g = Some p →
  Zsum (f <$> <[g := p']> ts) + f p = Zsum (f <$> ts) + f p'.
Proof.
  induction ts as [|x ts IH]; intros [|g] p p' Hg; try done.
  - injection Hg as ->. change (<[0%nat := p']> (p :: ts)) with (p' :: ts).
    rewrite !fmap_cons, !Zsum_cons. lia.
  - change (<[S g := p']> (x :: ts)) with (x :: <[g := p']> ts).
    rewrite !fmap_cons, !Zsum_cons. specialize (IH g p p' Hg). lia.
Qed.

Lemma bind_point_exchange (f f' : Z → list Z) (b : Z) (l : list Z) :
  NoDup l → b ∈ l → (∀ a, a ≠ b → f' a = f a) →
  (l ≫= f') ++ f b ≡ₚ (l ≫= f) ++ f' b.
Proof.
  intros Hnd Hb Hoth.
  assert (Hext : ∀ l0 : list Z, b ∉ l0 → l0 ≫= f' = l0 ≫= f).
  { induction l0 as [|x l0 IH0]; [done|]. intros [Hbx Hl0]%not_elem_of_cons.
    by rewrite !bind_cons, IH0, Hoth. }
  induction Hnd as [|x l Hx Hnd IH]; [by apply elem_of_nil in Hb|].
  rewrite !bind_cons. destruct (decide (x = b)) as [->|Hne].
  - rewrite Hext by done. solve_Permutation.
  - rewrite Hoth by done. rewrite <- !app_assoc. f_equiv. apply IH.
    by apply elem_of_cons in Hb as [->|Hb].
Qed.

Lemma Zsum_point_exchange (f f' : Z → Z) (b : Z) (l : list Z) :
  NoDup l → b ∈ l → (∀ a, a ≠ b → f' a = f a) →
  Zsum (f' <$> l) + f b = Zsum (f <$> l) + f' b.
Proof.
  intros Hnd Hb Hoth.
  assert (Hext : ∀ l0 : list Z, b ∉ l0 → Zsum (f' <$> l0) = Zsum (f <$> l0)).
  { induction l0 as [|x l0 IH0]; [done|]. intros [Hbx Hl0]%not_elem_of_cons.
    by rewrite !fmap_cons, !Zsum_cons, IH0, Hoth. }
  induction Hnd as [|x l Hx Hnd IH]; [by apply elem_of_nil in Hb|].
  rewrite !fmap_cons, !Zsum_cons.
  destruct (decide (x = b)) as [->|Hne].
  - rewrite Hext by done. lia.
  - rewrite Hoth by done. apply elem_of_cons in Hb as [->|Hb]; [done|].
    specialize (IH Hb). lia.
Qed.

Lemma slot_in_slots (b : Z) : 0 ≤ b < TS_PIPE_SIZE → b ∈ seqZ 0 TS_PIPE_SIZE.
Proof. intros H. apply elem_of_seqZ. lia. Qed.

Lemma writeIndex_of_writer (p : pc) (w : Z) :
  writeIndex_of p = Some w → writer_pc p = true.
Proof. by destruct p. Qed.

(** A step of thread [g] that changes the state of the slot [b] at
    most. *)
Lemma ledger_update (c : config) (g : nat) (p p' : pc) (pipe' : TSpipe)
    (evs : list event) (b : Z) :
  invariant c → ledger c → threads c !! g = Some p →
  0 ≤ b < TS_PIPE_SIZE →
  (∀ a, a ≠ b → slot_after a (evs ++ log c) = slot_after a (log c)) →
  (evs ≫= published) ++ in_hand p ++ stored (slot_after b (log c))
    ≡ₚ (evs ≫= returned) ++ in_hand p' ++ stored (slot_after b (evs ++ log c)) →
  u32 (writeIndex pipe' - readCount pipe' +
       full (slot_after b (log c)) + weight p)
  = u32 (writeIndex (mem c) - readCount (mem c) +
         full (slot_after b (evs ++ log c)) + weight p') →
  (∀ g0, holder (slot_after b (evs ++ log c)) = Some g0 →
     if decide (g0 = g) then claim_of p' = Some b
     else holder (slot_after b (log c)) = Some g0) →
  (∀ a, a ≠ b → claim_of p = Some a → claim_of p' = Some a) →
  (∀ w, writeIndex_of p' = Some w → w = writeIndex pipe') →
  (writeIndex pipe' = writeIndex (mem c) ∨ writer_pc p = true) →
  ledger (mkConfig pipe' (<[g := p']> (threads c)) (evs ++ log c)).
Proof.
  intros Hinv (L1 & L2 & L3 & L4) Hg Hb Hoth HV HC HH HK HW HWI.
  assert (Hlt : (g < length (threads c))%nat) by by eapply lookup_lt_Some.
  split; [|split; [|split]]; cbn [log threads mem].
  - rewrite !bind_app.
    eapply values_balance; [| |exact HV|exact L1].
    + by apply bind_insert_exchange.
    + apply (bind_point_exchange (λ a, stored (slot_after a (log c)))
               (λ a, stored (slot_after a (evs ++ log c)))).
      * apply NoDup_seqZ.
      * by apply slot_in_slots.
      * intros a Ha. by rewrite Hoth.
  - intros a g0 Ha Hh. destruct (decide (a = b)) as [->|Hne].
    + specialize (HH g0 Hh). destruct (decide (g0 = g)) as [->|Hg0].
      * exists p'. split; [by apply list_lookup_insert_eq | done].
      * destruct (L2 b g0 Hb HH) as (p0 & Hp0 & Hc0). exists p0.
        by rewrite list_lookup_insert_ne.
    + rewrite Hoth in Hh by done. destruct (L2 a g0 Ha Hh) as (p0 & Hp0 & Hc0).
      destruct (decide (g0 = g)) as [->|Hg0].
      * assert (p0 = p) as -> by congruence. exists p'.
        split; [by apply list_lookup_insert_eq | by apply HK].
      * exists p0. by rewrite list_lookup_insert_ne.
  - pose proof (Zsum_insert_exchange weight (threads c) g p p' Hg) as EW.
    pose proof (Zsum_point_exchange (λ a, full (slot_after a (log c)))
                  (λ a, full (slot_after a (evs ++ log c))) b
                  (seqZ 0 TS_PIPE_SIZE) (NoDup_seqZ _ _) (slot_in_slots b Hb)) as EF.
    specialize (EF ltac:(intros a Ha; cbv beta; by rewrite Hoth)). cbv beta in EF.
    apply u32_eq in L3 as [k1 L3]. apply u32_eq in HC as [k2 HC].
    apply u32_eq. exists (k1 + k2). lia.
  - intros g0 p0 w H0 Hw0. destruct (decide (g0 = g)) as [->|Hne].
    + rewrite list_lookup_insert_eq in H0 by done. injection H0 as <-. by apply HW.
    + rewrite list_lookup_insert_ne in H0 by done. rewrite (L4 g0 p0 w H0 Hw0).
      destruct HWI as [->|Hwp]; [done|]. exfalso.
      destruct Hinv as (_ & _ & Hwr & _). apply Hne.
      rewrite (Hwr g p Hg Hwp). apply (Hwr g0 p0 H0).
      by eapply writeIndex_of_writer.
Qed.

(** Steps that report no event on a slot. *)
Lemma ledger_silent (c : config) (g : nat) (p p' : pc) (pipe' : TSpipe)
    (evs : list event) :
  invariant c → ledger c → threads c !! g = Some p →
  Forall (λ e, slot_of e = None) evs →
  (evs ≫= published) ++ in_hand p ≡ₚ (evs ≫= returned) ++ in_hand p' →
  u32 (writeIndex pipe' - readCount pipe' + weight p)
  = u32 (writeIndex (mem c) - readCount (mem c) + weight p') →
  claim_of p' = claim_of p →
  (∀ w, writeIndex_of p' = Some w → w = writeIndex pipe') →
  (writeIndex pipe' = writeIndex (mem c) ∨ writer_pc p = true) →
  ledger (mkConfig pipe' (<[g := p']> (threads c)) (evs ++ log c)).
Proof.
  intros Hinv Hled Hg Hevs HV HC HK HW HWI.
  assert (Hl : ∀ a, slot_after a (evs ++ log c) = slot_after a (log c))
    by (intros a; by apply slot_after_returns).
  pose proof TS_PIPE_SIZE_val as HN.
  apply (ledger_update c g p p' pipe' evs 0); try done.
  - rewrite Hl, !app_assoc. by rewrite HV.
  - rewrite Hl. apply u32_eq in HC as [k HC]. apply u32_eq. exists k. lia.
  - intros g0 Hh. rewrite Hl in Hh. destruct (decide (g0 = g)) as [->|]; [|done].
    destruct Hled as (_ & L2 & _).
    destruct (L2 0 g) as (p0 & Hp0 & Hc0); [lia | done |]. rewrite HK. congruence.
  - intros a _ Hc. by rewrite HK.
Qed.

(** Steps that report the event [e] on the slot [b]. *)
Lemma ledger_event (c : config) (g : nat) (p p' : pc) (pipe' : TSpipe)
    (e : event) (b : Z) (s s' : slot_state) (evs : list event) :
  invariant c → ledger c → threads c !! g = Some p →
  slot_of e = Some b → 0 ≤ b < TS_PIPE_SIZE →
  slot_after b (log c) = Some s → slot_next s e = Some s' →
  Forall (λ e, slot_of e = None) evs →
  ((evs ++ [e]) ≫= published) ++ in_hand p ++ stored (Some s)
    ≡ₚ ((evs ++ [e]) ≫= returned) ++ in_hand p' ++ stored (Some s') →
  u32 (writeIndex pipe' - readCount pipe' + full (Some s) + weight p)
  = u32 (writeIndex (mem c) - readCount (mem c) + full (Some s') + weight p') →
  (∀ g0, holder (Some s') = Some g0 →
     if decide (g0 = g) then claim_of p' = Some b
     else holder (Some s) = Some g0) →
  (∀ a, a ≠ b → claim_of p = Some a → claim_of p' = Some a) →
  (∀ w, writeIndex_of p' = Some w → w = writeIndex pipe') →
  (writeIndex pipe' = writeIndex (mem c) ∨ writer_pc p = true) →
  ledger (mkConfig pipe' (<[g := p']> (threads c)) (evs ++ e :: log c)).
Proof.
  intros Hinv Hled Hg He Hb Hs Hnext Hevs HV HC HH HK HW HWI.
  assert (Hsame : slot_after b ((evs ++ [e]) ++ log c) = Some s').
  { rewrite <- app_assoc. cbn [app]. rewrite slot_after_returns by done.
    by rewrite (slot_after_same b e (log c) s). }
  replace (evs ++ e :: log c) with ((evs ++ [e]) ++ log c)
    by (by rewrite <- app_assoc).
  apply (ledger_update c g p p' pipe' (evs ++ [e]) b); try done.
  - intros a Ha. rewrite <- app_assoc. cbn [app].
    rewrite slot_after_returns by done. apply slot_after_other.
    rewrite He. congruence.
  - by rewrite Hs, Hsame.
  - by rewrite Hs, Hsame.
  - by rewrite Hs, Hsame.
Qed.

Lemma u32_repr (x : Z) : ∃ k, u32 x = x + k * 2 ^ 32.
Proof. apply u32_eq. unfold u32. by rewrite Z.mod_mod. Qed.

Ltac ledger_side :=
  cbn [rev app in_hand weight claim_of writeIndex_of writer_pc slot_of
       stored full holder slot_next];
  pipe_simpl;
  try done; try (by repeat constructor); try (by left); try (by right);
  try (f_equal; lia); try (cbn; done);
  try (by rewrite decide_True);
  try (intros ? [= <-]; by rewrite decide_True);
  try (intros ? [= <-]; reflexivity);
  try (by intros ? ? [= <-]).

Ltac silent_ledger c g :=
  match goal with
  | |- ledger (mkConfig _ _ (rev ?evs ++ _)) =>
    eapply (ledger_silent c g _ _ _ (rev evs));
    [eassumption | eassumption | eassumption | ..]; ledger_side
  end.

Ltac event_ledger c g e a s s' evs :=
  eapply (ledger_event c g _ _ _ e a s s' evs);
  [eassumption | eassumption | eassumption | ..]; ledger_side.

Lemma step_ledger (c c' : config) : invariant c → ledger c → step c c' → ledger c'.
Proof.
  intros Hinv Hled Hstep.
  destruct Hstep as [c g p spurious next pipe' p' evs Hg Hnext Hstep].
  pose proof Hinv as (Hws & Hpc & Hwr & Hsl).
  pose proof (Hpc g p Hg) as Hp.
  assert (Hcopy : ∀ w, writeIndex_of p = Some w → w = writeIndex (mem c)).
  { intros w. destruct Hled as (_ & _ & _ & L4). by apply (L4 g). }
  destruct p; cbn [thread_step] in Hstep; cbn [pc_inv] in Hp;
    cbn [writeIndex_of] in Hcopy.
  - (* Idle *)
    destruct next; injection Hstep as <- <- <-; silent_ledger c g.
  - (* RB_load_writeIndex *)
    destruct (0 =? _); [|destruct (_ >=? _)];
      injection Hstep as <- <- <-; silent_ledger c g.
  - (* RB_load_readIndex *)
    injection Hstep as <- <- <-; silent_ledger c g.
  - (* RB_cmpxchg *)
    destruct (cmpxchg_flag _ _ _ _ _) as [[ok p1]| |] eqn:E; res_simpl in Hstep;
      try discriminate.
    apply cmpxchg_flag_Ok in E as (Ha & f & Hf & E). cbn [fst snd] in E.
    destruct ok.
    + destruct E as (-> & _ & S). injection Hstep as <- <- <-.
      apply store_flag_Ok in S as (_ & Hlen & ->).
      set (a := Z.land readIndexToUse TS_PIPE_MASK) in *.
      assert (Hr : 0 ≤ a < TS_PIPE_SIZE) by apply slot_range.
      destruct (slot_inv_readable _ _ _ (Hsl _ Hr) Hf) as (v & Hs & Hb).
      event_ledger c g (EvClaim g a) a (Full v) (Held g v) (@nil event).
    + destruct E as [_ ->]. injection Hstep as <- <- <-; silent_ledger c g.
  - (* RB_load_readCount *)
    injection Hstep as <- <- <-; silent_ledger c g.
  - (* RB_fetch_add *)
    injection Hstep as <- <- <-; silent_ledger c g.
    unfold tsAtomicFetchAdd_u32. cbn [snd].
    destruct (u32_repr (readCount (mem c) + 1)) as [k ->].
    apply u32_eq. exists (- k). lia.
  - (* RB_read_buffer *)
    destruct Hp as [Hr [v Hs]].
    destruct (arr_get _ _) as [out| |] eqn:B; res_simpl in Hstep; try discriminate.
    injection Hstep as <- <- <-. apply arr_get_Ok in B as [_ Hb].
    pose proof (Hsl _ Hr) as Hslot. rewrite Hs in Hslot. destruct Hslot as [Hf Hv].
    assert (out = v) as -> by congruence.
    event_ledger c g (EvRead g actualReadIndex v) actualReadIndex
                 (Held g v) (Taken g) (@nil event).
  - (* RB_store_flag *)
    destruct Hp as [Hr Hs].
    destruct (store_flag _ _ _) as [p1| |] eqn:S; res_simpl in Hstep; try discriminate.
    injection Hstep as <- <- <-. apply store_flag_Ok in S as (_ & Hlen & ->).
    event_ledger c g (EvRelease g actualReadIndex) actualReadIndex
                 (Taken g) Free [EvReturn g ReaderTryReadBack (1, Some out)].
  - (* RF_load_readCount *)
    destruct (0 =? _); injection Hstep as <- <- <-; silent_ledger c g.
  - (* RF_store_readIndex *)
    injection Hstep as <- <- <-; silent_ledger c g.
  - (* RF_cmpxchg *)
    destruct (cmpxchg_flag _ _ _ _ _) as [[ok p1]| |] eqn:E; res_simpl in Hstep;
      try discriminate.
    apply cmpxchg_flag_Ok in E as (Ha & f & Hf & E). cbn [fst snd] in E.
    destruct ok.
    + destruct E as (-> & _ & S). injection Hstep as <- <- <-.
      apply store_flag_Ok in S as (_ & Hlen & ->).
      set (a := Z.land frontReadIndex TS_PIPE_MASK) in *.
      assert (Hr : 0 ≤ a < TS_PIPE_SIZE) by apply slot_range.
      destruct (slot_inv_readable _ _ _ (Hsl _ Hr) Hf) as (v & Hs & Hb).
      event_ledger c g (EvClaim g a) a (Full v) (Held g v) (@nil event).
    + destruct E as [_ ->]. injection Hstep as <- <- <-; silent_ledger c g.
  - (* RF_load_readIndex *)
    destruct (_ >=? _); injection Hstep as <- <- <-; silent_ledger c g.
  - (* RF_read_buffer *)
    destruct Hp as [Hr [v Hs]].
    destruct (arr_get _ _) as [out| |] eqn:B; res_simpl in Hstep; try discriminate.
    injection Hstep as <- <- <-. apply arr_get_Ok in B as [_ Hb].
    pose proof (Hsl _ Hr) as Hslot. rewrite Hs in Hslot. destruct Hslot as [Hf Hv].
    assert (out = v) as -> by congruence.
    event_ledger c g (EvRead g actualReadIndex v) actualReadIndex
                 (Held g v) (Taken g) (@nil event).
  - (* RF_store_flag *)
    destruct Hp as [Hr Hs].
    destruct (store_flag _ _ _) as [p1| |] eqn:S; res_simpl in Hstep; try discriminate.
    injection Hstep as <- <- <-. apply store_flag_Ok in S as (_ & Hlen & ->).
    event_ledger c g (EvRelease g actualReadIndex) actualReadIndex
                 (Taken g) Free (@nil event).
  - (* RF_store_writeIndex *)
    injection Hstep as <- <- <-; silent_ledger c g.
    rewrite (Hcopy _ eq_refl). unfold tsAtomicStore_u32.
    destruct (u32_repr (writeIndex (mem c) - 1)) as [k ->].
    apply u32_eq. exists k. lia.
  - (* WF_load_flag *)
    destruct (arr_get _ _) as [f| |] eqn:B; res_simpl in Hstep; try discriminate.
    destruct (negb _); injection Hstep as <- <- <-; silent_ledger c g.
  - (* WF_store_buffer *)
    destruct (arr_set _ _ _) as [buf| |] eqn:B; res_simpl in Hstep; try discriminate.
    injection Hstep as <- <- <-; silent_ledger c g.
  - (* WF_store_flag *)
    destruct Hp as (Hr & Hs & Hb).
    destruct (store_flag _ _ _) as [p1| |] eqn:S; res_simpl in Hstep; try discriminate.
    injection Hstep as <- <- <-. apply store_flag_Ok in S as (_ & Hlen & ->).
    event_ledger c g (EvPublish g actualWriteIndex in_) actualWriteIndex
                 Free (Full in_) (@nil event).
  - (* WF_fetch_add *)
    injection Hstep as <- <- <-; silent_ledger c g.
    unfold tsAtomicFetchAdd_u32. cbn [snd].
    destruct (u32_repr (writeIndex (mem c) + 1)) as [k ->].
    apply u32_eq. exists k. lia.
Qed.

Lemma bind_all_nil {A} (f : A → list Z) (l : list A) :
  Forall (λ x, f x = []) l → l ≫= f = [].
Proof. induction 1 as [|x l Hx _ IH]; [done|]. by rewrite bind_cons, Hx, IH. Qed.

Lemma Zsum_all_zero {A} (f : A → Z) (l : list A) :
  Forall (λ x, f x = 0) l → Zsum (f <$> l) = 0.
Proof.
  induction 1 as [|x l Hx _ IH]; [done|]. rewrite fmap_cons, Zsum_cons. lia.
Qed.

Lemma init_ledger (n : nat) : ledger (init n).
Proof.
  assert (Hidle : ∀ P : pc → Prop, P Idle → Forall P (replicate n Idle)).
  { intros P HP. by apply Forall_replicate. }
  split; [|split; [|split]]; cbn [init log threads mem].
  - unfold in_slots. rewrite (bind_all_nil in_hand) by by apply Hidle.
    by rewrite (bind_all_nil (λ a, stored (slot_after a [])))
      by by apply Forall_forall.
  - intros a g _. done.
  - rewrite (Zsum_all_zero weight) by by apply Hidle.
    by rewrite (Zsum_all_zero (λ a, full (slot_after a [])))
      by by apply Forall_forall.
  - intros g p w [-> _]%lookup_replicate. done.
Qed.

Lemma reach_ledger (n : nat) (c : config) : reach n c → ledger c.
Proof.
  induction 1 as [|c c' Hc IH Hstep]; [apply init_ledger|].
  eapply step_ledger; [|done..]. by eapply reach_invariant.
Qed.

(** ** When no call is in progress *)

Lemma stored_payloads (st : Z → option slot_state) (fl : list Z) : ∀ buf m,
  length buf = length fl →
  (∀ i : nat, (i < length fl)%nat →
     match st (m + Z.of_nat i) with
     | Some Free => fl !! i = Some TS_PIPE_WRITABLE
     | Some (Full v) => fl !! i = Some TS_PIPE_READABLE ∧ buf !! i = Some v
     | _ => False
     end) →
  seqZ m (Z.of_nat (length fl)) ≫= (λ a, stored (st a)) = payloads buf fl.
Proof.
  induction fl as [|f fl IH]; intros [|b buf] m Hlen H; try done.
  rewrite seqZ_cons by (cbn [length]; lia). rewrite bind_cons.
  replace (Z.pred (Z.of_nat (length (f :: fl)))) with (Z.of_nat (length fl))
    by (cbn [length]; lia).
  rewrite (IH buf (Z.succ m)).
  - pose proof (H 0%nat ltac:(cbn [length]; lia)) as H0.
    rewrite Z.add_0_r in H0. cbn [payloads].
    destruct (st m) as [[|v|g v|g]|]; try done.
    + injection H0 as ->. done.
    + destruct H0 as [[= ->] [= ->]]. by rewrite Z.eqb_refl.
  - by injection Hlen.
  - intros i Hi. specialize (H (S i) ltac:(cbn [length]; lia)).
    by replace (Z.succ m + Z.of_nat i) with (m + Z.of_nat (S i)) by lia.
Qed.

Lemma full_counts_stored (st : Z → option slot_state) (l : list Z) :
  Forall (λ a, holder (st a) = None) l →
  Zsum ((λ a, full (st a)) <$> l) = Z.of_nat (length (l ≫= λ a, stored (st a))).
Proof.
  induction 1 as [|a l Ha _ IH]; [done|].
  rewrite fmap_cons, Zsum_cons, bind_cons, length_app, IH.
  destruct (st a) as [[|v|g v|g]|]; cbn in *; try done; lia.
Qed.

(** With every thread idle, a slot is free or holds a published
    payload. *)
Lemma idle_slots (c : config) (a : Z) :
  invariant c → ledger c → Forall (λ p, p = Idle) (threads c) →
  0 ≤ a < TS_PIPE_SIZE →
  match slot_after a (log c) with
  | Some Free => flags (mem c) !! Z.to_nat a = Some TS_PIPE_WRITABLE
  | Some (Full v) =>
    flags (mem c) !! Z.to_nat a = Some TS_PIPE_READABLE ∧
    buffer (mem c) !! Z.to_nat a = Some v
  | _ => False
  end.
Proof.
  intros (_ & _ & _ & Hsl) (_ & L2 & _) Hidle Ha.
  specialize (Hsl a Ha). specialize (L2 a).
  assert (Hno : ∀ g, holder (slot_after a (log c)) ≠ Some g).
  { intros g Hh. destruct (L2 g Ha Hh) as (p & Hp & Hc).
    rewrite Forall_lookup in Hidle. by rewrite (Hidle g p Hp) in Hc. }
  destruct (slot_after a (log c)) as [[|v|g v|g]|]; cbn [slot_inv holder] in *;
    try done; by destruct (Hno g).
Qed.

Lemma idle_quiescent (c : config) :
  invariant c → ledger c → Forall (λ p, p = Idle) (threads c) →
  quiescent (mem c) ∧ in_slots (log c) = pending (mem c) ∧
  threads c ≫= in_hand = [].
Proof.
  intros Hinv Hled Hidle. pose proof Hinv as ([Hlb Hlf] & _).
  pose proof Hled as (_ & _ & L3 & _). pose proof TS_PIPE_SIZE_val as HN.
  assert (Hslots : in_slots (log c) = pending (mem c)).
  { unfold in_slots, pending.
    replace TS_PIPE_SIZE with (Z.of_nat (length (flags (mem c))))
      by (rewrite Hlf; lia).
    apply stored_payloads; [congruence|]. intros i Hi.
    pose proof (idle_slots c (Z.of_nat i) Hinv Hled Hidle ltac:(lia)) as H.
    by rewrite Nat2Z.id in H. }
  split; [|split; [done|]].
  - split; [done|]. split.
    + apply Forall_lookup. intros i f Hf.
      pose proof (lookup_lt_Some _ _ _ Hf) as Hi.
      pose proof (idle_slots c (Z.of_nat i) Hinv Hled Hidle ltac:(lia)) as H.
      rewrite Nat2Z.id in H.
      destruct (slot_after _ _) as [[|v|g v|g]|]; try done.
      * left. congruence.
      * right. destruct H. congruence.
    + rewrite L3, <- Hslots. unfold in_slots.
      rewrite (Zsum_all_zero weight), Z.add_0_r.
      2:{ revert Hidle. apply Forall_impl. by intros p ->. }
      rewrite (full_counts_stored (λ a, slot_after a (log c))).
      * fold (in_slots (log c)). rewrite Hslots. apply u32_small.
        pose proof (pending_bound (mem c) (conj Hlb Hlf)). lia.
      * apply list.Forall_forall. intros a Ha%elem_of_seqZ.
        pose proof (idle_slots c a Hinv Hled Hidle ltac:(lia)) as H.
        by destruct (slot_after _ _) as [[|v|g v|g]|].
  - apply bind_all_nil. revert Hidle. apply Forall_impl. by intros p ->.
Qed.

(** X11.  Under every interleaving of the writer with any number of
    threads reading back, no payload is made up, returned twice or lost:
    the payloads published so far are, counted with their multiplicity,
    those that reads have returned, those that a read has taken out of
    its slot and not yet returned, and those still kept in slots.  So
    the payloads returned are among the payloads published. *)
Theorem payloads_conserved (n : nat) (c : config) :
  reach n c →
  log c ≫= published
    ≡ₚ (log c ≫= returned) ++ (threads c ≫= in_hand) ++ in_slots (log c) ∧
  (log c ≫= returned) ⊆+ (log c ≫= published).
Proof.
  intros (L1 & _)%reach_ledger. split; [done|].
  rewrite L1. by apply submseteq_inserts_r.
Qed.

(** The writer publishes 7, thread 1 reads it and is about to release
    the slot, the writer publishes 8. *)
Lemma payloads_conserved_witness :
  ∃ c,
    run_schedule
      [(0, false, WriterTryWriteFront 7); (0, false, WriterTryWriteFront 7);
       (0, false, WriterTryWriteFront 7); (0, false, WriterTryWriteFront 7);
       (0, false, WriterTryWriteFront 7);
       (1, false, ReaderTryReadBack); (1, false, ReaderTryReadBack);
       (1, false, ReaderTryReadBack); (1, false, ReaderTryReadBack);
       (1, false, ReaderTryReadBack);
       (0, false, WriterTryWriteFront 8); (0, false, WriterTryWriteFront 8);
       (0, false, WriterTryWriteFront 8); (0, false, WriterTryWriteFront 8);
       (0, false, WriterTryWriteFront 8)]%nat
      (init 2) = Some c ∧
    threads c = [Idle; RB_store_flag 0 7] ∧
    in_slots (log c) = [8] ∧
    reach 2 c ∧
    log c ≫= published
      ≡ₚ (log c ≫= returned) ++ (threads c ≫= in_hand) ++ in_slots (log c).
Proof.
  eexists. split; [vm_compute; reflexivity|].
  split; [reflexivity|]. split; [vm_compute; reflexivity|].
  match goal with |- reach 2 ?c ∧ _ => assert (H : reach 2 c) end.
  { eapply (run_schedule_reach 2
      [(0, false, WriterTryWriteFront 7); (0, false, WriterTryWriteFront 7);
       (0, false, WriterTryWriteFront 7); (0, false, WriterTryWriteFront 7);
       (0, false, WriterTryWriteFront 7);
       (1, false, ReaderTryReadBack); (1, false, ReaderTryReadBack);
       (1, false, ReaderTryReadBack); (1, false, ReaderTryReadBack);
       (1, false, ReaderTryReadBack);
       (0, false, WriterTryWriteFront 8); (0, false, WriterTryWriteFront 8);
       (0, false, WriterTryWriteFront 8); (0, false, WriterTryWriteFront 8);
       (0, false, WriterTryWriteFront 8)]%nat);
      [apply reach_init|].
    vm_compute. reflexivity. }
  split; [exact H|].
  exact (proj1 (payloads_conserved 2 _ H)).
Defined.

(** X12.  Whenever no call is in progress, however the calls before
    were interleaved, the pipe is in a state that calls made one at a
    time keep: every flag is WRITABLE or READABLE and
    [writeIndex - readCount] counts the READABLE slots.  The payloads of
    these slots are the payloads published and not yet returned, and
    [tsPipeIsEmpty] holds exactly when there is none. *)
Theorem idle_pipe_is_quiescent (n : nat) (c : config) :
  reach n c → Forall (λ p, p = Idle) (threads c) →
  quiescent (mem c) ∧
  log c ≫= published ≡ₚ (log c ≫= returned) ++ pending (mem c) ∧
  (tsPipeIsEmpty (mem c) = true ↔ pending (mem c) = []).
Proof.
  intros Hreach Hidle.
  pose proof (reach_invariant n c Hreach) as Hinv.
  pose proof (reach_ledger n c Hreach) as Hled.
  destruct (idle_quiescent c Hinv Hled Hidle) as (Hq & Hslots & Hhand).
  split; [done|]. split.
  - destruct Hled as (L1 & _). by rewrite L1, Hhand, Hslots.
  - destruct Hq as (_ & _ & Hcnt). unfold tsPipeIsEmpty, tsAtomicLoad_u32.
    rewrite Hcnt. destruct (pending (mem c)); cbn [length]; [done|].
    split; [|done]. intros H%Z.eqb_eq. lia.
Qed.

(** The writer publishes 7, thread 1 reads it back and returns, the
    writer publishes 8. *)
Lemma idle_pipe_is_quiescent_witness :
  ∃ c,
    run_schedule
      [(0, false, WriterTryWriteFront 7); (0, false, WriterTryWriteFront 7);
       (0, false, WriterTryWriteFront 7); (0, false, WriterTryWriteFront 7);
       (0, false, WriterTryWriteFront 7);
       (1, false, ReaderTryReadBack); (1, false, ReaderTryReadBack);
       (1, false, ReaderTryReadBack); (1, false, ReaderTryReadBack);
       (1, false, ReaderTryReadBack); (1, false, ReaderTryReadBack);
       (0, false, WriterTryWriteFront 8); (0, false, WriterTryWriteFront 8);
       (0, false, WriterTryWriteFront 8); (0, false, WriterTryWriteFront 8);
       (0, false, WriterTryWriteFront 8)]%nat
      (init 2) = Some c ∧
    log c ≫= returned = [7] ∧
    reach 2 c ∧ Forall (λ p, p = Idle) (threads c) ∧
    log c ≫= published ≡ₚ (log c ≫= returned) ++ pending (mem c).
Proof.
  eexists. split; [vm_compute; reflexivity|].
  split; [reflexivity|].
  match goal with |- reach 2 ?c ∧ _ => assert (H : reach 2 c) end.
  { eapply (run_schedule_reach 2
      [(0, false, WriterTryWriteFront 7); (0, false, WriterTryWriteFront 7);
       (0, false, WriterTryWriteFront 7); (0, false, WriterTryWriteFront 7);
       (0, false, WriterTryWriteFront 7);
       (1, false, ReaderTryReadBack); (1, false, ReaderTryReadBack);
       (1, false, ReaderTryReadBack); (1, false, ReaderTryReadBack);
       (1, false, ReaderTryReadBack); (1, false, ReaderTryReadBack);
       (0, false, WriterTryWriteFront 8); (0, false, WriterTryWriteFront 8);
       (0, false, WriterTryWriteFront 8); (0, false, WriterTryWriteFront 8);
       (0, false, WriterTryWriteFront 8)]%nat);
      [apply reach_init|].
    vm_compute. reflexivity. }
  match goal with |- _ ∧ ?F ∧ _ => assert (Hidle : F) by (by repeat constructor) end.
  split; [exact H|]. split; [exact Hidle|].
  exact (proj1 (proj2 (idle_pipe_is_quiescent 2 _ H Hidle))).
Defined.

(** X13.  Under every interleaving, the flag of a slot is INVALID exactly
    while some thread is between the compare exchange that claimed the
    slot and its store of WRITABLE to the flag: no call that has
    returned leaves a slot INVALID behind, and a slot that is INVALID is
    given back only by the thread that holds it. *)
Theorem invalid_flag_has_a_holder (n : nat) (c : config) (a : Z) :
  reach n c → 0 ≤ a < TS_PIPE_SIZE →
  (flags (mem c) !! Z.to_nat a = Some TS_PIPE_INVALID ↔
   ∃ g p, threads c !! g = Some p ∧ claim_of p = Some a).
Proof.
  intros Hreach Ha.
  pose proof (reach_invariant n c Hreach) as (_ & Hpc & _ & Hsl).
  pose proof (reach_ledger n c Hreach) as (_ & L2 & _).
  specialize (Hsl a Ha). specialize (L2 a). split.
  - intros Hf.
    destruct (slot_after a (log c)) as [[|v|g v|g]|];
      cbn [slot_inv holder] in Hsl, L2; try done.
    + rewrite Hf in Hsl. discriminate.
    + destruct Hsl as [Hr _]. rewrite Hf in Hr. discriminate.
    + destruct (L2 g Ha eq_refl) as (p & Hp & Hc). eauto.
    + destruct (L2 g Ha eq_refl) as (p & Hp & Hc). eauto.
  - intros (g & p & Hp & Hc).
    destruct (pc_inv_claim _ _ _ _ _ (Hpc g p Hp) Hc) as [_ [[v Hs]|Hs]];
      rewrite Hs in Hsl; cbn [slot_inv] in Hsl; [by destruct Hsl | done].
Qed.

(** The writer publishes 7 and thread 1 wins the compare exchange on
    slot 0. *)
Lemma invalid_flag_has_a_holder_witness :
  ∃ c,
    run_schedule
      [(0, false, WriterTryWriteFront 7); (0, false, WriterTryWriteFront 7);
       (0, false, WriterTryWriteFront 7); (0, false, WriterTryWriteFront 7);
       (0, false, WriterTryWriteFront 7);
       (1, false, ReaderTryReadBack); (1, false, ReaderTryReadBack);
       (1, false, ReaderTryReadBack)]%nat
      (init 2) = Some c ∧
    threads c = [Idle; RB_fetch_add 0] ∧
    reach 2 c ∧ 0 ≤ 0 < TS_PIPE_SIZE ∧
    flags (mem c) !! Z.to_nat 0 = Some TS_PIPE_INVALID ∧
    ∃ g p, threads c !! g = Some p ∧ claim_of p = Some 0.
Proof.
  eexists. split; [vm_compute; reflexivity|]. split; [reflexivity|].
  match goal with |- reach 2 ?c ∧ _ => assert (H : reach 2 c) end.
  { eapply (run_schedule_reach 2
      [(0, false, WriterTryWriteFront 7); (0, false, WriterTryWriteFront 7);
       (0, false, WriterTryWriteFront 7); (0, false, WriterTryWriteFront 7);
       (0, false, WriterTryWriteFront 7);
       (1, false, ReaderTryReadBack); (1, false, ReaderTryReadBack);
       (1, false, ReaderTryReadBack)]%nat);
      [apply reach_init|].
    vm_compute. reflexivity. }
  assert (Ha : 0 ≤ 0 < TS_PIPE_SIZE) by (by vm_compute).
  match goal with |- _ ∧ _ ∧ ?F ∧ _ => assert (Hf : F) by (vm_compute; reflexivity) end.
  split; [exact H|]. split; [exact Ha|]. split; [exact Hf|].
  exact (proj1 (invalid_flag_has_a_holder 2 _ 0 H Ha) Hf).
Defined.

End LedgerFacts.
